(** * ESG knowledge-graph pipeline: identity normaliser, graph merger,
      extraction loop, graph loader and query gateway.

    A shallow embedding of [01_data_extractor.py], [02_neo4j_uploader.py],
    [03_vector_store.py] and [04_engine_interface.py].

    Conventions.
    - A Python [str] is a Rocq [string]; one [ascii] stands for one code point
      in the range U+0000..U+00FF.  The character tables below ([isspace],
      [isword], [lower_char]) are the ones of CPython's [str.isspace], of the
      [re] classes [\s] and [\w] on [str] patterns, and of [str.lower], cut
      down to that range.  What is stated of [normalize_id] for names of any
      script is stated in [UnicodeNormalizer], where a string is the list of
      its code points and the character database is a parameter.
    - The checkpoint file is a value of the loop's state, and each of the
      calls under the loop's [try] can fail.
    - Python dictionaries that are only looked up are [gmap]s; the dictionary
      whose iteration order reaches the output ([combined_nodes]) is an
      association list kept in first-insertion order.
    - External collaborators (the language model, the graph store engine) are
      function arguments or explicit store values. *)

From Stdlib Require Import Ascii String List NArith Arith Lia Bool DecimalString.
From stdpp Require Import base gmap strings list fin_maps.
Import ListNotations.

Local Open Scope string_scope.
Local Open Scope list_scope.

(* ===================================================================== *)
(** ** Python strings *)
(* ===================================================================== *)

Module PyStr.

Definition chars (s : string) : list ascii := list_ascii_of_string s.
Definition str (l : list ascii) : string := string_of_list_ascii l.

Definition between (lo hi n : N) : bool := ((lo <=? n) && (n <=? hi))%N.

(** [str.isspace] / the class [\s]:
    9..13, 28..32, U+0085 and U+00A0. *)
Definition isspace (c : ascii) : bool :=
  let n := N_of_ascii c in
  between 9 13 n || between 28 32 n || (n =? 133)%N || (n =? 160)%N.

(** The class [\w]: alphanumerics (in the Unicode sense) and the underscore. *)
Definition isword (c : ascii) : bool :=
  let n := N_of_ascii c in
  between 48 57 n || between 65 90 n || (n =? 95)%N || between 97 122 n
  || (n =? 170)%N || between 178 179 n || (n =? 181)%N
  || between 185 186 n || between 188 190 n
  || between 192 214 n || between 216 246 n || between 248 255 n.

(** [str.lower] on one code point: A..Z and the Latin-1 capitals
    U+00C0..U+00DE (U+00D7, the multiplication sign, excepted) move up by 32. *)
Definition lower_char (c : ascii) : ascii :=
  let n := N_of_ascii c in
  if between 65 90 n || (between 192 222 n && negb (n =? 215)%N)
  then ascii_of_N (n + 32) else c.

Definition lower (l : list ascii) : list ascii := List.map lower_char l.

(** [re.sub(r'[^\w\s]', '', s)]: every character that is neither a word
    character nor whitespace is deleted. *)
Definition keep (c : ascii) : bool := isword c || isspace c.
Definition re_sub_nonword (l : list ascii) : list ascii := List.filter keep l.

(** [str.strip()] with no argument. *)
Fixpoint lstrip (l : list ascii) : list ascii :=
  match l with
  | c :: r => if isspace c then lstrip r else l
  | [] => []
  end.
Definition rstrip (l : list ascii) : list ascii := rev (lstrip (rev l)).
Definition strip (l : list ascii) : list ascii := rstrip (lstrip l).

(** [s.replace(' ', '_')]: the pattern is the single character U+0020. *)
Definition space : ascii := " "%char.
Definition underscore : ascii := "_"%char.
Definition replace_space (l : list ascii) : list ascii :=
  List.map (fun c => if Ascii.eqb c space then underscore else c) l.

(** [sep.join(parts)]. *)
Fixpoint join (sep : string) (parts : list string) : string :=
  match parts with
  | [] => ""
  | [p] => p
  | p :: rest => p ++ sep ++ join sep rest
  end.

(** The line feed, written [\n] in the source. *)
Definition LF : ascii := ascii_of_nat 10.
Definition nl : string := String LF EmptyString.

(** [str(n)] for a non-negative integer. *)
Definition str_of_nat (n : nat) : string := NilEmpty.string_of_uint (Nat.to_uint n).

(** A JSON / Python scalar as the pipeline meets it: [None] (JSON [null], and
    the other values on which [pd.isna] answers true) or a string. *)
Inductive pyval : Type :=
| PyNone
| PyStr (s : string).

#[global] Instance pyval_eq_dec : EqDecision pyval.
Proof. solve_decision. Defined.

End PyStr.

(* ===================================================================== *)
(** ** 01_data_extractor.py: normalize_id *)
(* ===================================================================== *)

Module Normalizer.
Import PyStr.

(** [pd.isna] on a scalar. *)
Definition isna (name : pyval) : bool :=
  match name with PyNone => true | PyStr _ => false end.

Definition clean_name (s : string) : string :=
  str (replace_space (lower (strip (re_sub_nonword (chars s))))).

Definition normalize_id (label : string) (name : pyval) : string :=
  if isna name then label ++ "_unknown"
  else match name with
       | PyStr s => label ++ "_" ++ clean_name s
       | PyNone => label ++ "_unknown"
       end.

(** The normal form in the words of the specification: whitespace *runs*
    become one underscore each. *)
Fixpoint collapse_ws (in_run : bool) (l : list ascii) : list ascii :=
  match l with
  | [] => []
  | c :: r =>
      if isspace c
      then (if in_run then collapse_ws true r else underscore :: collapse_ws true r)
      else c :: collapse_ws false r
  end.

Definition spec_clean_name (s : string) : string :=
  str (collapse_ws false (lower (strip (re_sub_nonword (chars s))))).

Definition spec_normalize_id (label : string) (s : string) : string :=
  label ++ "_" ++ spec_clean_name s.

(** A name is "missing or empty" in the specification's sense. *)
Definition missing_or_empty (name : pyval) : Prop :=
  name = PyNone \/ name = PyStr "".

End Normalizer.

(* ===================================================================== *)
(** ** 01_data_extractor.py: normalize_id on names of any code points *)
(* ===================================================================== *)

(** [normalize_id] once more, with a string as the list of its code points
    and the Unicode character database as a parameter, so that nothing is
    said of one script only.  [Normalizer.normalize_id] is this function at
    the tables of [PyStr] (see [latin1] below). *)
Module UnicodeNormalizer.
Import PyStr.

(** A Python [str]: its code points, in order. *)
Definition ustr : Type := list N.

(** What [normalize_id] asks of the character database:
    - [u_isspace]: the whitespace test of [str.strip()] and of the class [\s]
      (one and the same set of code points);
    - [u_isword]: the class [\w];
    - [u_lower]: [str.lower()], a function of the whole string (a code point
      may lower to several, and the capital sigma lowers by its position). *)
Record ucd : Type := Ucd {
  u_isspace : N -> bool;
  u_isword : N -> bool;
  u_lower : ustr -> ustr
}.

(** The [name] argument: a value on which [pd.isna] answers true, or a
    string. *)
Inductive uval : Type :=
| UNone
| UStr (s : ustr).

(** A literal of the source, all of whose characters are ASCII. *)
Definition literal (s : string) : ustr := List.map N_of_ascii (chars s).

Definition space : N := 32%N.
Definition underscore : N := 95%N.

Section Tables.
Variable D : ucd.

(** [re.sub(r'[^\w\s]', '', s)]. *)
Definition keep (c : N) : bool := u_isword D c || u_isspace D c.
Definition re_sub_nonword (l : ustr) : ustr := List.filter keep l.

(** [str.strip()] with no argument. *)
Fixpoint lstrip (l : ustr) : ustr :=
  match l with
  | c :: r => if u_isspace D c then lstrip r else l
  | [] => []
  end.
Definition rstrip (l : ustr) : ustr := rev (lstrip (rev l)).
Definition strip (l : ustr) : ustr := rstrip (lstrip l).

(** [s.replace(' ', '_')]. *)
Definition replace_space (l : ustr) : ustr :=
  List.map (fun c => if N.eqb c space then underscore else c) l.

Definition isna (name : uval) : bool :=
  match name with UNone => true | UStr _ => false end.

Definition clean_name (s : ustr) : ustr :=
  replace_space (u_lower D (strip (re_sub_nonword s))).

Definition normalize_id (label : ustr) (name : uval) : ustr :=
  if isna name then label ++ literal "_unknown"
  else match name with
       | UStr s => label ++ literal "_" ++ clean_name s
       | UNone => label ++ literal "_unknown"
       end.

(** The normal form in the words of the specification: whitespace *runs*
    become one underscore each. *)
Fixpoint collapse_ws (in_run : bool) (l : ustr) : ustr :=
  match l with
  | [] => []
  | c :: r =>
      if u_isspace D c
      then (if in_run then collapse_ws true r else underscore :: collapse_ws true r)
      else c :: collapse_ws false r
  end.

Definition spec_clean_name (s : ustr) : ustr :=
  collapse_ws false (u_lower D (strip (re_sub_nonword s))).

Definition spec_normalize_id (label : ustr) (s : ustr) : ustr :=
  label ++ literal "_" ++ spec_clean_name s.

(** Every whitespace character of [l] is U+0020 and no two are adjacent. *)
Fixpoint single_spaced (prev_ws : bool) (l : ustr) : bool :=
  match l with
  | [] => true
  | c :: r =>
      if u_isspace D c
      then negb prev_ws && N.eqb c space && single_spaced true r
      else single_spaced false r
  end.

(** The name, once stripped of the other characters, trimmed and lowercased,
    has only isolated U+0020 characters as whitespace. *)
Definition plain_spacing (s : ustr) : bool :=
  single_spaced false (u_lower D (strip (re_sub_nonword s))).

End Tables.

(** The tables of [PyStr] as a database: CPython's on U+0000..U+00FF. *)
Definition latin1 : ucd :=
  {| u_isspace := fun n => (n <? 256)%N && PyStr.isspace (ascii_of_N n);
     u_isword := fun n => (n <? 256)%N && PyStr.isword (ascii_of_N n);
     u_lower := List.map (fun n => if (n <? 256)%N
                                   then N_of_ascii (PyStr.lower_char (ascii_of_N n))
                                   else n) |}.

(** The code points of a string of [PyStr], and a value of [PyStr] as a value
    here. *)
Definition code_points (s : string) : ustr := List.map N_of_ascii (chars s).

Definition uval_of (v : pyval) : uval :=
  match v with
  | PyNone => UNone
  | PyStr s => UStr (code_points s)
  end.

End UnicodeNormalizer.

(* ===================================================================== *)
(** ** 01_data_extractor.py: merge_graphs *)
(* ===================================================================== *)

Module Merger.
Import PyStr Normalizer.

(** A node dictionary with the keys ['id'], ['label'], ['name']. *)
Record node : Type := Node {
  node_id : string;
  node_label : string;
  node_name : pyval
}.

(** A relationship dictionary with the keys ['type'], ['start_node_id'],
    ['end_node_id']. *)
Record relationship : Type := Relationship {
  rel_type : string;
  start_node_id : string;
  end_node_id : string
}.

(** A graph dictionary; each of the keys ['nodes'] and ['relationships'] may
    be absent.  A partial graph of the checkpoint and the consolidated graph
    have this one shape. *)
Record graph : Type := Graph {
  nodes : option (list node);
  relationships : option (list relationship)
}.

#[global] Instance node_eq_dec : EqDecision node.
Proof. solve_decision. Defined.
#[global] Instance relationship_eq_dec : EqDecision relationship.
Proof. solve_decision. Defined.

(** An element of [raw_data_list]: [None] is a JSON [null]. *)
Definition chunk : Type := option graph.

(** Python truthiness of a chunk: [None] and the empty dictionary are falsy. *)
Definition truthy (c : chunk) : bool :=
  match c with
  | None => false
  | Some g => bool_decide (is_Some (nodes g)) || bool_decide (is_Some (relationships g))
  end.

(** [chunk.get(key, [])]. *)
Definition get_list {A} (o : option (list A)) : list A := default [] o.

(** An insertion-ordered dictionary with string keys: [d[k] = v] overwrites
    in place when [k] is present and appends otherwise. *)
Definition dict (V : Type) : Type := list (string * V).

Fixpoint dict_set {V} (k : string) (v : V) (d : dict V) : dict V :=
  match d with
  | [] => [(k, v)]
  | (k', v') :: r =>
      if String.eqb k' k then (k, v) :: r else (k', v') :: dict_set k v r
  end.

Fixpoint dict_get {V} (k : string) (d : dict V) : option V :=
  match d with
  | [] => None
  | (k', v') :: r => if String.eqb k' k then Some v' else dict_get k r
  end.

Definition dict_keys {V} (d : dict V) : list string := List.map fst d.
Definition dict_values {V} (d : dict V) : list V := List.map snd d.

(** Body of the loop over [chunk.get('nodes', [])]; the accumulator is
    [(id_map, combined_nodes)]. *)
Definition new_node (n : node) : node :=
  let new_id := normalize_id (node_label n) (node_name n) in
  {| node_id := new_id; node_label := node_label n; node_name := node_name n |}.

Definition node_step (acc : gmap string string * dict node) (n : node)
  : gmap string string * dict node :=
  let old_id := node_id n in
  let new_id := normalize_id (node_label n) (node_name n) in
  (<[old_id := new_id]> (fst acc), dict_set new_id (new_node n) (snd acc)).

(** [id_map.get(x, x)]. *)
Definition id_map_get (id_map : gmap string string) (x : string) : string :=
  default x (id_map !! x).

Definition rewrite_rel (id_map : gmap string string) (rel : relationship) : relationship :=
  let start_id := id_map_get id_map (start_node_id rel) in
  let end_id := id_map_get id_map (end_node_id rel) in
  {| rel_type := rel_type rel; start_node_id := start_id; end_node_id := end_id |}.

(** Body of the loop over [chunk.get('relationships', [])]. *)
Definition rel_step (id_map : gmap string string)
           (combined_relationships : list relationship) (rel : relationship)
  : list relationship :=
  combined_relationships ++ [rewrite_rel id_map rel].

Record merge_state : Type := MergeState {
  combined_nodes : dict node;
  combined_relationships : list relationship
}.

(** Body of [for chunk in raw_data_list]. *)
Definition chunk_step (st : merge_state) (c : chunk) : merge_state :=
  if negb (truthy c) then st
  else match c with
       | None => st
       | Some g =>
           let acc := fold_left node_step (get_list (nodes g)) (∅, combined_nodes st) in
           let id_map := fst acc in
           {| combined_nodes := snd acc;
              combined_relationships :=
                fold_left (rel_step id_map) (get_list (relationships g))
                          (combined_relationships st) |}
       end.

Definition rel_tuple (r : relationship) : string * string * string :=
  (rel_type r, start_node_id r, end_node_id r).

(** Body of [for r in combined_relationships]; the accumulator is
    [(unique_rels, seen_rels)]. *)
Definition dedup_step (acc : list relationship * gset (string * string * string))
           (r : relationship) : list relationship * gset (string * string * string) :=
  if decide (rel_tuple r ∈ snd acc) then acc
  else (fst acc ++ [r], {[rel_tuple r]} ∪ snd acc).

Definition unique (rels : list relationship) : list relationship :=
  fst (fold_left dedup_step rels ([], ∅)).

Definition merge_graphs (raw_data_list : list chunk) : graph :=
  let st := fold_left chunk_step raw_data_list
                      {| combined_nodes := []; combined_relationships := [] |} in
  {| nodes := Some (dict_values (combined_nodes st));
     relationships := Some (unique (combined_relationships st)) |}.

(** *** Vocabulary for the statements *)

Definition new_id_of (n : node) : string := normalize_id (node_label n) (node_name n).

(** The nodes of a chunk and of a list of chunks, in input order. *)
Definition chunk_nodes (c : chunk) : list node :=
  match c with
  | Some g => get_list (nodes g)
  | None => []
  end.

Definition all_nodes (raw_data_list : list chunk) : list node :=
  flat_map chunk_nodes raw_data_list.

(** [combined_nodes] after the nodes [l] have gone through the loop. *)
Definition build (l : list node) (d : dict node) : dict node :=
  fold_left (fun d n => dict_set (new_id_of n) (new_node n) d) l d.

(** The batch-local id map of a graph, once all its nodes are read. *)
Definition id_map_of (g : graph) : gmap string string :=
  fold_left (fun m n => <[node_id n := new_id_of n]> m) (get_list (nodes g)) ∅.

(** The relationships of a chunk and of a list of chunks after rewriting,
    in input order. *)
Definition chunk_rewritten (c : chunk) : list relationship :=
  match c with
  | Some g => List.map (rewrite_rel (id_map_of g)) (get_list (relationships g))
  | None => []
  end.

Definition rewritten (raw_data_list : list chunk) : list relationship :=
  flat_map chunk_rewritten raw_data_list.

(** Keep-first deduplication, written as a recursion on the input. *)
Fixpoint keep_first (l : list relationship) : list relationship :=
  match l with
  | [] => []
  | r :: rest =>
      r :: List.filter (fun x => negb (bool_decide (x = r))) (keep_first rest)
  end.

(** The output nodes that carry the id [k]. *)
Definition nodes_with_id (k : string) (g : graph) : list node :=
  List.filter (fun x => String.eqb (node_id x) k) (get_list (nodes g)).

(** The output relationships that carry the triple of [r]. *)
Definition rels_with_triple (r : relationship) (g : graph) : list relationship :=
  List.filter (fun x => bool_decide (rel_tuple x = rel_tuple r))
              (get_list (relationships g)).

(** Two batches that each mention the company "Acme" under batch-local ids;
    the first one also has a relationship to an id no node carries. *)
Definition batch_one : chunk :=
  Some {| nodes := Some [Node "1" "Company" (PyStr "Acme"); Node "2" "Rating" (PyStr "A")];
          relationships := Some [Relationship "HAS_RATING" "1" "2";
                                 Relationship "HAS_REPORT" "1" "9"] |}.

Definition batch_two : chunk :=
  Some {| nodes := Some [Node "n0" "Company" (PyStr "Acme"); Node "n1" "Rating" (PyStr "A")];
          relationships := Some [Relationship "HAS_RATING" "n0" "n1"] |}.

(** Every entry of the dictionary sits under the id it carries, that id is
    the normalised one, and no key occurs twice. *)
Definition well_keyed (d : dict node) : Prop :=
  NoDup (dict_keys d)
  /\ Forall (fun kv => node_id (snd kv) = fst kv /\ new_id_of (snd kv) = fst kv) d.

End Merger.

(* ===================================================================== *)
(** ** 01_data_extractor.py: merge_graphs on entries that carry properties *)
(* ===================================================================== *)

(** [merge_graphs] once more, on partial graphs as a checkpoint file may
    hold them: a relationship entry is a dictionary that has the three keys
    the function reads and may have others.  [Merger.merge_graphs] is this
    function on entries that have the three keys only. *)
Module MergerRaw.
Import PyStr Normalizer Merger.

(** A relationship dictionary of the input: the keys ['type'],
    ['start_node_id'], ['end_node_id'], and its other keys with their values
    (the properties of the entry). *)
Record raw_relationship : Type := RawRelationship {
  raw_type : string;
  raw_start_node_id : string;
  raw_end_node_id : string;
  raw_properties : gmap string pyval
}.

Record raw_graph : Type := RawGraph {
  raw_nodes : option (list node);
  raw_relationships : option (list raw_relationship)
}.

Definition raw_chunk : Type := option raw_graph.

Definition truthy (c : raw_chunk) : bool :=
  match c with
  | None => false
  | Some g => bool_decide (is_Some (raw_nodes g))
              || bool_decide (is_Some (raw_relationships g))
  end.

(** The dictionary appended to [combined_relationships] is a new one, built
    with three keys. *)
Definition rewrite_rel (id_map : gmap string string) (rel : raw_relationship)
  : relationship :=
  let start_id := id_map_get id_map (raw_start_node_id rel) in
  let end_id := id_map_get id_map (raw_end_node_id rel) in
  {| rel_type := raw_type rel; start_node_id := start_id; end_node_id := end_id |}.

(** Body of the loop over [chunk.get('relationships', [])]. *)
Definition rel_step (id_map : gmap string string)
           (combined_relationships : list relationship) (rel : raw_relationship)
  : list relationship :=
  combined_relationships ++ [rewrite_rel id_map rel].

(** Body of [for chunk in raw_data_list]. *)
Definition chunk_step (st : merge_state) (c : raw_chunk) : merge_state :=
  if negb (truthy c) then st
  else match c with
       | None => st
       | Some g =>
           let acc := fold_left node_step (get_list (raw_nodes g)) (∅, combined_nodes st) in
           let id_map := fst acc in
           {| combined_nodes := snd acc;
              combined_relationships :=
                fold_left (rel_step id_map) (get_list (raw_relationships g))
                          (combined_relationships st) |}
       end.

Definition merge_graphs (raw_data_list : list raw_chunk) : graph :=
  let st := fold_left chunk_step raw_data_list
                      {| combined_nodes := []; combined_relationships := [] |} in
  {| nodes := Some (dict_values (combined_nodes st));
     relationships := Some (unique (combined_relationships st)) |}.

(** *** Vocabulary for the statements *)

(** The three keys [merge_graphs] reads of an entry. *)
Definition read_keys (rel : raw_relationship) : relationship :=
  {| rel_type := raw_type rel;
     start_node_id := raw_start_node_id rel;
     end_node_id := raw_end_node_id rel |}.

(** A partial graph with every relationship entry cut down to these keys. *)
Definition forget_graph (g : raw_graph) : graph :=
  {| nodes := raw_nodes g;
     relationships := option_map (List.map read_keys) (raw_relationships g) |}.

Definition forget (c : raw_chunk) : chunk := option_map forget_graph c.

(** A relationship dictionary of the output as a finite map from its keys. *)
Definition as_dict (r : relationship) : gmap string pyval :=
  <["type" := PyStr (rel_type r)]>
    (<["start_node_id" := PyStr (start_node_id r)]>
       (<["end_node_id" := PyStr (end_node_id r)]> ∅)).

(** The relationship entries of a chunk and of a list of chunks after
    rewriting, in input order, each with the properties it came with. *)
Definition chunk_entries (c : raw_chunk) : list (relationship * gmap string pyval) :=
  match c with
  | Some g =>
      List.map (fun rel => (rewrite_rel (id_map_of (forget_graph g)) rel, raw_properties rel))
               (get_list (raw_relationships g))
  | None => []
  end.

Definition rewritten_entries (raw_data_list : list raw_chunk)
  : list (relationship * gmap string pyval) :=
  flat_map chunk_entries raw_data_list.

(** "It keeps the first occurrence's properties": a relationship of the
    output has every property of the first rewritten entry with its triple. *)
Definition keeps_first_properties (raw_data_list : list raw_chunk) : Prop :=
  forall r p e s,
    In r (get_list (relationships (merge_graphs raw_data_list))) ->
    rewritten_entries raw_data_list = p ++ e :: s ->
    rel_tuple (fst e) = rel_tuple r ->
    ~ In (rel_tuple r) (List.map (fun x => rel_tuple (fst x)) p) ->
    forall k v, snd e !! k = Some v -> as_dict r !! k = Some v.

(** One partial graph whose only relationship entry has a property. *)
Definition rated : raw_chunk :=
  Some {| raw_nodes := Some [Node "1" "Company" (PyStr "Acme"); Node "2" "Rating" (PyStr "A")];
          raw_relationships :=
            Some [RawRelationship "HAS_RATING" "1" "2" {["source" := PyStr "report"]}] |}.

End MergerRaw.

(* ===================================================================== *)
(** ** 01_data_extractor.py: the batch loop of the main block *)
(* ===================================================================== *)

Module Pipeline.
Import PyStr Normalizer Merger.

(** A row of the data frame: its cells in column order, each with its column
    name; [None] is a missing cell (NaN), [Some v] a cell whose text is [v]. *)
Definition row : Type := list (string * option string).
Definition dataframe : Type := list row.

(** [df.iloc[i : j]] with the default integer index: every row comes with
    its index label. *)
Definition iloc (df : dataframe) (i j : nat) : list (nat * row) :=
  combine (seq i (j - i)) (firstn (j - i) (skipn i df)).

(** [f"{col}: {val}"] for a cell that passes [pd.notna]. *)
Definition cell_text (cell : string * option string) : option string :=
  match snd cell with
  | Some val => Some (fst cell ++ ": " ++ val)%string
  | None => None
  end.

Definition row_text (r : row) : string := join " / " (omap cell_text r).

(** One turn of [for idx, row in batch_df.iterrows()]. *)
Definition row_step (batch_text : string) (ir : nat * row) : string :=
  (batch_text ++ "[Row " ++ str_of_nat (fst ir + 1) ++ "]" ++ nl
              ++ row_text (snd ir) ++ nl ++ nl)%string.

Definition batch_text (batch_df : list (nat * row)) : string :=
  fold_left row_step batch_df "".

(** [range(start, stop, step)] for a positive step, unrolled with fuel. *)
Fixpoint range_from (fuel i stop step : nat) : list nat :=
  match fuel with
  | 0 => []
  | S fuel' => if Nat.ltb i stop then i :: range_from fuel' (i + step) stop step else []
  end.

(** [range] raises [ValueError] on a zero step. *)
Definition py_range (start stop step : nat) : option (list nat) :=
  if Nat.eqb step 0 then None else Some (range_from (stop - start) start stop step).

(** The checkpoint file: absent, holding the JSON text of a list of partial
    graphs, or holding a text [json.load] cannot read (what a write that
    stopped half way leaves). *)
Inductive file : Type :=
| Absent
| Holds (graphs : list chunk)
| Damaged.

(** How [with open(CHECKPOINT_FILE, "w") ...: json.dump(all_raw_graphs, f)]
    ends: both calls succeed; [open] raises and the file is as it was; or
    [open] has emptied the file and an exception comes before the block is
    left, the file being left as [leaves] (as a rule [Damaged]: the beginning of
    a JSON text). *)
Inductive write_outcome : Type :=
| Written
| OpenRaised
| DumpRaised (leaves : file).

(** What the loop does, in order. *)
Inductive event : Type :=
| Submitted (i : nat) (input_text : string)
| Persisted (graphs : list chunk)
| Failed (i : nat).

Record state : Type := State {
  all_raw_graphs : list chunk;
  checkpoint_file : file;
  log : list event
}.

Inductive outcome : Type :=
| EmptyFrame
| JSONDecodeError
| ValueError
| Finished (st : state) (final_graph : graph).

Definition BATCH_SIZE : nat := 5.

(** [json.load] of the checkpoint file when it can be read, and the empty
    list the run starts from when there is no file. *)
Definition entries (f : file) : list chunk :=
  match f with
  | Holds graphs => graphs
  | Absent | Damaged => []
  end.

Section Run.

(** [chain.invoke({"input_text": text})] followed by [response.dict()];
    [None] when either raises. *)
Variable invoke : string -> option graph.
(** The end of the checkpoint write of the batch that starts at row [i]. *)
Variable write : nat -> write_outcome.
Variable df : dataframe.
Variable batch_size : nat.

(** Body of [for i in range(processed_count, total_rows, BATCH_SIZE)].  The
    [try] block holds the call, the [append] and the write: an exception of
    the call leaves the list alone, an exception of the write comes after the
    [append]. *)
Definition batch_step (st : state) (i : nat) : state :=
  let batch_df := iloc df i (i + batch_size) in
  let text := batch_text batch_df in
  match invoke text with
  | Some response =>
      let graphs := all_raw_graphs st ++ [Some response] in
      match write i with
      | Written =>
          {| all_raw_graphs := graphs;
             checkpoint_file := Holds graphs;
             log := log st ++ [Submitted i text; Persisted graphs] |}
      | OpenRaised =>
          {| all_raw_graphs := graphs;
             checkpoint_file := checkpoint_file st;
             log := log st ++ [Submitted i text; Failed i] |}
      | DumpRaised leaves =>
          {| all_raw_graphs := graphs;
             checkpoint_file := leaves;
             log := log st ++ [Submitted i text; Failed i] |}
      end
  | None =>
      {| all_raw_graphs := all_raw_graphs st;
         checkpoint_file := checkpoint_file st;
         log := log st ++ [Submitted i text; Failed i] |}
  end.

(** The block under [if not df.empty]; [checkpoint] is the checkpoint file as
    the run finds it. *)
Definition main (checkpoint : file) : outcome :=
  match df with
  | [] => EmptyFrame
  | _ :: _ =>
      match checkpoint with
      | Damaged => JSONDecodeError
      | Absent | Holds _ =>
          let all_raw_graphs0 := entries checkpoint in
          let processed_count :=
            match checkpoint with
            | Holds graphs => length graphs * batch_size
            | Absent | Damaged => 0
            end in
          let total_rows := length df in
          match py_range processed_count total_rows batch_size with
          | None => ValueError
          | Some indices =>
              let st := fold_left batch_step indices
                          {| all_raw_graphs := all_raw_graphs0;
                             checkpoint_file := checkpoint;
                             log := [] |} in
              Finished st (merge_graphs (all_raw_graphs st))
          end
      end
  end.

End Run.

(** *** Vocabulary for the statements *)

(** The row indices at which a batch was started, in order. *)
Definition submitted (l : list event) : list nat :=
  omap (fun e => match e with Submitted i _ => Some i | _ => None end) l.

(** The lines of a text: the pieces between line feeds. *)
Fixpoint lines_from (cur : list ascii) (l : list ascii) : list string :=
  match l with
  | [] => [str (rev cur)]
  | c :: r => if Ascii.eqb c LF then str (rev cur) :: lines_from [] r
              else lines_from (c :: cur) r
  end.
Definition lines (s : string) : list string := lines_from [] (chars s).

Definition no_LF (s : string) : Prop := ~ In LF (chars s).

(** "One line per non-missing cell": the text of each non-missing cell is a
    line of the block. *)
Definition one_line_per_cell (batch_df : list (nat * row)) : Prop :=
  forall idx r col val,
    In (idx, r) batch_df -> In (col, Some val) r ->
    In (col ++ ": " ++ val)%string (lines (batch_text batch_df)).

(** The three lines a row contributes. *)
Definition row_lines (ir : nat * row) : list string :=
  [("[Row " ++ str_of_nat (fst ir + 1) ++ "]")%string; row_text (snd ir); ""].

Definition clean_row (r : row) : Prop :=
  forall col val, In (col, Some val) r -> no_LF col /\ no_LF val.

(** The non-missing cells of a row, in column order. *)
Definition present_cells (r : row) : list (string * string) :=
  omap (fun cell => match snd cell with
                    | Some val => Some (fst cell, val)
                    | None => None
                    end) r.

(** How many line feeds a text has. *)
Definition lf_count (s : string) : nat := count_occ ascii_dec (chars s) LF.

(** The line feeds inside the column names and the values of the non-missing
    cells of a row. *)
Definition cells_lf (r : row) : nat :=
  list_sum (List.map (fun cv => lf_count (fst cv) + lf_count (snd cv)) (present_cells r)).

(** The text a row adds to the block. *)
Definition row_block (ir : nat * row) : string :=
  ("[Row " ++ str_of_nat (fst ir + 1) ++ "]" ++ nl ++ row_text (snd ir) ++ nl ++ nl)%string.

(** The state the loop starts from. *)
Definition initial (checkpoint : file) : state :=
  {| all_raw_graphs := entries checkpoint;
     checkpoint_file := checkpoint;
     log := [] |}.

(** A batch ended in the [except] branch. *)
Definition failed (before after : state) (i : nat) : Prop :=
  exists text, log after = log before ++ [Submitted i text; Failed i].

(** A one-row batch with three filled cells and a missing one. *)
Definition sample_batch : list (nat * row) :=
  [(0, [("Company", Some "Acme"); ("Rating", Some "A"); ("Pillar", None);
        ("Theme", Some "Water")])].

(** A six-row frame and a collaborator that fails on the batch of rows 2..3. *)
Definition sample_df : dataframe :=
  [[("Company", Some "Acme")]; [("Company", Some "Bolt")];
   [("Company", Some "Core")]; [("Company", Some "Dune")];
   [("Company", Some "Echo")]; [("Company", Some "Fern")]].

Definition empty_graph : graph := {| nodes := Some []; relationships := Some [] |}.

Definition sample_invoke (text : string) : option graph :=
  if String.eqb text (batch_text (iloc sample_df 2 4)) then None
  else Some empty_graph.

(** Checkpoint writes that all succeed, and writes of which the one of the
    batch at row 4 stops half way. *)
Definition always_written (i : nat) : write_outcome := Written.

Definition sample_write (i : nat) : write_outcome :=
  if Nat.eqb i 4 then DumpRaised Damaged else Written.

End Pipeline.

(* ===================================================================== *)
(** ** 02_neo4j_uploader.py: Neo4jCreateWriter *)
(* ===================================================================== *)

Module Loader.
Import PyStr Merger.

Record Neo4jNode : Type := MkNeo4jNode {
  nn_id : string;
  nn_label : string;
  nn_properties : gmap string pyval
}.

Record Neo4jRelationship : Type := MkNeo4jRelationship {
  nr_start_node_id : string;
  nr_end_node_id : string;
  nr_type : string;
  nr_properties : option (gmap string pyval)
}.

Record Neo4jGraph : Type := MkNeo4jGraph {
  gr_nodes : list Neo4jNode;
  gr_relationships : list Neo4jRelationship
}.

Inductive KGWriterModel : Type :=
| SUCCESS (nodes rels : nat)
| FAILURE (error : string).

(** *** The graph store *)

(** Modelled from the spec: the graph store engine is not part of the
    repository; the store below is the property graph of the specification's
    "Graph store interface" (constraint creation, node/edge upsert-by-match).
    A stored node has a set of labels and a property map in which the entity
    id is the property ["id"]; a stored edge links two stored nodes, named by their
    position in [db_nodes].  Stored property maps hold no null. *)
Record db_node : Type := DbNode {
  n_labels : gset string;
  n_props : gmap string string
}.

Record db_rel : Type := DbRel {
  r_start : nat;
  r_type : string;
  r_end : nat;
  r_props : gmap string string
}.

Record store : Type := Store {
  constraints : gset string;
  db_nodes : list db_node;
  db_rels : list db_rel
}.

#[global] Instance db_node_eq_dec : EqDecision db_node.
Proof. solve_decision. Defined.
#[global] Instance db_rel_eq_dec : EqDecision db_rel.
Proof. solve_decision. Defined.

(** Modelled from the spec: [SET x += $props] writes every entry of the
    parameter map over the stored map; an entry whose value is null removes
    the property; properties the parameter map does not name are kept. *)
Definition set_props (props : gmap string pyval) (old : gmap string string)
  : gmap string string :=
  merge (fun new cur =>
           match new with
           | Some (PyStr s) => Some s
           | Some PyNone => None
           | None => cur
           end) props old.

(** Modelled from the spec: [MERGE pattern SET ...] is match-or-create
    followed by the update of every element the pattern is bound to: when no
    stored element matches, one is created from the pattern; then each
    matching element is updated. *)
Section Upsert.
Context {X Op : Type}.
Variable matches : Op -> X -> bool.
Variable upd : Op -> X -> X.
Variable fresh : Op -> X.

Definition apply_op (u : Op) (x : X) : X := if matches u x then upd u x else x.

Definition upsert (l : list X) (u : Op) : list X :=
  List.map (apply_op u) (if existsb (matches u) l then l else l ++ [fresh u]).

Definition touch (w : list Op) (x : X) : X := fold_left (fun y u => apply_op u y) w x.

End Upsert.

(** [MERGE (n:`label` {id: $id}) SET n += $props]. *)
Definition node_matches (node : Neo4jNode) (x : db_node) : bool :=
  bool_decide (nn_label node ∈ n_labels x)
  && bool_decide (n_props x !! "id" = Some (nn_id node)).

Definition node_upd (node : Neo4jNode) (x : db_node) : db_node :=
  {| n_labels := n_labels x; n_props := set_props (nn_properties node) (n_props x) |}.

Definition node_fresh (node : Neo4jNode) : db_node :=
  {| n_labels := {[nn_label node]}; n_props := {["id" := nn_id node]} |}.

Definition merge_node (ns : list db_node) (node : Neo4jNode) : list db_node :=
  upsert node_matches node_upd node_fresh ns node.

(** [MATCH (a {id: $start_id}), (b {id: $end_id})
     MERGE (a)-[r:`type`]->(b) SET r += $props]: one row per pair of stored
    nodes carrying the two ids, whatever their labels. *)
Definition ids_with (id : string) (ns : list db_node) : list nat :=
  List.map fst
    (List.filter (fun ix => bool_decide (n_props (snd ix) !! "id" = Some id))
                 (combine (seq 0 (length ns)) ns)).

Definition edge_op : Type := nat * string * nat * gmap string pyval.

Definition edge_matches (u : edge_op) (e : db_rel) : bool :=
  let '(a, t, b, _) := u in
  bool_decide (r_start e = a) && bool_decide (r_type e = t) && bool_decide (r_end e = b).

Definition edge_upd (u : edge_op) (e : db_rel) : db_rel :=
  let '(_, _, _, props) := u in
  {| r_start := r_start e; r_type := r_type e; r_end := r_end e;
     r_props := set_props props (r_props e) |}.

Definition edge_fresh (u : edge_op) : db_rel :=
  let '(a, t, b, _) := u in
  {| r_start := a; r_type := t; r_end := b; r_props := ∅ |}.

Definition rel_rows (ns : list db_node) (rel : Neo4jRelationship) : list edge_op :=
  flat_map (fun a =>
              List.map (fun b => (a, nr_type rel, b, default ∅ (nr_properties rel)))
                       (ids_with (nr_end_node_id rel) ns))
           (ids_with (nr_start_node_id rel) ns).

Definition merge_rel (ns : list db_node) (es : list db_rel) (rel : Neo4jRelationship)
  : list db_rel :=
  fold_left (upsert edge_matches edge_upd edge_fresh) (rel_rows ns rel) es.

(** *** The writer *)

Definition labels : list string :=
  ["Company"; "Report"; "Rating"; "Pillar"; "Theme"; "Content"].

(** [_prepare_db]: [CREATE CONSTRAINT IF NOT EXISTS] for every label. *)
Definition _prepare_db (s : store) : store :=
  fold_left (fun s label =>
               {| constraints := {[label]} ∪ constraints s;
                  db_nodes := db_nodes s; db_rels := db_rels s |})
            labels s.

(** [Neo4jCreateWriter.run], on a store that answers every query; the
    [except] branch is the engine's failures, which the store above does not
    have. *)
Definition run (graph : Neo4jGraph) (s : store) : KGWriterModel * store :=
  let s0 := _prepare_db s in
  let s1 := fold_left (fun s node =>
                         {| constraints := constraints s;
                            db_nodes := merge_node (db_nodes s) node;
                            db_rels := db_rels s |})
                      (gr_nodes graph) s0 in
  let s2 := fold_left (fun s rel =>
                         {| constraints := constraints s;
                            db_nodes := db_nodes s;
                            db_rels := merge_rel (db_nodes s) (db_rels s) rel |})
                      (gr_relationships graph) s1 in
  (SUCCESS (length (gr_nodes graph)) (length (gr_relationships graph)), s2).

(** [main]: the conversion of the consolidated graph file into a
    [Neo4jGraph]; the properties of an entry are its keys other than the
    identifying ones. *)
Definition to_neo4j_node (n : node) : Neo4jNode :=
  {| nn_id := node_id n; nn_label := node_label n;
     nn_properties := {["name" := node_name n]} |}.

Definition to_neo4j_rel (rel : relationship) : Neo4jRelationship :=
  {| nr_start_node_id := start_node_id rel; nr_end_node_id := end_node_id rel;
     nr_type := rel_type rel; nr_properties := Some ∅ |}.

Definition to_neo4j_graph (data : graph) : Neo4jGraph :=
  {| gr_nodes := List.map to_neo4j_node (get_list (nodes data));
     gr_relationships := List.map to_neo4j_rel (get_list (relationships data)) |}.

Definition load (data : graph) (s : store) : KGWriterModel * store :=
  run (to_neo4j_graph data) s.

(** The property map of a node names no ["id"]. *)
Definition keeps_id (node : Neo4jNode) : Prop := nn_properties node !! "id" = None.

(** How many stored nodes carry a label and an id. *)
Definition count_nodes (label id : string) (s : store) : nat :=
  length (List.filter (fun x => bool_decide (label ∈ n_labels x)
                                && bool_decide (n_props x !! "id" = Some id))
                      (db_nodes s)).

End Loader.

(* ===================================================================== *)
(** ** 04_engine_interface.py: generate_answer *)
(* ===================================================================== *)

Module Gateway.
Import PyStr.

(** A raised [Exception]; [msg] is [str(e)]. *)
Inductive exn : Type := Exception (msg : string).
Definition exn_msg (e : exn) : string := match e with Exception m => m end.

(** A computation that returns or raises. *)
Definition result (A : Type) : Type := exn + A.
Definition ret {A} (a : A) : result A := inr a.
Definition raise {A} (e : exn) : result A := inl e.
Definition bind {A B} (m : result A) (k : A -> result B) : result B :=
  match m with
  | inl e => inl e
  | inr a => k a
  end.

Notation "'let*' x ':=' m 'in' k" := (bind m (fun x => k))
  (at level 10, x name, m at level 200, k at level 200, only parsing).

(** What [retriever.search] returns: [items] may be missing (the [getattr]
    default), [metadata] may be [None]; an item is given by its [str]. *)
Record RetrieverResult : Type := MkRetrieverResult {
  items : option (list string);
  metadata : option (gmap string string)
}.

(** What [client.chat.completions.create] returns: the [message.content] of
    each choice, which may be [None]. *)
Record ChatCompletion : Type := MkChatCompletion {
  choices : list (option string)
}.

Definition message : Type := string * string.

Definition system_content : string :=
  "당신은 ESG 전문가입니다. 제공된 데이터를 기반으로 한국어로 답변하세요.".

Definition user_content (user_question context : string) : string :=
  ("질문: " ++ user_question ++ nl ++ nl ++ "데이터: " ++ context)%string.

Definition error_tag : string := "❌ 분석 중 오류 발생: ".
Definition error_sentinel : string := "Error".

Definition AttributeError : exn :=
  Exception "'NoneType' object has no attribute 'get'".
Definition IndexError : exn := Exception "list index out of range".

Section Answer.

(** [retriever.search(query_text=...)]. *)
Variable search : string -> result RetrieverResult.
(** [client.chat.completions.create(model="gpt-4o-mini", messages=...)]. *)
Variable create : list message -> result ChatCompletion.

(** The body of the [try] block. *)
Definition answer_body (user_question : string) : result (option string * string) :=
  let* res := search user_question in
  let* cypher_used := match metadata res with
                 | Some md => ret (default "" (md !! "cypher"))
                 | None => raise AttributeError
                 end in
  let its := default [] (items res) in
  match its with
  | [] => ret (None, cypher_used)
  | _ :: _ =>
      let context := join nl its in
      let* response := create [("system", system_content);
                          ("user", user_content user_question context)] in
      match choices response with
      | [] => raise IndexError
      | content :: _ => ret (content, cypher_used)
      end
  end.

(** [generate_answer]: the [try] block and its [except Exception] handler. *)
Definition generate_answer (user_question : string) : option string * string :=
  match answer_body user_question with
  | inr r => r
  | inl e => (Some (error_tag ++ exn_msg e)%string, error_sentinel)
  end.

(** The messages handed to the answer-synthesis collaborator. *)
Definition messages_for (user_question : string) (its : list string) : list message :=
  [("system", system_content); ("user", user_content user_question (join nl its))].

(** The generated query returned zero records. *)
Definition zero_records (user_question : string) (cypher : string) : Prop :=
  exists res md,
    search user_question = ret res /\ metadata res = Some md
    /\ default "" (md !! "cypher") = cypher /\ default [] (items res) = [].

End Answer.

End Gateway.

(* ===================================================================== *)
(** ** Further vocabulary for merge_graphs *)
(* ===================================================================== *)

Module MergerVocab.
Import PyStr Normalizer Merger.

(** The strings of a list in order of first appearance. *)
Fixpoint first_seen (l : list string) : list string :=
  match l with
  | [] => []
  | k :: rest => k :: List.filter (fun x => negb (String.eqb x k)) (first_seen rest)
  end.

(** The consolidated nodes and relationships as lists. *)
Definition out_nodes (g : graph) : list node := get_list (nodes g).
Definition out_rels (g : graph) : list relationship := get_list (relationships g).

End MergerVocab.

(* ===================================================================== *)
(** ** Further vocabulary for the batch loop *)
(* ===================================================================== *)

Module PipelineVocab.
Import PyStr Normalizer Merger Pipeline.

(** Rows with their index labels, the first label being [n]. *)
Definition label_from (n : nat) (l : list row) : list (nat * row) :=
  combine (seq n (length l)) l.

(** How many batches ended in the [except] branch. *)
Definition failures (l : list event) : nat :=
  length (List.filter (fun e => match e with Failed _ => true | _ => false end) l).

(** What the loop keeps true as long as no checkpoint write raises: the
    list in memory is the one the run started from followed by the answers
    received, every batch submitted either added an answer or failed, and the
    file is the one the run found until the first answer, and holds the list
    in memory from then on. *)
Definition tracked (start : file) (st : state) : Prop :=
  exists new : list graph,
    all_raw_graphs st = entries start ++ List.map Some new
    /\ length new + failures (log st) = length (submitted (log st))
    /\ checkpoint_file st = match new with
                            | [] => start
                            | _ :: _ => Holds (all_raw_graphs st)
                            end.

(** The indices of a run that starts from the file [f]. *)
Definition run_indices (df : dataframe) (b : nat) (f : file) : list nat :=
  range_from (length df - length (entries f) * b) (length (entries f) * b) (length df) b.

(** A collaborator that always answers. *)
Definition always_empty (text : string) : option graph := Some empty_graph.

End PipelineVocab.

(* ===================================================================== *)
(** ** Further vocabulary for the loader *)
(* ===================================================================== *)

Module LoaderVocab.
Import PyStr Merger Loader.

Definition empty_store : store :=
  {| constraints := ∅; db_nodes := []; db_rels := [] |}.

(** The stored node carries the id [id]. *)
Definition has_id (id : string) (x : db_node) : Prop := n_props x !! "id" = Some id.

(** Every stored edge links two stored nodes. *)
Definition edges_in_range (s : store) : Prop :=
  Forall (fun e => r_start e < length (db_nodes s) /\ r_end e < length (db_nodes s))
         (db_rels s).

(** The consolidated graph without the relationship [rel]. *)
Definition without_rel (rel : relationship) (data : graph) : graph :=
  {| nodes := nodes data;
     relationships :=
       Some (List.filter (fun r => negb (bool_decide (r = rel)))
                         (get_list (relationships data))) |}.

(** What a consolidated node becomes when it is created in the store. *)
Definition stored_form (v : node) : db_node :=
  {| n_labels := {[node_label v]};
     n_props := set_props {["name" := node_name v]} {["id" := node_id v]} |}.

End LoaderVocab.

(* ===================================================================== *)
(** ** 04_engine_interface.py: the chat loop *)
(* ===================================================================== *)

Module Chat.
Import PyStr Gateway.

(** What one run of the script puts on the page. *)
Inductive display : Type :=
| Markdown (role text : string)
| ErrorBox (text : string)
| Code (text : string).

Definition no_data_text : string :=
  "❌ 데이터를 찾지 못했습니다. 검색 조건을 바꿔보세요.".
Definition no_result_text : string := "검색 결과 없음".

(** Truthiness of [answer]: [None] and the empty string are falsy. *)
Definition answer_truthy (answer : option string) : bool :=
  match answer with
  | Some a => negb (String.eqb a "")
  | None => false
  end.

Section Turn.
Variable search : string -> result RetrieverResult.
Variable create : list message -> result ChatCompletion.

(** One run of the script on the transcript [messages]: the history is shown,
    and when [st.chat_input] gives a non-empty [prompt] the question is
    stored and shown, answered, and the answer stored. *)
Definition chat_turn (messages : list message) (prompt : option string)
  : list message * list display :=
  let history := List.map (fun m => Markdown (fst m) (snd m)) messages in
  match prompt with
  | None => (messages, history)
  | Some p =>
      if String.eqb p "" then (messages, history)
      else
        let messages1 := messages ++ [("user", p)] in
        let '(answer, cypher_used) := generate_answer search create p in
        let shown := match answer with
                     | None => ErrorBox no_data_text
                     | Some a => Markdown "assistant" a
                     end in
        let stored := match answer with
                      | Some a => if answer_truthy answer then a else no_result_text
                      | None => no_result_text
                      end in
        (messages1 ++ [("assistant", stored)],
         history ++ [Markdown "user" p; shown; Code cypher_used])
  end.

(** A session: the transcript starts empty and goes through the runs. *)
Definition session (prompts : list (option string)) : list message :=
  fold_left (fun messages prompt => fst (chat_turn messages prompt)) prompts [].

End Turn.

(** A transcript made of question/answer pairs, no content empty. *)
Fixpoint paired (messages : list message) : Prop :=
  match messages with
  | [] => True
  | (r1, c1) :: (r2, c2) :: rest =>
      r1 = "user" /\ c1 <> "" /\ r2 = "assistant" /\ c2 <> "" /\ paired rest
  | _ => False
  end.

(** The prompts that start a question. *)
Definition asked (prompts : list (option string)) : list string :=
  omap (fun p => match p with
                 | Some q => if String.eqb q "" then None else Some q
                 | None => None
                 end) prompts.

(** The call to the answer-synthesis collaborator is needed. *)
Definition needs_synthesis (search : string -> result RetrieverResult)
           (user_question : string) (its : list string) : Prop :=
  exists res md,
    search user_question = ret res /\ metadata res = Some md
    /\ default [] (items res) = its /\ its <> [].

End Chat.

(* ===================================================================== *)
(** ** 03_vector_store.py: the embedding backfill of setup_vector_index *)
(* ===================================================================== *)

Module Backfill.
Import PyStr Loader.

Definition target_labels : list string := ["Company"; "Content"].

(** Modelled from the spec: the graph store engine is not part of the
    repository; the two queries of the backfill are read on the store of the
    loader.  A vector is held in the property ["embedding"] as an opaque
    value.

    [MATCH (n:label) WHERE n.embedding IS NULL RETURN n.id as id, n.name as name]:
    one record per stored node with the label and without the property. *)
Definition lacks_embedding (label : string) (x : db_node) : bool :=
  bool_decide (label ∈ n_labels x) && bool_decide (n_props x !! "embedding" = None).

Definition missing_embedding (label : string) (ns : list db_node)
  : list (option string * option string) :=
  List.map (fun x => (n_props x !! "id", n_props x !! "name"))
           (List.filter (lacks_embedding label) ns).

(** Modelled from the spec:
    [MATCH (n:label {id: $id}) CALL db.create.setNodeVectorProperty(n, 'embedding', $vector)]:
    every stored node with the label and the id gets the property; a null
    [$id] matches no node. *)
Definition is_target (label : string) (node_id : option string) (x : db_node) : bool :=
  bool_decide (label ∈ n_labels x)
  && match node_id with
     | Some i => bool_decide (n_props x !! "id" = Some i)
     | None => false
     end.

Definition set_embedding (label : string) (node_id : option string) (vector : string)
           (ns : list db_node) : list db_node :=
  List.map (fun x => if is_target label node_id x
                     then {| n_labels := n_labels x;
                             n_props := <["embedding" := vector]> (n_props x) |}
                     else x) ns.

Record state : Type := State {
  nodes : list db_node;
  calls : list string
}.

Section Run.

(** [embed_model.embed_query(text)]; [None] when it raises. *)
Variable embed_query : string -> option string.

(** Body of [for record in result]. *)
Definition record_step (label : string) (st : state) (record : option string * option string)
  : state :=
  let node_id := fst record in
  let text_to_embed := snd record in
  match text_to_embed with
  | None => st
  | Some text =>
      if String.eqb text "" then st
      else match embed_query text with
           | Some embedding_vector =>
               {| nodes := set_embedding label node_id embedding_vector (nodes st);
                  calls := calls st ++ [text] |}
           | None => {| nodes := nodes st; calls := calls st ++ [text] |}
           end
  end.

(** Body of [for label in target_labels]: the result of the first query is
    read before the updates of the loop are made. *)
Definition label_step (st : state) (label : string) : state :=
  fold_left (record_step label) (missing_embedding label (nodes st)) st.

(** The second stage of [setup_vector_index]. *)
Definition backfill (ns : list db_node) : state :=
  fold_left label_step target_labels {| nodes := ns; calls := [] |}.

End Run.

(** *** Vocabulary for the statements *)

(** The name of a stored node is a non-empty text. *)
Definition named (x : db_node) : Prop :=
  exists text, n_props x !! "name" = Some text /\ text <> "".

Definition has_target_label (x : db_node) : Prop :=
  exists label, In label target_labels /\ label ∈ n_labels x.

(** [y] is [x] up to its embedding, and has one when [x] has one. *)
Definition same_but_embedding (x y : db_node) : Prop :=
  n_labels y = n_labels x
  /\ (forall k, k <> "embedding" -> n_props y !! k = n_props x !! k)
  /\ (is_Some (n_props x !! "embedding") -> is_Some (n_props y !! "embedding")).

(** [y] is [x] itself when [x] has no target label. *)
Definition kept_if_untargeted (x y : db_node) : Prop :=
  (forall label, In label target_labels -> label ∉ n_labels x) -> y = x.

(** Every stored node with a target label carries an id. *)
Definition targets_have_ids (ns : list db_node) : Prop :=
  forall y, In y ns -> has_target_label y -> is_Some (n_props y !! "id").

(** Every named stored node with a target label has an embedding. *)
Definition embedded (ns : list db_node) : Prop :=
  forall y, In y ns -> has_target_label y -> named y ->
            is_Some (n_props y !! "embedding").

(** A text the backfill may send to the embedding collaborator for the store
    [ns]: the non-empty name of a node with a target label and no embedding. *)
Definition to_embed (ns : list db_node) (text : string) : Prop :=
  text <> ""
  /\ exists x, In x ns /\ has_target_label x
               /\ n_props x !! "name" = Some text
               /\ n_props x !! "embedding" = None.

(** Two stored nodes for the examples. *)
Definition acme_node : db_node :=
  {| n_labels := {["Company"]};
     n_props := {["id" := "Company_acme"; "name" := "Acme"]} |}.
Definition rating_node : db_node :=
  {| n_labels := {["Rating"]};
     n_props := {["id" := "Rating_a"; "name" := "A"]} |}.

Definition embed_len (text : string) : option string := Some (str_of_nat (String.length text)).

End Backfill.

(* ===================================================================== *)
(** * Properties *)
(* ===================================================================== *)

(** ** Strings *)

Module PyStrFacts.
Import PyStr.

Lemma append_inj_l (p a b : string) : (p ++ a)%string = (p ++ b)%string -> a = b.
Proof.
  induction p as [|c p IH]; simpl; [tauto|].
  intros H. injection H as H. auto.
Qed.

Lemma str_inj (l1 l2 : list ascii) : str l1 = str l2 -> l1 = l2.
Proof.
  unfold str. intros H.
  rewrite <- (list_ascii_of_string_of_list_ascii l1),
          <- (list_ascii_of_string_of_list_ascii l2).
  now rewrite H.
Qed.

Lemma chars_str (l : list ascii) : chars (str l) = l.
Proof. apply list_ascii_of_string_of_list_ascii. Qed.

Lemma str_chars (s : string) : str (chars s) = s.
Proof. apply string_of_list_ascii_of_string. Qed.

Lemma chars_append (a b : string) : chars (a ++ b)%string = chars a ++ chars b.
Proof. induction a as [|c a IH]; simpl; [reflexivity|]. unfold chars in *. now rewrite IH. Qed.

Ltac each_char c := destruct c as [[] [] [] [] [] [] [] []].

Lemma isspace_space : isspace space = true.
Proof. reflexivity. Qed.

Lemma isspace_underscore : isspace underscore = false.
Proof. reflexivity. Qed.

End PyStrFacts.

(** ** normalize_id on names of any code points *)

Module UnicodeNormalizerFacts.
Import PyStr PyStrFacts UnicodeNormalizer.

Section Tables.
Variable D : ucd.
Hypothesis space_is_whitespace : u_isspace D space = true.
Hypothesis underscore_is_not : u_isspace D underscore = false.

Lemma collapse_ws_length (b : bool) (l : ustr) :
  length (collapse_ws D b l) <= length l.
Proof.
  revert b. induction l as [|c l IH]; intros b; simpl; [lia|].
  destruct (u_isspace D c).
  - destruct b; simpl; [specialize (IH true) | specialize (IH true)]; lia.
  - simpl. specialize (IH false). lia.
Qed.

Lemma replace_space_length (l : ustr) : length (replace_space l) = length l.
Proof. unfold replace_space. apply length_map. Qed.

(** Replacing each space agrees with collapsing whitespace runs exactly on the
    strings whose whitespace is made of isolated U+0020 characters. *)
Lemma replace_collapse_iff (p : bool) (l : ustr) :
  single_spaced D p l = true <-> replace_space l = collapse_ws D p l.
Proof.
  revert p. induction l as [|c l IH]; intros p; simpl; [tauto|].
  destruct (u_isspace D c) eqn:Hc.
  - destruct p; simpl.
    + split; [discriminate|].
      intros H. exfalso.
      assert (Hlen : length (collapse_ws D true l) = S (length (replace_space l))).
      { rewrite <- H. reflexivity. }
      pose proof (collapse_ws_length true l). rewrite replace_space_length in Hlen. lia.
    + destruct (N.eqb c space) eqn:Hs; simpl.
      * rewrite IH. split; [intros ->; reflexivity | intros H; now injection H].
      * split; [discriminate|]. intros H. injection H as H _. subst c.
        rewrite underscore_is_not in Hc. discriminate.
  - destruct (N.eqb c space) eqn:Hs.
    + apply N.eqb_eq in Hs. subst c. rewrite space_is_whitespace in Hc. discriminate.
    + rewrite IH. split; [intros ->; reflexivity | intros H; now injection H].
Qed.

Lemma normalize_id_spec_iff (label name : ustr) :
  plain_spacing D name = true
  <-> normalize_id D label (UStr name) = spec_normalize_id D label name.
Proof.
  unfold plain_spacing, spec_normalize_id, spec_clean_name, normalize_id, clean_name.
  cbn [isna]. rewrite replace_collapse_iff. split.
  - intros H. now rewrite H.
  - intros H. apply app_inv_head in H. now apply app_inv_head in H.
Qed.

End Tables.

(** *** The tables of [PyStr] *)

Lemma latin1_space : u_isspace latin1 space = true /\ u_isspace latin1 underscore = false.
Proof. split; reflexivity. Qed.

Lemma latin1_isspace (c : ascii) : u_isspace latin1 (N_of_ascii c) = isspace c.
Proof. each_char c; reflexivity. Qed.

Lemma latin1_keep (c : ascii) : UnicodeNormalizer.keep latin1 (N_of_ascii c) = PyStr.keep c.
Proof. each_char c; reflexivity. Qed.

Lemma latin1_lower_char (c : ascii) :
  (if (N_of_ascii c <? 256)%N
   then N_of_ascii (lower_char (ascii_of_N (N_of_ascii c)))
   else N_of_ascii c) = N_of_ascii (lower_char c).
Proof. each_char c; reflexivity. Qed.

Lemma latin1_replace (c : ascii) :
  (if N.eqb (N_of_ascii c) space then underscore else N_of_ascii c)
  = N_of_ascii (if Ascii.eqb c PyStr.space then PyStr.underscore else c).
Proof. each_char c; reflexivity. Qed.

Lemma latin1_re_sub (l : list ascii) :
  UnicodeNormalizer.re_sub_nonword latin1 (List.map N_of_ascii l)
  = List.map N_of_ascii (PyStr.re_sub_nonword l).
Proof.
  unfold UnicodeNormalizer.re_sub_nonword, PyStr.re_sub_nonword.
  induction l as [|c l IH]; [reflexivity|].
  cbn [List.map List.filter]. rewrite latin1_keep.
  destruct (PyStr.keep c); cbn [List.map]; now rewrite IH.
Qed.

Lemma latin1_lstrip (l : list ascii) :
  UnicodeNormalizer.lstrip latin1 (List.map N_of_ascii l)
  = List.map N_of_ascii (PyStr.lstrip l).
Proof.
  induction l as [|c l IH]; [reflexivity|].
  cbn [List.map UnicodeNormalizer.lstrip PyStr.lstrip]. rewrite latin1_isspace.
  destruct (isspace c); [assumption|reflexivity].
Qed.

Lemma latin1_strip (l : list ascii) :
  UnicodeNormalizer.strip latin1 (List.map N_of_ascii l)
  = List.map N_of_ascii (PyStr.strip l).
Proof.
  unfold UnicodeNormalizer.strip, PyStr.strip, UnicodeNormalizer.rstrip, PyStr.rstrip.
  now rewrite latin1_lstrip, <- map_rev, latin1_lstrip, map_rev.
Qed.

Lemma latin1_lower (l : list ascii) :
  u_lower latin1 (List.map N_of_ascii l) = List.map N_of_ascii (PyStr.lower l).
Proof.
  unfold PyStr.lower. cbn [u_lower latin1]. rewrite !map_map.
  apply map_ext. intros c. apply latin1_lower_char.
Qed.

Lemma latin1_replace_space (l : list ascii) :
  UnicodeNormalizer.replace_space (List.map N_of_ascii l)
  = List.map N_of_ascii (PyStr.replace_space l).
Proof.
  unfold UnicodeNormalizer.replace_space, PyStr.replace_space. rewrite !map_map.
  apply map_ext. intros c. apply latin1_replace.
Qed.

Lemma latin1_collapse_ws (b : bool) (l : list ascii) :
  UnicodeNormalizer.collapse_ws latin1 b (List.map N_of_ascii l)
  = List.map N_of_ascii (Normalizer.collapse_ws b l).
Proof.
  revert b. induction l as [|c l IH]; intros b; [reflexivity|].
  cbn [List.map UnicodeNormalizer.collapse_ws Normalizer.collapse_ws].
  rewrite latin1_isspace. destruct (isspace c).
  - destruct b; cbn [List.map]; now rewrite IH.
  - cbn [List.map]. now rewrite IH.
Qed.

Lemma code_points_append (a b : string) :
  code_points (a ++ b)%string = code_points a ++ code_points b.
Proof. unfold code_points. now rewrite chars_append, map_app. Qed.

(** [Normalizer.normalize_id] is [normalize_id] at the tables of [PyStr]. *)
Lemma normalize_id_latin1 (label : string) (name : pyval) :
  code_points (Normalizer.normalize_id label name)
  = normalize_id latin1 (code_points label) (uval_of name).
Proof.
  destruct name as [|s]; unfold Normalizer.normalize_id, normalize_id;
    cbn [Normalizer.isna isna uval_of].
  - now rewrite code_points_append.
  - rewrite !code_points_append. do 2 f_equal.
    unfold Normalizer.clean_name, clean_name, code_points. rewrite chars_str.
    now rewrite latin1_re_sub, latin1_strip, latin1_lower, latin1_replace_space.
Qed.

Lemma spec_normalize_id_latin1 (label s : string) :
  code_points (Normalizer.spec_normalize_id label s)
  = spec_normalize_id latin1 (code_points label) (code_points s).
Proof.
  unfold Normalizer.spec_normalize_id, spec_normalize_id.
  rewrite !code_points_append. do 2 f_equal.
  unfold Normalizer.spec_clean_name, spec_clean_name, code_points. rewrite chars_str.
  now rewrite latin1_re_sub, latin1_strip, latin1_lower, latin1_collapse_ws.
Qed.

End UnicodeNormalizerFacts.

(** ** normalize_id *)

Module NormalizerFacts.
Import PyStr PyStrFacts Normalizer.

(** C4, as stated, fails: the empty string is not missing for [pd.isna]. *)
Lemma C4_empty_name_counterexample :
  ~ (forall label name,
        missing_or_empty name -> normalize_id label name = (label ++ "_unknown")%string).
Proof.
  intros H. specialize (H "Company" (PyStr "") (or_intror eq_refl)).
  vm_compute in H. discriminate.
Qed.

(** C4 (amended): for every label, a missing name (one on which [pd.isna]
    answers true) gives the id [label ++ "_unknown"], so all such nameless
    entities of a label share one id; the empty string is not missing and
    gives [label ++ "_"]. *)
Theorem C4_normalize_id_missing (label : string) (name : pyval) :
  isna name = true ->
  normalize_id label name = (label ++ "_unknown")%string
  /\ (forall name', isna name' = true -> normalize_id label name' = normalize_id label name)
  /\ normalize_id label (PyStr "") = (label ++ "_")%string.
Proof.
  intros Hna. unfold normalize_id. rewrite Hna. split; [reflexivity|]. split.
  - intros name' Hna'. now rewrite Hna'.
  - reflexivity.
Qed.

Lemma C4_normalize_id_missing_witness :
  isna PyNone = true
  /\ (normalize_id "Rating" PyNone = "Rating_unknown"
      /\ (forall name', isna name' = true ->
                        normalize_id "Rating" name' = normalize_id "Rating" PyNone)
      /\ normalize_id "Rating" (PyStr "") = "Rating_").
Proof. split; [reflexivity | apply (C4_normalize_id_missing "Rating" PyNone); reflexivity]. Defined.

(** C5, as stated, fails: two adjacent spaces give two underscores. *)
Lemma C5_whitespace_run_counterexample :
  ~ (forall label s, s <> "" -> normalize_id label (PyStr s) = spec_normalize_id label s).
Proof.
  intros H. specialize (H "Company" "a  b").
  assert (Hne : "a  b" <> "") by discriminate.
  specialize (H Hne). vm_compute in H. discriminate.
Qed.

(** C5 (amended): for every label and every string name, whatever its code
    points, [normalize_id] is the label, an underscore, and the name with the
    non-word non-whitespace characters deleted, trimmed, lowercased and each
    U+0020 replaced by an underscore; this is the result of collapsing
    whitespace runs exactly when the name so deleted, trimmed and lowercased
    has only isolated U+0020 characters as whitespace.  The character
    database is any one in which U+0020 is whitespace and U+005F is not;
    [Normalizer.normalize_id] is the function at the tables of [PyStr].
    ["NetApp Inc."] and ["netapp inc"] get the same id. *)
Theorem C5_normalize_id_spec :
  (forall D : UnicodeNormalizer.ucd,
      UnicodeNormalizer.u_isspace D UnicodeNormalizer.space = true ->
      UnicodeNormalizer.u_isspace D UnicodeNormalizer.underscore = false ->
      forall label name : UnicodeNormalizer.ustr,
        UnicodeNormalizer.normalize_id D label (UnicodeNormalizer.UStr name)
        = label ++ UnicodeNormalizer.literal "_"
            ++ UnicodeNormalizer.replace_space
                 (UnicodeNormalizer.u_lower D
                    (UnicodeNormalizer.strip D (UnicodeNormalizer.re_sub_nonword D name)))
        /\ (UnicodeNormalizer.plain_spacing D name = true
            <-> UnicodeNormalizer.normalize_id D label (UnicodeNormalizer.UStr name)
                = UnicodeNormalizer.spec_normalize_id D label name))
  /\ (forall label name,
        UnicodeNormalizer.code_points (normalize_id label name)
        = UnicodeNormalizer.normalize_id UnicodeNormalizer.latin1
            (UnicodeNormalizer.code_points label) (UnicodeNormalizer.uval_of name))
  /\ (forall label s,
        UnicodeNormalizer.code_points (spec_normalize_id label s)
        = UnicodeNormalizer.spec_normalize_id UnicodeNormalizer.latin1
            (UnicodeNormalizer.code_points label) (UnicodeNormalizer.code_points s))
  /\ normalize_id "Company" (PyStr "NetApp Inc.") = "Company_netapp_inc"
  /\ normalize_id "Company" (PyStr "netapp inc") = "Company_netapp_inc".
Proof.
  split; [|split; [|split; [|split; reflexivity]]].
  - intros D Hsp Hus label name. split; [reflexivity|].
    now apply UnicodeNormalizerFacts.normalize_id_spec_iff.
  - apply UnicodeNormalizerFacts.normalize_id_latin1.
  - apply UnicodeNormalizerFacts.spec_normalize_id_latin1.
Qed.

End NormalizerFacts.

(** ** merge_graphs *)

Module MergerFacts.
Import PyStr Normalizer Merger.

(** *** The insertion-ordered dictionary *)

Lemma dict_get_set_eq {V} (k : string) (v : V) (d : dict V) :
  dict_get k (dict_set k v d) = Some v.
Proof.
  induction d as [|[k' v'] d IH]; simpl.
  - now rewrite String.eqb_refl.
  - destruct (String.eqb k' k) eqn:E; simpl.
    + now rewrite String.eqb_refl.
    + now rewrite E.
Qed.

Lemma dict_get_set_ne {V} (k k0 : string) (v : V) (d : dict V) :
  k <> k0 -> dict_get k0 (dict_set k v d) = dict_get k0 d.
Proof.
  intros Hne. induction d as [|[k' v'] d IH]; simpl.
  - apply String.eqb_neq in Hne. now rewrite Hne.
  - destruct (String.eqb k' k) eqn:E; simpl.
    + apply String.eqb_eq in E. subst k'.
      apply String.eqb_neq in Hne. now rewrite Hne.
    + now rewrite IH.
Qed.

Lemma dict_get_None {V} (k : string) (d : dict V) :
  k ∉ dict_keys d -> dict_get k d = None.
Proof.
  induction d as [|[k' v'] d IH]; simpl; [reflexivity|].
  intros Hk. destruct (String.eqb k' k) eqn:E.
  - apply String.eqb_eq in E. subst k'. exfalso. apply Hk. left.
  - apply IH. intros Hin. apply Hk. now right.
Qed.

Lemma dict_set_fresh {V} (k : string) (v : V) (d : dict V) :
  k ∉ dict_keys d -> dict_set k v d = d ++ [(k, v)].
Proof.
  induction d as [|[k' v'] d IH]; simpl; [reflexivity|].
  intros Hk. destruct (String.eqb k' k) eqn:E.
  - apply String.eqb_eq in E. subst k'. exfalso. apply Hk. left.
  - rewrite IH; [reflexivity|]. intros Hin. apply Hk. now right.
Qed.

Lemma dict_keys_set {V} (k : string) (v : V) (d : dict V) :
  dict_keys (dict_set k v d)
  = if bool_decide (k ∈ dict_keys d) then dict_keys d else dict_keys d ++ [k].
Proof.
  induction d as [|[k' v'] d IH].
  - reflexivity.
  - cbn [dict_set]. change (dict_keys ((k', v') :: d)) with (k' :: dict_keys d).
    destruct (String.eqb k' k) eqn:E.
    + apply String.eqb_eq in E. subst k'.
      change (dict_keys ((k, v) :: d)) with (k :: dict_keys d).
      rewrite bool_decide_true; [reflexivity|]. left.
    + apply String.eqb_neq in E.
      change (dict_keys ((k', v') :: dict_set k v d)) with (k' :: dict_keys (dict_set k v d)).
      rewrite IH.
      destruct (bool_decide (k ∈ dict_keys d)) eqn:B.
      * apply bool_decide_eq_true in B.
        rewrite bool_decide_true; [reflexivity|]. now right.
      * apply bool_decide_eq_false in B.
        rewrite bool_decide_false; [reflexivity|].
        intros Hin. apply elem_of_cons in Hin as [->|Hin]; [now apply E|now apply B].
Qed.

Lemma dict_set_elem {V} (k : string) (v : V) (d : dict V) (kv : string * V) :
  kv ∈ dict_set k v d -> kv = (k, v) \/ kv ∈ d.
Proof.
  induction d as [|[k' v'] d IH]; simpl.
  - intros H. apply list_elem_of_singleton in H. now left.
  - destruct (String.eqb k' k).
    + intros H. apply elem_of_cons in H as [->|H]; [now left|]. right. now right.
    + intros H. apply elem_of_cons in H as [->|H]; [right; left|].
      destruct (IH H) as [->|Hin]; [now left|]. right. now right.
Qed.

Lemma well_keyed_set (n : node) (d : dict node) :
  well_keyed d -> well_keyed (dict_set (new_id_of n) (new_node n) d).
Proof.
  intros [Hnd Hall]. split.
  - rewrite dict_keys_set. case_bool_decide as Hin; [assumption|].
    apply NoDup_app. split; [assumption|]. split; [|apply NoDup_singleton].
    intros x Hx Hx'. apply list_elem_of_singleton in Hx'. now subst x.
  - apply Forall_forall. intros kv Hkv.
    apply dict_set_elem in Hkv as [->|Hkv].
    + split; reflexivity.
    + rewrite Forall_forall in Hall. now apply Hall.
Qed.

Lemma well_keyed_build (l : list node) (d : dict node) :
  well_keyed d -> well_keyed (build l d).
Proof.
  revert d. induction l as [|n l IH]; intros d Hd; simpl; [assumption|].
  apply IH. now apply well_keyed_set.
Qed.

Lemma well_keyed_nil : well_keyed [].
Proof. split; [apply NoDup_nil_2 | constructor]. Qed.

Lemma build_app (l1 l2 : list node) (d : dict node) :
  build (l1 ++ l2) d = build l2 (build l1 d).
Proof. apply fold_left_app. Qed.

Lemma build_get_other (k : string) (l : list node) (d : dict node) :
  Forall (fun m => new_id_of m <> k) l -> dict_get k (build l d) = dict_get k d.
Proof.
  revert d. induction l as [|n l IH]; intros d Hl; simpl; [reflexivity|].
  inversion Hl as [|? ? Hn Hl']; subst.
  rewrite IH by assumption. now apply dict_get_set_ne.
Qed.

(** The values that sit under the id [k] are the entry found under the key [k]. *)
Lemma well_keyed_filter (k : string) (d : dict node) :
  well_keyed d ->
  List.filter (fun x => String.eqb (node_id x) k) (dict_values d)
  = match dict_get k d with Some v => [v] | None => [] end.
Proof.
  induction d as [|[k' v'] d IH]; intros [Hnd Hall]; [reflexivity|].
  change (dict_keys ((k', v') :: d)) with (k' :: dict_keys d) in Hnd.
  change (dict_values ((k', v') :: d)) with (v' :: dict_values d).
  apply NoDup_cons in Hnd as [Hk' Hnd].
  apply Forall_cons in Hall as [[Hid _] Hall]. cbn [fst snd] in Hid.
  cbn [List.filter dict_get]. rewrite Hid.
  destruct (String.eqb k' k) eqn:E.
  - apply String.eqb_eq in E. subst k.
    rewrite IH by (split; assumption).
    now rewrite dict_get_None by assumption.
  - apply IH. split; assumption.
Qed.

(** *** The shape of the loops *)

Lemma fold_node_step (ns : list node) (m : gmap string string) (d : dict node) :
  fold_left node_step ns (m, d)
  = (fold_left (fun m n => <[node_id n := new_id_of n]> m) ns m, build ns d).
Proof.
  revert m d. induction ns as [|n ns IH]; intros m d; simpl; [reflexivity|].
  unfold node_step at 2. simpl. apply IH.
Qed.

Lemma fold_rel_step (m : gmap string string) (rs acc : list relationship) :
  fold_left (rel_step m) rs acc = acc ++ List.map (rewrite_rel m) rs.
Proof.
  revert acc. induction rs as [|r rs IH]; intros acc; simpl.
  - now rewrite app_nil_r.
  - rewrite IH. unfold rel_step. now rewrite <- app_assoc.
Qed.

Lemma chunk_step_spec (st : merge_state) (c : chunk) :
  chunk_step st c
  = {| combined_nodes := build (chunk_nodes c) (combined_nodes st);
       combined_relationships := combined_relationships st ++ chunk_rewritten c |}.
Proof.
  destruct st as [cn cr]. destruct c as [[ns rs]|]; simpl.
  - unfold chunk_step.
    destruct (truthy (Some {| nodes := ns; relationships := rs |})) eqn:T; simpl.
    + rewrite fold_node_step. simpl. rewrite fold_rel_step. reflexivity.
    + destruct ns, rs; try discriminate. simpl. now rewrite app_nil_r.
  - unfold chunk_step. simpl. now rewrite app_nil_r.
Qed.

Lemma fold_chunk_step (gs : list chunk) (st : merge_state) :
  fold_left chunk_step gs st
  = {| combined_nodes := build (all_nodes gs) (combined_nodes st);
       combined_relationships := combined_relationships st ++ rewritten gs |}.
Proof.
  revert st. induction gs as [|c gs IH]; intros st; simpl.
  - destruct st. simpl. now rewrite app_nil_r.
  - rewrite IH, chunk_step_spec. simpl.
    unfold all_nodes, rewritten. simpl. fold (all_nodes gs). fold (rewritten gs).
    now rewrite build_app, <- app_assoc.
Qed.

Lemma merge_graphs_spec (gs : list chunk) :
  merge_graphs gs
  = {| nodes := Some (dict_values (build (all_nodes gs) []));
       relationships := Some (unique (rewritten gs)) |}.
Proof. unfold merge_graphs. now rewrite fold_chunk_step. Qed.

(** *** Deduplication *)

Lemma rel_tuple_inj (a b : relationship) : rel_tuple a = rel_tuple b -> a = b.
Proof. destruct a, b. unfold rel_tuple. simpl. intros H. now injection H as -> -> ->. Qed.

Lemma filter_filter_and {A} (f g : A -> bool) (l : list A) :
  List.filter f (List.filter g l) = List.filter (fun x => f x && g x) l.
Proof.
  induction l as [|x l IH]; simpl; [reflexivity|].
  destruct (g x) eqn:G; simpl.
  - rewrite andb_true_r. destruct (f x); now rewrite IH.
  - now rewrite andb_false_r.
Qed.

Lemma filter_all {A} (f : A -> bool) (l : list A) :
  (forall x, In x l -> f x = true) -> List.filter f l = l.
Proof.
  induction l as [|x l IH]; simpl; [reflexivity|].
  intros H. rewrite (H x) by now left. rewrite IH; [reflexivity|]. intros y Hy. apply H. now right.
Qed.

Lemma keep_first_In (r : relationship) (l : list relationship) :
  In r (keep_first l) <-> In r l.
Proof.
  induction l as [|x l IH]; simpl; [tauto|].
  rewrite filter_In, IH. split.
  - intros [->|[H _]]; [now left|now right].
  - intros [->|H]; [now left|].
    destruct (decide (r = x)) as [->|Hne]; [now left|].
    right. split; [assumption|]. now rewrite bool_decide_false.
Qed.

Lemma keep_first_NoDup (l : list relationship) : List.NoDup (keep_first l).
Proof.
  induction l as [|x l IH]; simpl; [constructor|].
  constructor.
  - rewrite filter_In. intros [_ H]. now rewrite bool_decide_true in H.
  - now apply List.NoDup_filter.
Qed.

Lemma keep_first_app (p q : list relationship) :
  keep_first (p ++ q)
  = keep_first p ++ List.filter (fun x => negb (bool_decide (x ∈ p))) (keep_first q).
Proof.
  induction p as [|x p IH]; simpl.
  - symmetry. now apply filter_all.
  - f_equal. rewrite IH, List.filter_app, filter_filter_and. f_equal.
    apply filter_ext. intros y.
    destruct (decide (y = x)) as [->|Hne].
    + rewrite (bool_decide_true (x = x)) by reflexivity.
      rewrite (bool_decide_true (x ∈ x :: p)) by left.
      reflexivity.
    + rewrite (bool_decide_false (y = x)) by assumption. cbn [negb andb].
      f_equal. apply bool_decide_ext. rewrite elem_of_cons. tauto.
Qed.

Lemma keep_first_NoDup_id (l : list relationship) :
  List.NoDup l -> keep_first l = l.
Proof.
  induction 1 as [|x l Hx Hnd IH]; simpl; [reflexivity|].
  rewrite IH. f_equal. apply filter_all. intros y Hy.
  rewrite bool_decide_false; [reflexivity|]. intros ->. now apply Hx.
Qed.

(** The loop with its [seen_rels] set computes the keep-first list. *)
Lemma dedup_fold (l u : list relationship) (seen : gset (string * string * string)) :
  (forall r, rel_tuple r ∈ seen <-> r ∈ u) ->
  fst (fold_left dedup_step l (u, seen))
  = u ++ List.filter (fun r => negb (bool_decide (r ∈ u))) (keep_first l).
Proof.
  revert u seen. induction l as [|x l IH]; intros u seen Hinv.
  - simpl. now rewrite app_nil_r.
  - cbn [fold_left keep_first List.filter]. unfold dedup_step at 2. cbn [fst snd].
    destruct (decide (rel_tuple x ∈ seen)) as [Hs|Hs].
    + rewrite (IH u seen Hinv).
      rewrite bool_decide_true by now apply Hinv. cbn [negb].
      f_equal. rewrite filter_filter_and. apply filter_ext. intros y.
      destruct (bool_decide (y ∈ u)) eqn:B; [reflexivity|]. simpl.
      apply bool_decide_eq_false in B.
      rewrite bool_decide_false; [reflexivity|].
      intros ->. apply B. now apply Hinv.
    + assert (Hx : x ∉ u) by (intros H; now apply Hs, Hinv).
      rewrite (IH (u ++ [x]) ({[rel_tuple x]} ∪ seen)).
      * rewrite bool_decide_false by assumption. cbn [negb].
        rewrite <- app_assoc. cbn [app]. do 2 f_equal.
        rewrite filter_filter_and. apply filter_ext. intros y.
        destruct (decide (y = x)) as [->|Hne].
        { rewrite (bool_decide_true (x = x)) by reflexivity.
          rewrite bool_decide_true; [now rewrite andb_false_r|].
          apply elem_of_app. right. left. }
        { rewrite (bool_decide_false (y = x)) by assumption.
          rewrite andb_true_r. f_equal. apply bool_decide_ext.
          rewrite elem_of_app, list_elem_of_singleton. tauto. }
      * intros r. rewrite elem_of_union, elem_of_singleton, elem_of_app,
                          list_elem_of_singleton, Hinv.
        split.
        { intros [H|H]; [right; now apply rel_tuple_inj|now left]. }
        { intros [H| ->]; [now right|now left]. }
Qed.

Lemma unique_keep_first (l : list relationship) : unique l = keep_first l.
Proof.
  unfold unique. rewrite (dedup_fold l [] ∅).
  - simpl. now apply filter_all.
  - intros r. split; intros H; [now apply not_elem_of_empty in H|now apply not_elem_of_nil in H].
Qed.

Lemma filter_none {A} (f : A -> bool) (l : list A) :
  (forall x, In x l -> f x = false) -> List.filter f l = [].
Proof.
  induction l as [|x l IH]; simpl; [reflexivity|].
  intros H. rewrite (H x) by now left. apply IH. intros y Hy. apply H. now right.
Qed.

Lemma filter_eq_singleton (r : relationship) (l : list relationship) :
  List.NoDup l -> In r l ->
  List.filter (fun x => bool_decide (rel_tuple x = rel_tuple r)) l = [r].
Proof.
  induction 1 as [|x l Hx Hnd IH]; simpl; [tauto|].
  intros [->|Hin].
  - rewrite bool_decide_true by reflexivity. f_equal.
    apply filter_none. intros a Ha. apply bool_decide_eq_false. intros E.
    apply rel_tuple_inj in E. subst a. now apply Hx.
  - rewrite bool_decide_false.
    + now apply IH.
    + intros E. apply rel_tuple_inj in E. subst x. now apply Hx.
Qed.

(** *** The batch-local id map *)

Lemma id_map_fold_other (x : string) (ns : list node) (m : gmap string string) :
  ~ In x (List.map node_id ns) ->
  fold_left (fun m n => <[node_id n := new_id_of n]> m) ns m !! x = m !! x.
Proof.
  revert m. induction ns as [|n ns IH]; intros m Hx; simpl; [reflexivity|].
  rewrite IH by (intros H; apply Hx; now right).
  apply lookup_insert_ne. intros E. apply Hx. now left.
Qed.

Lemma id_map_fold_some (x : string) (ns : list node) (m : gmap string string) :
  In x (List.map node_id ns) ->
  exists n, In n ns /\ node_id n = x
            /\ fold_left (fun m n => <[node_id n := new_id_of n]> m) ns m !! x
               = Some (new_id_of n).
Proof.
  revert m. induction ns as [|n ns IH]; intros m Hx; simpl in *; [tauto|].
  destruct (in_dec string_dec x (List.map node_id ns)) as [Hin|Hnin].
  - destruct (IH (<[node_id n := new_id_of n]> m) Hin) as (n' & Hn' & Hid & Hl).
    exists n'. split; [now right|]. split; assumption.
  - destruct Hx as [Hx|Hx]; [|contradiction].
    exists n. split; [now left|]. split; [assumption|].
    rewrite id_map_fold_other by assumption. subst x. apply lookup_insert_eq.
Qed.

Lemma id_map_fold_fixed (ns : list node) (m : gmap string string) :
  Forall (fun v => new_id_of v = node_id v) ns ->
  (forall x y, m !! x = Some y -> y = x) ->
  forall x y,
    fold_left (fun m n => <[node_id n := new_id_of n]> m) ns m !! x = Some y -> y = x.
Proof.
  revert m. induction ns as [|n ns IH]; intros m Hns Hm; simpl; [assumption|].
  apply Forall_cons in Hns as [Hn Hns].
  apply IH; [assumption|].
  intros x y. rewrite Hn. destruct (decide (node_id n = x)) as [->|Hne].
  - rewrite lookup_insert_eq. now intros [= ->].
  - rewrite lookup_insert_ne by assumption. apply Hm.
Qed.

(** *** Re-merging a consolidated graph *)

Lemma new_node_fixed (v : node) : new_id_of v = node_id v -> new_node v = v.
Proof. destruct v as [i l n]. unfold new_node, new_id_of. simpl. now intros ->. Qed.

Lemma build_values (d d0 : dict node) :
  well_keyed d ->
  (forall k, k ∈ dict_keys d0 -> k ∉ dict_keys d) ->
  build (dict_values d) d0 = d0 ++ d.
Proof.
  revert d0. induction d as [|[k v] d IH]; intros d0 [Hnd Hall] Hdisj.
  - simpl. now rewrite app_nil_r.
  - change (dict_keys ((k, v) :: d)) with (k :: dict_keys d) in Hnd, Hdisj.
    apply NoDup_cons in Hnd as [Hk Hnd].
    apply Forall_cons in Hall as [[Hid Hnew] Hall]. cbn [fst snd] in Hid, Hnew.
    change (dict_values ((k, v) :: d)) with (v :: dict_values d).
    cbn [build fold_left]. fold (build (dict_values d)).
    rewrite new_node_fixed by congruence. rewrite Hnew.
    rewrite dict_set_fresh.
    + rewrite IH.
      * now rewrite <- app_assoc.
      * split; assumption.
      * intros k0 Hk0. unfold dict_keys in Hk0. rewrite map_app in Hk0.
        apply elem_of_app in Hk0 as [Hk0|Hk0].
        { intros H. apply (Hdisj k0 Hk0). now right. }
        { apply list_elem_of_singleton in Hk0. now subst k0. }
    + intros H. apply (Hdisj k H). left.
Qed.

Lemma all_nodes_In (gs : list chunk) (g : graph) (n : node) :
  In (Some g) gs -> In n (get_list (nodes g)) -> In n (all_nodes gs).
Proof.
  intros Hg Hn. unfold all_nodes. apply in_flat_map. exists (Some g). now split.
Qed.

(** The last element with a decidable property. *)
Lemma last_split {A} (P : A -> Prop) `{forall a, Decision (P a)} (l : list A) :
  (exists a0, In a0 l /\ P a0) ->
  exists l1 a l2, l = l1 ++ a :: l2 /\ P a /\ Forall (fun b => ~ P b) l2.
Proof.
  induction l as [|x l IH]; intros (a0 & Hin & HP); simpl in Hin; [tauto|].
  destruct (decide (Exists P l)) as [Hex|Hnex].
  - apply Exists_exists in Hex as (y & Hy & HPy).
    apply list_elem_of_In in Hy.
    destruct IH as (l1 & a & l2 & -> & Ha & Hl2); [eauto|].
    exists (x :: l1), a, l2. now repeat split.
  - destruct Hin as [->|Hin].
    + exists [], a0, l. repeat split; [assumption|].
      now apply not_Exists_Forall in Hnex.
    + exfalso. apply Hnex, Exists_exists. exists a0. split; [|assumption].
      now apply list_elem_of_In.
Qed.

(** *** The claims on merge_graphs *)

Example merge_two_batches :
  merge_graphs [batch_one; None; batch_two]
  = {| nodes := Some [Node "Company_acme" "Company" (PyStr "Acme");
                      Node "Rating_a" "Rating" (PyStr "A")];
       relationships := Some [Relationship "HAS_RATING" "Company_acme" "Rating_a";
                              Relationship "HAS_REPORT" "Company_acme" "9"] |}.
Proof. vm_compute. reflexivity. Qed.

(** C1: whenever some node of the input normalises to an id, the consolidated
    nodes carrying that id are exactly one node, with the label and name of
    the last input node that normalises to it; two batches that each mention
    the company "Acme" give the single node [Company_acme]. *)
Theorem C1_merge_nodes_last_wins (gs : list chunk) (n0 : node) :
  In n0 (all_nodes gs) ->
  exists l1 n l2,
    all_nodes gs = l1 ++ n :: l2
    /\ new_id_of n = new_id_of n0
    /\ Forall (fun m => new_id_of m <> new_id_of n0) l2
    /\ nodes_with_id (new_id_of n0) (merge_graphs gs)
       = [ {| node_id := new_id_of n0; node_label := node_label n;
              node_name := node_name n |} ].
Proof.
  intros Hin.
  destruct (last_split (fun m => new_id_of m = new_id_of n0) (all_nodes gs))
    as (l1 & n & l2 & Hl & Hn & Hl2); [eauto|].
  exists l1, n, l2. repeat split; try assumption.
  unfold nodes_with_id. rewrite merge_graphs_spec. cbn [nodes get_list default from_option id].
  rewrite well_keyed_filter by (apply well_keyed_build, well_keyed_nil).
  rewrite Hl, build_app. cbn [build fold_left]. fold (build l2).
  rewrite build_get_other by assumption. rewrite Hn, dict_get_set_eq.
  unfold new_node. fold (new_id_of n). now rewrite Hn.
Qed.

Lemma C1_merge_nodes_last_wins_witness :
  In (Node "1" "Company" (PyStr "Acme")) (all_nodes [batch_one; batch_two])
  /\ exists l1 n l2,
       all_nodes [batch_one; batch_two] = l1 ++ n :: l2
       /\ new_id_of n = new_id_of (Node "1" "Company" (PyStr "Acme"))
       /\ Forall (fun m => new_id_of m <> new_id_of (Node "1" "Company" (PyStr "Acme"))) l2
       /\ nodes_with_id (new_id_of (Node "1" "Company" (PyStr "Acme")))
                        (merge_graphs [batch_one; batch_two])
          = [ {| node_id := new_id_of (Node "1" "Company" (PyStr "Acme"));
                 node_label := node_label n; node_name := node_name n |} ].
Proof.
  split.
  - simpl. tauto.
  - apply (C1_merge_nodes_last_wins [batch_one; batch_two] (Node "1" "Company" (PyStr "Acme"))).
    simpl. tauto.
Defined.

(** The consolidated relationships are the rewritten relationships with
    every repeated (type, start, end) triple dropped after its first
    occurrence. *)
Lemma relationships_keep_first (gs : list chunk) :
  let out := get_list (relationships (merge_graphs gs)) in
  let rw := rewritten gs in
  out = keep_first rw
  /\ List.NoDup (List.map rel_tuple out)
  /\ (forall r, In r out <-> In r rw)
  /\ (forall r, In r rw -> rels_with_triple r (merge_graphs gs) = [r])
  /\ (forall p r s, rw = p ++ r :: s -> ~ In r p ->
                    exists t, out = unique p ++ r :: t).
Proof.
  intros out rw.
  assert (Hout : out = keep_first rw).
  { unfold out. rewrite merge_graphs_spec. cbn [relationships get_list default from_option id].
    apply unique_keep_first. }
  split; [assumption|]. split; [|split; [|split]].
  - rewrite Hout. apply Finite.Injective_map_NoDup.
    + intros a b. apply rel_tuple_inj.
    + apply keep_first_NoDup.
  - intros r. rewrite Hout. apply keep_first_In.
  - intros r Hr. unfold rels_with_triple. fold out. rewrite Hout.
    apply filter_eq_singleton; [apply keep_first_NoDup|now apply keep_first_In].
  - intros p r s Hrw Hr. rewrite Hout, Hrw, keep_first_app, unique_keep_first.
    cbn [keep_first List.filter].
    rewrite bool_decide_false by (now rewrite list_elem_of_In). cbn [negb].
    eexists. reflexivity.
Qed.

(** C6: every relationship of every partial graph reaches the consolidated
    output with both endpoints sent through the id map of its own partial
    graph; an id that is no node's batch-local id is left as it is, an id
    that is one becomes that node's normalised id; nothing is asked of the
    endpoints, so a relationship that points at no consolidated node stays. *)
Theorem C6_endpoints_rewritten (gs : list chunk) (g : graph) (rel : relationship) :
  In (Some g) gs -> In rel (get_list (relationships g)) ->
  In {| rel_type := rel_type rel;
        start_node_id := id_map_get (id_map_of g) (start_node_id rel);
        end_node_id := id_map_get (id_map_of g) (end_node_id rel) |}
     (get_list (relationships (merge_graphs gs)))
  /\ (forall x, ~ In x (List.map node_id (get_list (nodes g))) ->
                id_map_get (id_map_of g) x = x)
  /\ (forall x, In x (List.map node_id (get_list (nodes g))) ->
                exists n, In n (get_list (nodes g)) /\ node_id n = x
                          /\ id_map_get (id_map_of g) x = new_id_of n).
Proof.
  intros Hg Hrel. split; [|split].
  - rewrite merge_graphs_spec. cbn [relationships get_list default from_option id].
    rewrite unique_keep_first. apply keep_first_In.
    unfold rewritten. apply in_flat_map. exists (Some g). split; [assumption|].
    cbn [chunk_rewritten]. apply in_map_iff. exists rel. now split.
  - intros x Hx. unfold id_map_get, id_map_of.
    rewrite id_map_fold_other by assumption. now rewrite lookup_empty.
  - intros x Hx. unfold id_map_get, id_map_of.
    destruct (id_map_fold_some x (get_list (nodes g)) ∅ Hx) as (n & Hn & Hid & Hl).
    exists n. rewrite Hl. now repeat split.
Qed.

Lemma C6_endpoints_rewritten_witness :
  In batch_one [batch_one; batch_two]
  /\ In (Relationship "HAS_REPORT" "1" "9")
        [Relationship "HAS_RATING" "1" "2"; Relationship "HAS_REPORT" "1" "9"]
  /\ In (Relationship "HAS_REPORT" "Company_acme" "9")
        (get_list (relationships (merge_graphs [batch_one; batch_two])))
  /\ nodes_with_id "9" (merge_graphs [batch_one; batch_two]) = [].
Proof.
  split; [now left|]. split; [right; now left|]. split; [|reflexivity].
  exact (proj1 (C6_endpoints_rewritten
                  [batch_one; batch_two]
                  {| nodes := Some [Node "1" "Company" (PyStr "Acme");
                                    Node "2" "Rating" (PyStr "A")];
                     relationships := Some [Relationship "HAS_RATING" "1" "2";
                                            Relationship "HAS_REPORT" "1" "9"] |}
                  (Relationship "HAS_REPORT" "1" "9")
                  (or_introl eq_refl) (or_intror (or_introl eq_refl)))).
Defined.

(** C10: merging the one-element list that holds a consolidated graph gives
    that graph back, nodes and relationships in the same order; every node id
    of a consolidated graph is already the normalised id of its label and
    name. *)
Theorem C10_merge_graphs_idempotent (gs : list chunk) :
  merge_graphs [Some (merge_graphs gs)] = merge_graphs gs
  /\ Forall (fun v => node_id v = normalize_id (node_label v) (node_name v))
            (get_list (nodes (merge_graphs gs))).
Proof.
  pose proof (well_keyed_build (all_nodes gs) [] well_keyed_nil) as Hwk.
  assert (Hids : Forall (fun v => new_id_of v = node_id v)
                        (dict_values (build (all_nodes gs) []))).
  { destruct Hwk as [_ Hall]. unfold dict_values. apply Forall_map.
    eapply Forall_impl; [exact Hall|]. intros [k v] [H1 H2]. simpl in *. congruence. }
  split.
  - rewrite (merge_graphs_spec [Some (merge_graphs gs)]).
    rewrite (merge_graphs_spec gs) at 3.
    unfold all_nodes at 1, rewritten at 1. cbn [flat_map chunk_nodes chunk_rewritten].
    rewrite !app_nil_r.
    rewrite (merge_graphs_spec gs). cbn [nodes relationships get_list default from_option id].
    rewrite build_values; [|assumption|intros k Hk; now apply not_elem_of_nil in Hk].
    cbn [app]. f_equal. f_equal.
    rewrite (map_ext_in _ (fun r => r)), map_id.
    + rewrite !unique_keep_first. apply keep_first_NoDup_id, keep_first_NoDup.
    + intros r _. destruct r as [t a b]. unfold rewrite_rel, id_map_get. cbn [rel_type start_node_id end_node_id].
      assert (Hfix : forall x y,
                 id_map_of {| nodes := Some (dict_values (build (all_nodes gs) []));
                              relationships := Some (unique (rewritten gs)) |} !! x = Some y
                 -> y = x).
      { unfold id_map_of. cbn [nodes get_list default from_option id].
        apply id_map_fold_fixed; [assumption|]. intros x y. now rewrite lookup_empty. }
      f_equal.
      * destruct (_ !! a) eqn:E; [apply Hfix in E; now subst|reflexivity].
      * destruct (_ !! b) eqn:E; [apply Hfix in E; now subst|reflexivity].
  - rewrite merge_graphs_spec. cbn [nodes get_list default from_option id].
    eapply Forall_impl; [exact Hids|]. intros v Hv. now symmetry.
Qed.

End MergerFacts.

(** ** merge_graphs on entries that carry properties *)

Module MergerRawFacts.
Import PyStr Normalizer Merger MergerFacts.

Lemma get_list_option_map {A B} (f : A -> B) (o : option (list A)) :
  get_list (option_map (List.map f) o) = List.map f (get_list o).
Proof. now destruct o. Qed.

Lemma truthy_forget (c : MergerRaw.raw_chunk) :
  truthy (MergerRaw.forget c) = MergerRaw.truthy c.
Proof.
  destruct c as [[ns rs]|]; [|reflexivity].
  cbn. destruct ns, rs; reflexivity.
Qed.

Lemma fold_rel_step_forget (m : gmap string string) (l : list MergerRaw.raw_relationship)
      (acc : list relationship) :
  fold_left (MergerRaw.rel_step m) l acc
  = fold_left (rel_step m) (List.map MergerRaw.read_keys l) acc.
Proof.
  revert acc. induction l as [|rel l IH]; intros acc; [reflexivity|].
  cbn [List.map fold_left]. now rewrite IH.
Qed.

Lemma chunk_step_forget (st : merge_state) (c : MergerRaw.raw_chunk) :
  MergerRaw.chunk_step st c = chunk_step st (MergerRaw.forget c).
Proof.
  unfold MergerRaw.chunk_step, chunk_step. rewrite truthy_forget.
  destruct (MergerRaw.truthy c); [|reflexivity].
  destruct c as [g|]; [|reflexivity].
  cbn [negb MergerRaw.forget option_map MergerRaw.forget_graph nodes relationships].
  now rewrite get_list_option_map, fold_rel_step_forget.
Qed.

(** The properties of the entries have no part in the result. *)
Lemma merge_graphs_forget (gs : list MergerRaw.raw_chunk) :
  MergerRaw.merge_graphs gs = merge_graphs (List.map MergerRaw.forget gs).
Proof.
  unfold MergerRaw.merge_graphs, merge_graphs.
  generalize {| combined_nodes := []; combined_relationships := [] |}.
  induction gs as [|c gs IH]; intros st; [reflexivity|].
  cbn [List.map fold_left]. rewrite chunk_step_forget. apply IH.
Qed.

Lemma chunk_entries_forget (c : MergerRaw.raw_chunk) :
  List.map fst (MergerRaw.chunk_entries c) = chunk_rewritten (MergerRaw.forget c).
Proof.
  destruct c as [g|]; [|reflexivity].
  cbn [MergerRaw.chunk_entries MergerRaw.forget option_map chunk_rewritten].
  change (relationships (MergerRaw.forget_graph g))
    with (option_map (List.map MergerRaw.read_keys) (MergerRaw.raw_relationships g)).
  rewrite get_list_option_map, !map_map. reflexivity.
Qed.

Lemma rewritten_entries_forget (gs : list MergerRaw.raw_chunk) :
  List.map fst (MergerRaw.rewritten_entries gs) = rewritten (List.map MergerRaw.forget gs).
Proof.
  unfold MergerRaw.rewritten_entries, rewritten.
  induction gs as [|c gs IH]; [reflexivity|].
  cbn [flat_map List.map]. now rewrite map_app, chunk_entries_forget, IH.
Qed.

Lemma as_dict_keys (r : relationship) (k : string) :
  is_Some (MergerRaw.as_dict r !! k)
  <-> k = "type" \/ k = "start_node_id" \/ k = "end_node_id".
Proof.
  unfold MergerRaw.as_dict. rewrite !lookup_insert_is_Some, lookup_empty, is_Some_alt.
  split.
  - intros [H|[_ [H|[_ [H|[_ []]]]]]]; auto.
  - intros [-> | [-> | ->]]; [now left|right|right].
    + split; [discriminate|]. now left.
    + split; [discriminate|]. right. split; [discriminate|]. now left.
Qed.

(** C2, as stated, fails: a property of the first occurrence is not in the
    output, whose dictionaries are built anew with three keys. *)
Lemma C2_properties_dropped_counterexample :
  ~ (forall gs, MergerRaw.keeps_first_properties gs).
Proof.
  intros H.
  specialize (H [MergerRaw.rated]
                (Relationship "HAS_RATING" "Company_acme" "Rating_a") []
                (Relationship "HAS_RATING" "Company_acme" "Rating_a",
                 {["source" := PyStr "report"]}) []).
  assert (Hin : In (Relationship "HAS_RATING" "Company_acme" "Rating_a")
                   (get_list (relationships (MergerRaw.merge_graphs [MergerRaw.rated]))))
    by (vm_compute; now left).
  assert (Hrw : MergerRaw.rewritten_entries [MergerRaw.rated]
                = [] ++ (Relationship "HAS_RATING" "Company_acme" "Rating_a",
                         {["source" := PyStr "report"]}) :: [])
    by (vm_compute; reflexivity).
  specialize (H Hin Hrw eq_refl (fun F => F) "source" (PyStr "report")).
  cbn [snd] in H. rewrite lookup_singleton in H. specialize (H eq_refl).
  assert (Hk : is_Some (MergerRaw.as_dict
                          (Relationship "HAS_RATING" "Company_acme" "Rating_a") !! "source"))
    by (rewrite H; eauto).
  apply as_dict_keys in Hk. destruct Hk as [Hk|[Hk|Hk]]; discriminate.
Qed.

(** C2 (amended): the consolidated relationships are the rewritten
    relationships with every repeated (type, start, end) triple dropped after
    its first occurrence: no triple occurs twice, every rewritten triple is
    there exactly once, and a relationship first met after the prefix [p]
    comes right after the deduplicated [p].  A relationship of the output
    has the keys [type], [start_node_id] and [end_node_id] and no other: the
    properties of the input entries, first occurrence or not, are dropped,
    and the output is what it would be if the entries had none. *)
Theorem C2_merge_relationships_dedup (gs : list MergerRaw.raw_chunk) :
  let out := get_list (relationships (MergerRaw.merge_graphs gs)) in
  let rw := List.map fst (MergerRaw.rewritten_entries gs) in
  out = keep_first rw
  /\ List.NoDup (List.map rel_tuple out)
  /\ (forall r, In r out <-> In r rw)
  /\ (forall r, In r rw -> rels_with_triple r (MergerRaw.merge_graphs gs) = [r])
  /\ (forall p r s, rw = p ++ r :: s -> ~ In r p ->
                    exists t, out = unique p ++ r :: t)
  /\ (forall r k, In r out ->
                  (is_Some (MergerRaw.as_dict r !! k)
                   <-> k = "type" \/ k = "start_node_id" \/ k = "end_node_id"))
  /\ MergerRaw.merge_graphs gs = merge_graphs (List.map MergerRaw.forget gs).
Proof.
  intros out rw. unfold out, rw.
  rewrite rewritten_entries_forget, merge_graphs_forget.
  destruct (relationships_keep_first (List.map MergerRaw.forget gs))
    as (H1 & H2 & H3 & H4 & H5).
  repeat split; try assumption; try apply H3.
  - now apply as_dict_keys.
  - now apply as_dict_keys.
Qed.

End MergerRawFacts.

(** ** The batch loop *)

Module PipelineFacts.
Import PyStr PyStrFacts Normalizer Merger Pipeline.

(** *** range *)

Lemma range_from_In (fuel i stop step x : nat) :
  0 < step -> stop - i <= fuel ->
  In x (range_from fuel i stop step) <-> x < stop /\ exists j, x = i + j * step.
Proof.
  intros Hstep. revert i. induction fuel as [|fuel IH]; intros i Hfuel; simpl.
  - split; [tauto|]. intros [Hx [j ->]]. lia.
  - destruct (Nat.ltb i stop) eqn:Hlt.
    + apply Nat.ltb_lt in Hlt. simpl. rewrite IH by lia. split.
      * intros [<-|[Hx [j ->]]]; [split; [assumption|exists 0; lia]|].
        split; [assumption|]. exists (S j). lia.
      * intros [Hx [[|j] ->]]; [left; lia|]. right. split; [assumption|].
        exists j. lia.
    + apply Nat.ltb_ge in Hlt. simpl. split; [tauto|]. intros [Hx [j ->]]. lia.
Qed.

Lemma range_from_hd (fuel i stop step : nat) :
  i < stop -> 0 < fuel -> hd_error (range_from fuel i stop step) = Some i.
Proof.
  intros Hlt Hfuel. destruct fuel as [|fuel]; [lia|]. simpl.
  apply Nat.ltb_lt in Hlt. now rewrite Hlt.
Qed.

(** *** The log *)

Section Loop.
Variable invoke : string -> option graph.
Variable write : nat -> write_outcome.
Variable df : dataframe.
Variable b : nat.

Lemma batch_step_submitted (st : state) (i : nat) :
  submitted (log (batch_step invoke write df b st i)) = submitted (log st) ++ [i].
Proof.
  unfold batch_step. destruct (invoke _); [destruct (write i)|]; cbn [log];
    unfold submitted; now rewrite omap_app.
Qed.

Lemma fold_batch_step_submitted (l : list nat) (st : state) :
  submitted (log (fold_left (batch_step invoke write df b) l st)) = submitted (log st) ++ l.
Proof.
  revert st. induction l as [|i l IH]; intros st; simpl.
  - now rewrite app_nil_r.
  - rewrite IH, batch_step_submitted. now rewrite <- app_assoc.
Qed.

End Loop.

(** *** Resuming and checkpointing *)

Example main_sample :
  exists st final_graph,
    main sample_invoke always_written sample_df 2 (Holds [Some empty_graph])
    = Finished st final_graph
    /\ submitted (log st) = [2; 4]
    /\ all_raw_graphs st = [Some empty_graph; Some empty_graph]
    /\ checkpoint_file st = Holds [Some empty_graph; Some empty_graph].
Proof. eexists. eexists. vm_compute. repeat split. Qed.

Example main_sample_failed_write :
  exists st final_graph,
    main sample_invoke sample_write sample_df 2 (Holds [Some empty_graph])
    = Finished st final_graph
    /\ submitted (log st) = [2; 4]
    /\ all_raw_graphs st = [Some empty_graph; Some empty_graph]
    /\ checkpoint_file st = Damaged.
Proof. eexists. eexists. vm_compute. repeat split. Qed.

(** C3, as stated, fails: a batch whose answer arrived but whose checkpoint
    write raised ends in the [except] branch like any failed batch, yet its
    partial graph is in the list by then, and the file is no longer what it
    was.  Here the batch at row 4 of a first run: the list goes from empty to
    one partial graph, the file from absent to unreadable. *)
Lemma C3_failed_write_counterexample :
  ~ (forall invoke write df b st i,
        let after := batch_step invoke write df b st i in
        failed st after i ->
        all_raw_graphs after = all_raw_graphs st
        \/ checkpoint_file after = checkpoint_file st).
Proof.
  intros H.
  specialize (H sample_invoke sample_write sample_df 2 (initial Absent) 4).
  cbn zeta in H.
  assert (Hf : failed (initial Absent)
                      (batch_step sample_invoke sample_write sample_df 2 (initial Absent) 4) 4).
  { eexists. vm_compute. reflexivity. }
  destruct (H Hf) as [Hl|Hc]; vm_compute in Hl || vm_compute in Hc; discriminate.
Qed.

(** C3 (amended): with a checkpoint of [k] partial graphs and a batch size
    [b], the loop visits the row indices [k*b], [k*b + b], ... below the
    number of rows, whatever the batches do, so the first one it processes is
    [k*b].  A batch that succeeds appends its partial graph and writes the
    whole list to the checkpoint before the next batch is submitted.  A batch
    whose extraction call fails leaves the list and the file as they were.  A
    batch whose answer arrives but whose checkpoint write fails keeps its
    partial graph in the list, so that the next successful write persists
    it; the file is as it was when [open] raised, and as the interrupted dump
    left it otherwise.  In every case the loop goes on with the next batch. *)
Theorem C3_resume_and_checkpoint
        (invoke : string -> option graph) (write : nat -> write_outcome)
        (df : dataframe) (b : nat) (graphs : list chunk) :
  0 < b -> df <> [] ->
  exists indices st final_graph,
    main invoke write df b (Holds graphs) = Finished st final_graph
    /\ py_range (length graphs * b) (length df) b = Some indices
    /\ st = fold_left (batch_step invoke write df b) indices (initial (Holds graphs))
    /\ final_graph = merge_graphs (all_raw_graphs st)
    /\ submitted (log st) = indices
    /\ (length graphs * b < length df -> hd_error indices = Some (length graphs * b))
    /\ (forall x, In x indices <->
                  x < length df /\ exists j, x = length graphs * b + j * b)
    /\ (forall pre i post,
          indices = pre ++ i :: post ->
          let before :=
            fold_left (batch_step invoke write df b) pre (initial (Holds graphs)) in
          let after := batch_step invoke write df b before i in
          let text := batch_text (iloc df i (i + b)) in
          st = fold_left (batch_step invoke write df b) post after
          /\ match invoke text, write i with
             | Some response, Written =>
                 all_raw_graphs after = all_raw_graphs before ++ [Some response]
                 /\ checkpoint_file after = Holds (all_raw_graphs after)
                 /\ log after
                    = log before ++ [Submitted i text; Persisted (all_raw_graphs after)]
             | Some response, OpenRaised =>
                 all_raw_graphs after = all_raw_graphs before ++ [Some response]
                 /\ checkpoint_file after = checkpoint_file before
                 /\ log after = log before ++ [Submitted i text; Failed i]
             | Some response, DumpRaised leaves =>
                 all_raw_graphs after = all_raw_graphs before ++ [Some response]
                 /\ checkpoint_file after = leaves
                 /\ log after = log before ++ [Submitted i text; Failed i]
             | None, _ =>
                 all_raw_graphs after = all_raw_graphs before
                 /\ checkpoint_file after = checkpoint_file before
                 /\ log after = log before ++ [Submitted i text; Failed i]
             end).
Proof.
  intros Hb Hdf.
  assert (Hstep : Nat.eqb b 0 = false) by (apply Nat.eqb_neq; lia).
  exists (range_from (length df - length graphs * b) (length graphs * b) (length df) b).
  eexists. eexists.
  split.
  { unfold main. destruct df as [|r0 df']; [contradiction|].
    unfold py_range. rewrite Hstep. reflexivity. }
  split; [unfold py_range; now rewrite Hstep|].
  split; [reflexivity|]. split; [reflexivity|].
  split; [now rewrite fold_batch_step_submitted|].
  split; [intros Hlt; apply range_from_hd; lia|].
  split; [intros x; apply range_from_In; lia|].
  intros pre i post Hsplit before after text.
  split.
  - rewrite Hsplit, fold_left_app. reflexivity.
  - unfold after, batch_step. fold text.
    destruct (invoke text); [destruct (write i)|]; cbn; repeat split.
Qed.

Lemma C3_resume_and_checkpoint_witness :
  0 < 2 /\ sample_df <> []
  /\ exists indices st final_graph,
      main sample_invoke sample_write sample_df 2 (Holds [Some empty_graph])
      = Finished st final_graph
      /\ py_range (length [Some empty_graph] * 2) (length sample_df) 2 = Some indices
      /\ st = fold_left (batch_step sample_invoke sample_write sample_df 2) indices
                        (initial (Holds [Some empty_graph]))
      /\ final_graph = merge_graphs (all_raw_graphs st)
      /\ submitted (log st) = indices
      /\ (length [Some empty_graph] * 2 < length sample_df ->
          hd_error indices = Some (length [Some empty_graph] * 2)).
Proof.
  split; [lia|]. split; [discriminate|].
  destruct (C3_resume_and_checkpoint sample_invoke sample_write sample_df 2
                                     [Some empty_graph])
    as (indices & st & fg & H1 & H2 & H3 & H4 & H5 & H6 & _);
    [lia|discriminate|].
  exists indices, st, fg. repeat split; assumption.
Defined.

(** *** Serialising a batch *)

Lemma lines_from_segment (a cur r : list ascii) :
  ~ In LF a ->
  lines_from cur (a ++ LF :: r) = str (rev cur ++ a) :: lines_from [] r.
Proof.
  revert cur. induction a as [|c a IH]; intros cur Ha.
  - cbn [app lines_from]. rewrite Ascii.eqb_refl. now rewrite app_nil_r.
  - cbn [app lines_from]. destruct (Ascii.eqb c LF) eqn:E.
    + apply Ascii.eqb_eq in E. exfalso. apply Ha. now left.
    + rewrite IH by (intros H; apply Ha; now right).
      cbn [rev]. now rewrite <- app_assoc.
Qed.

Lemma no_LF_append (a b : string) : no_LF a -> no_LF b -> no_LF (a ++ b)%string.
Proof.
  unfold no_LF. rewrite chars_append, in_app_iff. tauto.
Qed.

Lemma no_LF_uint (d : Decimal.uint) : no_LF (NilEmpty.string_of_uint d).
Proof.
  unfold no_LF, chars.
  induction d; simpl; try tauto; intros [H|H]; try discriminate; tauto.
Qed.

Lemma no_LF_join (parts : list string) :
  Forall no_LF parts -> no_LF (join " / " parts).
Proof.
  induction parts as [|p1 parts IH]; intros Hall.
  - unfold no_LF. simpl. tauto.
  - apply Forall_cons in Hall as [Hp Hall].
    destruct parts as [|p2 parts]; [assumption|].
    change (join " / " (p1 :: p2 :: parts))
      with (p1 ++ " / " ++ join " / " (p2 :: parts))%string.
    apply no_LF_append; [assumption|]. apply no_LF_append; [|now apply IH].
    unfold no_LF. simpl. intros [H|[H|[H|[]]]]; discriminate.
Qed.

Lemma row_text_present (r : row) :
  row_text r
  = join " / " (List.map (fun cv => (fst cv ++ ": " ++ snd cv)%string) (present_cells r)).
Proof.
  unfold row_text, present_cells. f_equal.
  induction r as [|[col [val|]] r IH]; cbn; [reflexivity| |assumption].
  now rewrite IH.
Qed.

Lemma present_cells_In (r : row) (col val : string) :
  In (col, val) (present_cells r) <-> In (col, Some val) r.
Proof.
  unfold present_cells. induction r as [|[c [v|]] r IH]; cbn.
  - tauto.
  - rewrite IH. split.
    + intros [[= -> ->]|H]; [now left|now right].
    + intros [[= -> ->]|H]; [now left|now right].
  - rewrite IH. split; [now right|]. intros [H|H]; [discriminate|assumption].
Qed.

Lemma no_LF_row_text (r : row) : clean_row r -> no_LF (row_text r).
Proof.
  intros Hr. rewrite row_text_present. apply no_LF_join.
  apply Forall_forall. intros t Ht. apply list_elem_of_In, in_map_iff in Ht.
  destruct Ht as ([col val] & <- & Hin). apply present_cells_In in Hin.
  destruct (Hr col val Hin) as [Hc Hv]. cbn [fst snd].
  apply no_LF_append; [assumption|]. apply no_LF_append; [|assumption].
  unfold no_LF. simpl. intros [H|[H|[]]]; discriminate.
Qed.

Lemma no_LF_header (n : nat) : no_LF ("[Row " ++ str_of_nat n ++ "]")%string.
Proof.
  apply no_LF_append; [|apply no_LF_append].
  - unfold no_LF. simpl. intros [H|[H|[H|[H|[H|[]]]]]]; discriminate.
  - apply no_LF_uint.
  - unfold no_LF. simpl. intros [H|[]]; discriminate.
Qed.

Lemma batch_text_fold (rows : list (nat * row)) (acc : string) :
  chars (fold_left row_step rows acc)
  = chars acc ++ flat_map (fun ir => chars (row_block ir)) rows.
Proof.
  revert acc. induction rows as [|ir rows IH]; intros acc; cbn [fold_left flat_map].
  - now rewrite app_nil_r.
  - rewrite IH. change (row_step acc ir) with (acc ++ row_block ir)%string.
    now rewrite chars_append, <- app_assoc.
Qed.

Lemma lines_row_block (ir : nat * row) (rest : list ascii) :
  clean_row (snd ir) ->
  lines_from [] (chars (row_block ir) ++ rest) = row_lines ir ++ lines_from [] rest.
Proof.
  intros Hr. unfold row_block, row_lines.
  set (header := ("[Row " ++ str_of_nat (fst ir + 1) ++ "]")%string).
  change ("[Row " ++ str_of_nat (fst ir + 1) ++ "]" ++ nl ++ row_text (snd ir) ++ nl ++ nl)%string
    with ("[Row " ++ (str_of_nat (fst ir + 1) ++ ("]" ++ (nl ++ (row_text (snd ir) ++ (nl ++ nl))))))%string.
  assert (Hsplit : chars ("[Row " ++ (str_of_nat (fst ir + 1)
                           ++ ("]" ++ (nl ++ (row_text (snd ir) ++ (nl ++ nl))))))%string
                   = chars header ++ LF :: (chars (row_text (snd ir)) ++ LF :: [LF])).
  { unfold header. rewrite !chars_append. rewrite <- !app_assoc. reflexivity. }
  rewrite Hsplit. rewrite <- app_assoc. cbn [app].
  rewrite lines_from_segment by apply no_LF_header.
  rewrite <- app_assoc. cbn [app].
  rewrite lines_from_segment by now apply no_LF_row_text.
  cbn [lines_from]. rewrite Ascii.eqb_refl.
  cbn [rev app]. now rewrite !str_chars.
Qed.

Lemma lines_batch_text (rows : list (nat * row)) :
  Forall (fun ir => clean_row (snd ir)) rows ->
  lines (batch_text rows) = flat_map row_lines rows ++ [""].
Proof.
  intros Hall. unfold lines, batch_text. rewrite batch_text_fold. cbn [chars list_ascii_of_string app].
  induction rows as [|ir rows IH]; [reflexivity|].
  apply Forall_cons in Hall as [Hr Hall].
  cbn [flat_map]. rewrite lines_row_block by assumption.
  rewrite IH by assumption. now rewrite <- app_assoc.
Qed.

(** *** Counting line feeds *)

Lemma lf_count_append (a b : string) : lf_count (a ++ b)%string = lf_count a + lf_count b.
Proof. unfold lf_count. now rewrite chars_append, count_occ_app. Qed.

Lemma lf_count_no_LF (s : string) : no_LF s -> lf_count s = 0.
Proof. unfold no_LF, lf_count. apply count_occ_not_In. Qed.

Lemma lf_count_nl : lf_count nl = 1.
Proof. reflexivity. Qed.

Lemma lf_count_join (parts : list string) :
  lf_count (join " / " parts) = list_sum (List.map lf_count parts).
Proof.
  induction parts as [|p1 parts IH]; [reflexivity|].
  destruct parts as [|p2 parts].
  - unfold list_sum. cbn [join List.map fold_right]. lia.
  - change (join " / " (p1 :: p2 :: parts))
      with (p1 ++ " / " ++ join " / " (p2 :: parts))%string.
    rewrite !lf_count_append, IH. unfold list_sum. cbn [List.map fold_right].
    change (lf_count " / ") with 0. lia.
Qed.

Lemma lf_count_row_text (r : row) : lf_count (row_text r) = cells_lf r.
Proof.
  rewrite row_text_present, lf_count_join. unfold cells_lf. rewrite map_map.
  f_equal. apply map_ext. intros [col val]. cbn [fst snd].
  rewrite !lf_count_append. change (lf_count ": ") with 0. lia.
Qed.

Lemma lf_count_row_block (ir : nat * row) : lf_count (row_block ir) = 3 + cells_lf (snd ir).
Proof.
  unfold row_block.
  rewrite !lf_count_append, lf_count_nl, lf_count_row_text.
  change (lf_count "[Row ") with 0. change (lf_count "]") with 0.
  rewrite (lf_count_no_LF (str_of_nat (fst ir + 1))) by apply no_LF_uint. lia.
Qed.

Lemma lf_count_batch_text (rows : list (nat * row)) :
  lf_count (batch_text rows)
  = 3 * length rows + list_sum (List.map (fun ir => cells_lf (snd ir)) rows).
Proof.
  unfold lf_count at 1, batch_text. rewrite batch_text_fold.
  cbn [chars list_ascii_of_string app].
  induction rows as [|ir rows IH]; [reflexivity|].
  cbn [flat_map List.map length]. rewrite count_occ_app, IH.
  fold (lf_count (row_block ir)). rewrite lf_count_row_block.
  unfold list_sum. cbn [fold_right]. lia.
Qed.

Example lines_sample_batch :
  lines (batch_text sample_batch)
  = ["[Row 1]"; "Company: Acme / Rating: A / Theme: Water"; ""; ""].
Proof. vm_compute. reflexivity. Qed.

(** C9, as stated, fails: the cells of a row share one line. *)
Lemma C9_one_line_per_cell_counterexample :
  ~ (forall batch_df, one_line_per_cell batch_df).
Proof.
  intros H.
  specialize (H sample_batch 0
                [("Company", Some "Acme"); ("Rating", Some "A"); ("Pillar", None);
                 ("Theme", Some "Water")]
                "Company" "Acme").
  assert (Hin : In ("Company", Some "Acme")
                   [("Company", Some "Acme"); ("Rating", Some "A"); ("Pillar", None);
                    ("Theme", Some "Water")]) by now left.
  specialize (H (or_introl eq_refl) Hin).
  rewrite lines_sample_batch in H. simpl in H.
  destruct H as [H|[H|[H|[H|[]]]]]; discriminate.
Qed.

(** C9 (amended): the text submitted for a batch is the concatenation, row
    after row, of a header [[Row n]], a line feed, the [col: val] texts of the
    row's non-missing cells joined by [" / "], and two line feeds; a missing
    cell adds nothing.  The loop puts no line feed between the cells of a
    row: the line feeds of the text are three per row and those the column
    names and cell values have of their own.  So when these have none, each
    row is three lines: header, all its cells, empty line. *)
Theorem C9_batch_serialization (batch_df : list (nat * row)) :
  chars (batch_text batch_df) = flat_map (fun ir => chars (row_block ir)) batch_df
  /\ (forall ir,
        row_block ir
        = ("[Row " ++ str_of_nat (fst ir + 1) ++ "]" ++ nl
           ++ join " / " (List.map (fun cv => (fst cv ++ ": " ++ snd cv)%string)
                                   (present_cells (snd ir)))
           ++ nl ++ nl)%string)
  /\ lf_count (batch_text batch_df)
     = 3 * length batch_df + list_sum (List.map (fun ir => cells_lf (snd ir)) batch_df)
  /\ (Forall (fun ir => clean_row (snd ir)) batch_df ->
      lines (batch_text batch_df) = flat_map row_lines batch_df ++ [""])
  /\ (forall invoke write df b st i,
        batch_df = iloc df i (i + b) ->
        exists ev,
          log (batch_step invoke write df b st i)
          = log st ++ [Submitted i (batch_text batch_df); ev]).
Proof.
  split; [|split; [|split; [|split]]].
  - unfold batch_text. now rewrite batch_text_fold.
  - intros ir. unfold row_block. now rewrite row_text_present.
  - apply lf_count_batch_text.
  - apply lines_batch_text.
  - intros invoke write df b st i ->. unfold batch_step.
    destruct (invoke _); [destruct (write i)|]; cbn [log]; eexists; reflexivity.
Qed.

End PipelineFacts.

(** ** generate_answer *)

Module GatewayFacts.
Import PyStr Gateway.

Section Answer.
Variable search : string -> result RetrieverResult.
Variable create : list message -> result ChatCompletion.

Lemma generate_answer_raise (q : string) (e : exn) :
  answer_body search create q = raise e ->
  generate_answer search create q = (Some (error_tag ++ exn_msg e)%string, error_sentinel).
Proof. unfold generate_answer. now intros ->. Qed.

Lemma generate_answer_ret (q : string) (r : option string * string) :
  answer_body search create q = ret r -> generate_answer search create q = r.
Proof. unfold generate_answer. now intros ->. Qed.

End Answer.

(** C8: [generate_answer] returns a pair for every question and every
    behaviour of its two collaborators.  With zero records the answer is
    [None] and the query is the generated one.  Whatever raises inside the
    [try] block (the retriever, the metadata lookup, the chat call, the
    access to the first choice) ends in the tagged message with the query
    ["Error"]. *)
Theorem C8_generate_answer_never_raises
        (search : string -> result RetrieverResult)
        (create : list message -> result ChatCompletion)
        (user_question : string) :
  (exists answer query, generate_answer search create user_question = (answer, query))
  /\ (forall cypher,
        zero_records search user_question cypher ->
        generate_answer search create user_question = (None, cypher))
  /\ (forall e,
        answer_body search create user_question = raise e ->
        generate_answer search create user_question
        = (Some (error_tag ++ exn_msg e)%string, error_sentinel))
  /\ (forall e,
        search user_question = raise e ->
        answer_body search create user_question = raise e)
  /\ (forall res,
        search user_question = ret res -> metadata res = None ->
        answer_body search create user_question = raise AttributeError)
  /\ (forall res md its e,
        search user_question = ret res -> metadata res = Some md ->
        default [] (items res) = its -> its <> [] ->
        create (messages_for user_question its) = raise e ->
        answer_body search create user_question = raise e)
  /\ (forall res md its response,
        search user_question = ret res -> metadata res = Some md ->
        default [] (items res) = its -> its <> [] ->
        create (messages_for user_question its) = ret response ->
        choices response = [] ->
        answer_body search create user_question = raise IndexError)
  /\ (forall res md its response content rest,
        search user_question = ret res -> metadata res = Some md ->
        default [] (items res) = its -> its <> [] ->
        create (messages_for user_question its) = ret response ->
        choices response = content :: rest ->
        generate_answer search create user_question
        = (content, default "" (md !! "cypher"))).
Proof.
  split; [destruct (generate_answer search create user_question) as [a q]; eauto|].
  split.
  { intros cypher (res & md & Hs & Hm & Hc & Hi).
    apply generate_answer_ret. unfold answer_body. rewrite Hs. cbn [bind ret].
    rewrite Hm. cbn [bind ret]. rewrite Hi, Hc. reflexivity. }
  split; [intros e; apply generate_answer_raise|].
  split; [intros e Hs; unfold answer_body; now rewrite Hs|].
  split.
  { intros res Hs Hm. unfold answer_body. rewrite Hs. cbn [bind ret]. now rewrite Hm. }
  split.
  { intros res md its e Hs Hm Hi Hne Hc. unfold answer_body. rewrite Hs. cbn [bind ret].
    rewrite Hm. cbn [bind ret]. rewrite Hi.
    destruct its as [|i0 its]; [contradiction|].
    unfold messages_for in Hc. now rewrite Hc. }
  split.
  { intros res md its response Hs Hm Hi Hne Hc Hch. unfold answer_body.
    rewrite Hs. cbn [bind ret]. rewrite Hm. cbn [bind ret]. rewrite Hi.
    destruct its as [|i0 its]; [contradiction|].
    unfold messages_for in Hc. rewrite Hc. cbn [bind ret]. now rewrite Hch. }
  intros res md its response content rest Hs Hm Hi Hne Hc Hch.
  apply generate_answer_ret. unfold answer_body.
  rewrite Hs. cbn [bind ret]. rewrite Hm. cbn [bind ret]. rewrite Hi.
  destruct its as [|i0 its]; [contradiction|].
  unfold messages_for in Hc. rewrite Hc. cbn [bind ret]. now rewrite Hch.
Qed.

End GatewayFacts.

(** ** The graph loader *)

Module LoaderFacts.
Import PyStr Merger Loader.

Lemma existsb_same {A} (f g : A -> bool) (l : list A) :
  (forall x, f x = g x) -> existsb f l = existsb g l.
Proof. intros H. induction l as [|x l IH]; cbn [existsb]; [reflexivity|]. now rewrite H, IH. Qed.

(** *** Match-or-create followed by update, in general *)

Section UpsertFacts.
Context {X Op : Type}.
Variable matches : Op -> X -> bool.
Variable upd : Op -> X -> X.
Variable fresh : Op -> X.
Variable good : Op -> Prop.

Hypothesis upd_keeps_key :
  forall u v x, good u -> matches v (upd u x) = matches v x.
Hypothesis fresh_matches : forall u, matches u (fresh u) = true.
Hypothesis matches_fresh_same :
  forall u v, matches v (fresh u) = true -> forall x, matches v x = matches u x.
(** A later update by [u] makes an earlier one by [u] redundant. *)
Hypothesis upd_absorbs :
  forall u w x, good u -> Forall good w ->
    upd u (fold_left (fun y v => upd v y) w (upd u x))
    = upd u (fold_left (fun y v => upd v y) w x).

Local Abbreviation A := (apply_op matches upd).
Local Abbreviation T := (touch matches upd).
Local Abbreviation U := (upsert matches upd fresh).

Lemma matches_apply (u v : Op) (x : X) : good u -> matches v (A u x) = matches v x.
Proof.
  intros Hu. unfold apply_op. destruct (matches u x); [now apply upd_keeps_key|reflexivity].
Qed.

Lemma matches_touch (w : list Op) (v : Op) (x : X) :
  Forall good w -> matches v (T w x) = matches v x.
Proof.
  revert x. induction w as [|u w IH]; intros x Hw; [reflexivity|].
  apply Forall_cons in Hw as [Hu Hw]. cbn [touch fold_left].
  fold (touch matches upd w (A u x)). rewrite IH by assumption.
  now apply matches_apply.
Qed.

Lemma matches_fold_upd (w : list Op) (v : Op) (x : X) :
  Forall good w -> matches v (fold_left (fun y u => upd u y) w x) = matches v x.
Proof.
  revert x. induction w as [|u w IH]; intros x Hw; [reflexivity|].
  apply Forall_cons in Hw as [Hu Hw]. cbn [fold_left].
  rewrite IH by assumption. now apply upd_keeps_key.
Qed.

Lemma touch_filter (w : list Op) (x : X) :
  Forall good w ->
  T w x = fold_left (fun y u => upd u y) (List.filter (fun v => matches v x) w) x.
Proof.
  revert x. induction w as [|u w IH]; intros x Hw; [reflexivity|].
  apply Forall_cons in Hw as [Hu Hw]. cbn [touch fold_left List.filter].
  fold (touch matches upd w (A u x)). rewrite IH by assumption.
  unfold apply_op. destruct (matches u x) eqn:E; [|reflexivity].
  cbn [fold_left]. f_equal. apply filter_ext. intros v. now apply upd_keeps_key.
Qed.

Lemma Forall_good_filter (f : Op -> bool) (w : list Op) :
  Forall good w -> Forall good (List.filter f w).
Proof.
  intros Hw. apply Forall_forall. intros v Hv.
  apply list_elem_of_In, filter_In in Hv as [Hv _].
  rewrite Forall_forall in Hw. now apply Hw, list_elem_of_In.
Qed.

Lemma apply_absorbs (u : Op) (w : list Op) (x : X) :
  good u -> Forall good w -> A u (T w (A u x)) = A u (T w x).
Proof.
  intros Hu Hw. unfold apply_op at 2. destruct (matches u x) eqn:E; [|reflexivity].
  unfold apply_op.
  rewrite !matches_touch by assumption.
  rewrite upd_keeps_key by assumption. rewrite E.
  rewrite !touch_filter by assumption.
  rewrite (filter_ext (fun v => matches v (upd u x)) (fun v => matches v x))
    by (intros v; now apply upd_keeps_key).
  apply upd_absorbs; [assumption|]. now apply Forall_good_filter.
Qed.

Lemma touch_no_match (w : list Op) (x : X) :
  (forall v, In v w -> matches v x = false) -> T w x = x.
Proof.
  induction w as [|u w IH]; intros Hw; [reflexivity|].
  cbn [touch fold_left]. unfold apply_op at 2.
  rewrite (Hw u) by now left. apply IH. intros v Hv. apply Hw. now right.
Qed.

Lemma touch_snoc (w : list Op) (u : Op) (x : X) : T (w ++ [u]) x = A u (T w x).
Proof. unfold touch. now rewrite fold_left_app. Qed.

Lemma existsb_map_apply (u v : Op) (l : list X) :
  good u -> existsb (matches v) (List.map (A u) l) = existsb (matches v) l.
Proof.
  intros Hu. induction l as [|x l IH]; [reflexivity|].
  cbn [List.map existsb]. rewrite IH. now rewrite matches_apply.
Qed.

Lemma existsb_upsert (u v : Op) (l : list X) :
  good u -> existsb (matches v) l = true -> existsb (matches v) (U l u) = true.
Proof.
  intros Hu Hv. unfold upsert. rewrite existsb_map_apply by assumption.
  destruct (existsb (matches u) l); [assumption|].
  rewrite existsb_app, Hv. reflexivity.
Qed.

Lemma upsert_covers (u : Op) (l : list X) :
  good u -> existsb (matches u) (U l u) = true.
Proof.
  intros Hu. unfold upsert. rewrite existsb_map_apply by assumption.
  destruct (existsb (matches u) l) eqn:E; [assumption|].
  rewrite existsb_app. cbn [existsb]. rewrite fresh_matches.
  now rewrite orb_true_r.
Qed.

Lemma fold_upsert_keeps (ops : list Op) (v : Op) (l : list X) :
  Forall good ops -> existsb (matches v) l = true ->
  existsb (matches v) (fold_left U ops l) = true.
Proof.
  revert l. induction ops as [|u ops IH]; intros l Hops Hv; [assumption|].
  apply Forall_cons in Hops as [Hu Hops]. cbn [fold_left].
  apply IH; [assumption|]. now apply existsb_upsert.
Qed.

Lemma fold_upsert_covers (ops : list Op) (v : Op) (l : list X) :
  Forall good ops -> In v ops -> existsb (matches v) (fold_left U ops l) = true.
Proof.
  revert l. induction ops as [|u ops IH]; intros l Hops Hv; [destruct Hv|].
  apply Forall_cons in Hops as [Hu Hops]. cbn [fold_left].
  destruct Hv as [->|Hv].
  - apply fold_upsert_keeps; [assumption|]. now apply upsert_covers.
  - now apply IH.
Qed.

Lemma fold_upsert_covered (ops : list Op) (l : list X) :
  Forall good ops ->
  (forall v, In v ops -> existsb (matches v) l = true) ->
  fold_left U ops l = List.map (T ops) l.
Proof.
  revert l. induction ops as [|u ops IH]; intros l Hops Hcov.
  - cbn. now rewrite map_id.
  - apply Forall_cons in Hops as [Hu Hops]. cbn [fold_left].
    unfold upsert at 2. rewrite (Hcov u) by now left.
    rewrite IH; [|assumption|].
    + rewrite map_map. reflexivity.
    + intros v Hv. rewrite existsb_map_apply by assumption. apply Hcov. now right.
Qed.

Lemma fold_upsert_fixed (ops : list Op) (l : list X) (x : X) :
  Forall good ops -> In x (fold_left U ops l) -> T ops x = x.
Proof.
  revert x. induction ops as [|u ops IH] using rev_ind; intros x Hops Hx; [reflexivity|].
  apply Forall_app in Hops as [Hops Hu]. apply Forall_cons in Hu as [Hu _].
  rewrite fold_left_app in Hx. cbn [fold_left] in Hx.
  rewrite touch_snoc.
  pose proof (fun v => fold_upsert_covers ops v l Hops) as Hcov.
  specialize (IH x Hops) as IHx. clear IHx.
  assert (IH' : forall y, In y (fold_left U ops l) -> T ops y = y)
    by (intros y Hy; now apply IH).
  clear IH. revert Hx Hcov IH'. generalize (fold_left U ops l). intros l' Hx Hcov IH.
  unfold upsert in Hx. apply in_map_iff in Hx as (y & <- & Hy).
  rewrite apply_absorbs by assumption. f_equal.
  destruct (existsb (matches u) l') eqn:E.
  - now apply IH.
  - apply in_app_iff in Hy as [Hy|[<-|[]]]; [now apply IH|].
    apply touch_no_match. intros v Hv.
    destruct (matches v (fresh u)) eqn:Ev; [|reflexivity].
    specialize (Hcov v Hv).
    rewrite (existsb_same _ _ l' (matches_fresh_same u v Ev)) in Hcov. congruence.
Qed.

(** Replaying a sequence of upserts changes nothing. *)
Theorem fold_upsert_idempotent (ops : list Op) (l : list X) :
  Forall good ops ->
  fold_left U ops (fold_left U ops l) = fold_left U ops l.
Proof.
  intros Hops.
  rewrite (fold_upsert_covered ops (fold_left U ops l)); [|assumption|].
  - rewrite <- (map_id (fold_left U ops l)) at 2. apply map_ext_in.
    intros x Hx. now apply (fold_upsert_fixed ops l).
  - intros v Hv. now apply fold_upsert_covers.
Qed.

(** An upsert never makes a second element for a key. *)
Lemma filter_map_apply (u v : Op) (l : list X) :
  good u ->
  length (List.filter (matches v) (List.map (A u) l)) = length (List.filter (matches v) l).
Proof.
  intros Hu. induction l as [|x l IH]; [reflexivity|].
  cbn [List.map List.filter]. rewrite matches_apply by assumption.
  destruct (matches v x); cbn [length]; now rewrite IH.
Qed.

Lemma existsb_false_filter (v : Op) (l : list X) :
  existsb (matches v) l = false -> List.filter (matches v) l = [].
Proof.
  induction l as [|x l IH]; [reflexivity|]. cbn [existsb List.filter].
  intros H. apply orb_false_iff in H as [Hx Hl]. rewrite Hx. now apply IH.
Qed.

Lemma upsert_count (u v : Op) (l : list X) :
  good u ->
  length (List.filter (matches v) (U l u))
  <= Nat.max 1 (length (List.filter (matches v) l)).
Proof.
  intros Hu. unfold upsert. rewrite filter_map_apply by assumption.
  destruct (existsb (matches u) l) eqn:E; [lia|].
  rewrite List.filter_app, length_app. cbn [List.filter].
  destruct (matches v (fresh u)) eqn:Ev; cbn [length]; [|lia].
  rewrite (existsb_same _ _ l (fun x => eq_sym (matches_fresh_same u v Ev x))) in E.
  rewrite (existsb_false_filter v l E). cbn [length]. lia.
Qed.

Lemma fold_upsert_count (ops : list Op) (v : Op) (l : list X) :
  Forall good ops ->
  length (List.filter (matches v) (fold_left U ops l))
  <= Nat.max 1 (length (List.filter (matches v) l)).
Proof.
  revert l. induction ops as [|u ops IH]; intros l Hops; [cbn [fold_left]; lia|].
  apply Forall_cons in Hops as [Hu Hops]. cbn [fold_left].
  specialize (IH (U l u) Hops). pose proof (upsert_count u v l Hu). lia.
Qed.

End UpsertFacts.

(** *** Property maps *)

Lemma lookup_set_props (p : gmap string pyval) (m : gmap string string) (k : string) :
  set_props p m !! k
  = match p !! k with
    | Some (PyStr v) => Some v
    | Some PyNone => None
    | None => m !! k
    end.
Proof.
  unfold set_props. rewrite lookup_merge.
  destruct (p !! k) as [[|v]|], (m !! k); reflexivity.
Qed.

(** At each key, a sequence of updates either leaves the stored value alone
    or decides it. *)
Lemma fold_set_props_lookup (ps : list (gmap string pyval)) (k : string) :
  (forall m : gmap string string,
      fold_left (fun m q => set_props q m) ps m !! k = m !! k)
  \/ (exists c, forall m : gmap string string,
         fold_left (fun m q => set_props q m) ps m !! k = c).
Proof.
  induction ps as [|q ps IH]; [now left|].
  cbn [fold_left]. destruct IH as [IH|[c IH]].
  - destruct (q !! k) as [[|v]|] eqn:E.
    + right. exists None. intros m. now rewrite IH, lookup_set_props, E.
    + right. exists (Some v). intros m. now rewrite IH, lookup_set_props, E.
    + left. intros m. now rewrite IH, lookup_set_props, E.
  - right. exists c. intros m. apply IH.
Qed.

Lemma set_props_absorbs (p : gmap string pyval) (ps : list (gmap string pyval))
      (m : gmap string string) :
  set_props p (fold_left (fun m q => set_props q m) ps (set_props p m))
  = set_props p (fold_left (fun m q => set_props q m) ps m).
Proof.
  apply map_eq. intros k. rewrite !lookup_set_props.
  destruct (p !! k) as [[|v]|] eqn:E; try reflexivity.
  destruct (fold_set_props_lookup ps k) as [H|[c H]]; rewrite !H; [|reflexivity].
  now rewrite lookup_set_props, E.
Qed.

(** *** Nodes *)

Lemma node_fold_upd (w : list Neo4jNode) (x : db_node) :
  fold_left (fun y v => node_upd v y) w x
  = {| n_labels := n_labels x;
       n_props := fold_left (fun m q => set_props q m) (List.map nn_properties w) (n_props x) |}.
Proof.
  revert x. induction w as [|u w IH]; intros x; [now destruct x|].
  cbn [fold_left List.map]. now rewrite IH.
Qed.

Lemma node_upd_keeps_key (u v : Neo4jNode) (x : db_node) :
  keeps_id u -> node_matches v (node_upd u x) = node_matches v x.
Proof.
  intros Hu. unfold node_matches, node_upd. cbn [n_labels n_props].
  rewrite lookup_set_props. unfold keeps_id in Hu. now rewrite Hu.
Qed.

Lemma node_fresh_matches (u : Neo4jNode) : node_matches u (node_fresh u) = true.
Proof.
  unfold node_matches, node_fresh. cbn [n_labels n_props].
  rewrite lookup_singleton_eq.
  rewrite (bool_decide_true (nn_label u ∈ ({[nn_label u]} : gset string)))
    by now apply elem_of_singleton.
  now rewrite bool_decide_true.
Qed.

Lemma node_matches_fresh_same (u v : Neo4jNode) :
  node_matches v (node_fresh u) = true ->
  forall x, node_matches v x = node_matches u x.
Proof.
  unfold node_matches, node_fresh. cbn [n_labels n_props].
  rewrite lookup_singleton_eq. intros H x.
  apply andb_true_iff in H as [Hl Hi].
  apply bool_decide_eq_true in Hl. apply bool_decide_eq_true in Hi.
  apply elem_of_singleton in Hl. injection Hi as Hi. now rewrite Hl, Hi.
Qed.

Lemma node_upd_absorbs (u : Neo4jNode) (w : list Neo4jNode) (x : db_node) :
  keeps_id u -> Forall keeps_id w ->
  node_upd u (fold_left (fun y v => node_upd v y) w (node_upd u x))
  = node_upd u (fold_left (fun y v => node_upd v y) w x).
Proof.
  intros _ _. rewrite !node_fold_upd. unfold node_upd. cbn [n_labels n_props].
  now rewrite set_props_absorbs.
Qed.

Lemma merge_nodes_idempotent (ns : list Neo4jNode) (l : list db_node) :
  Forall keeps_id ns ->
  fold_left merge_node ns (fold_left merge_node ns l) = fold_left merge_node ns l.
Proof.
  apply (fold_upsert_idempotent node_matches node_upd node_fresh keeps_id).
  - exact node_upd_keeps_key.
  - exact node_fresh_matches.
  - exact node_matches_fresh_same.
  - exact node_upd_absorbs.
Qed.

(** *** Edges *)

Lemma edge_fold_upd (w : list edge_op) (e : db_rel) :
  fold_left (fun y v => edge_upd v y) w e
  = {| r_start := r_start e; r_type := r_type e; r_end := r_end e;
       r_props := fold_left (fun m q => set_props q m) (List.map snd w) (r_props e) |}.
Proof.
  revert e. induction w as [|[[[a t] b] p] w IH]; intros e; [now destruct e|].
  cbn [fold_left List.map]. now rewrite IH.
Qed.

Lemma edge_upd_keeps_key (u v : edge_op) (e : db_rel) :
  True -> edge_matches v (edge_upd u e) = edge_matches v e.
Proof. intros _. now destruct u as [[[a t] b] p], v as [[[a' t'] b'] p']. Qed.

Lemma edge_fresh_matches (u : edge_op) : edge_matches u (edge_fresh u) = true.
Proof.
  destruct u as [[[a t] b] p]. unfold edge_matches, edge_fresh.
  cbn [r_start r_type r_end]. now rewrite !bool_decide_true.
Qed.

Lemma edge_matches_fresh_same (u v : edge_op) :
  edge_matches v (edge_fresh u) = true ->
  forall e, edge_matches v e = edge_matches u e.
Proof.
  destruct u as [[[a t] b] p], v as [[[a' t'] b'] p'].
  unfold edge_matches, edge_fresh. cbn [r_start r_type r_end]. intros H e.
  apply andb_true_iff in H as [H Hb]. apply andb_true_iff in H as [Ha Ht].
  apply bool_decide_eq_true in Ha. apply bool_decide_eq_true in Ht.
  apply bool_decide_eq_true in Hb. now subst.
Qed.

Lemma edge_upd_absorbs (u : edge_op) (w : list edge_op) (e : db_rel) :
  True -> Forall (fun _ => True) w ->
  edge_upd u (fold_left (fun y v => edge_upd v y) w (edge_upd u e))
  = edge_upd u (fold_left (fun y v => edge_upd v y) w e).
Proof.
  intros _ _. rewrite !edge_fold_upd. destruct u as [[[a t] b] p].
  unfold edge_upd. cbn [r_start r_type r_end r_props].
  now rewrite set_props_absorbs.
Qed.

Lemma merge_edges_idempotent (ops : list edge_op) (l : list db_rel) :
  fold_left (upsert edge_matches edge_upd edge_fresh) ops
            (fold_left (upsert edge_matches edge_upd edge_fresh) ops l)
  = fold_left (upsert edge_matches edge_upd edge_fresh) ops l.
Proof.
  apply (fold_upsert_idempotent edge_matches edge_upd edge_fresh (fun _ => True)).
  - exact edge_upd_keeps_key.
  - exact edge_fresh_matches.
  - exact edge_matches_fresh_same.
  - exact edge_upd_absorbs.
  - apply Forall_forall. intros; exact I.
Qed.

(** *** The writer *)

Lemma prepare_fold (ls : list string) (s : store) :
  fold_left (fun s label =>
               {| constraints := {[label]} ∪ constraints s;
                  db_nodes := db_nodes s; db_rels := db_rels s |}) ls s
  = {| constraints := list_to_set ls ∪ constraints s;
       db_nodes := db_nodes s; db_rels := db_rels s |}.
Proof.
  revert s. induction ls as [|l ls IH]; intros s.
  - cbn [fold_left list_to_set]. destruct s as [c n r]. cbn [constraints db_nodes db_rels].
    f_equal. now rewrite (left_id_L ∅ (∪)).
  - cbn [fold_left list_to_set]. rewrite IH. cbn [constraints db_nodes db_rels].
    f_equal. rewrite (assoc_L (∪)). f_equal. apply (comm_L (∪)).
Qed.

Lemma nodes_fold (ns : list Neo4jNode) (s : store) :
  fold_left (fun s node =>
               {| constraints := constraints s;
                  db_nodes := merge_node (db_nodes s) node;
                  db_rels := db_rels s |}) ns s
  = {| constraints := constraints s;
       db_nodes := fold_left merge_node ns (db_nodes s);
       db_rels := db_rels s |}.
Proof.
  revert s. induction ns as [|n ns IH]; intros s; [now destruct s|].
  cbn [fold_left]. now rewrite IH.
Qed.

Lemma rels_fold (rs : list Neo4jRelationship) (s : store) :
  fold_left (fun s rel =>
               {| constraints := constraints s;
                  db_nodes := db_nodes s;
                  db_rels := merge_rel (db_nodes s) (db_rels s) rel |}) rs s
  = {| constraints := constraints s;
       db_nodes := db_nodes s;
       db_rels := fold_left (upsert edge_matches edge_upd edge_fresh)
                            (flat_map (rel_rows (db_nodes s)) rs) (db_rels s) |}.
Proof.
  revert s. induction rs as [|r rs IH]; intros s; [now destruct s|].
  cbn [fold_left flat_map]. rewrite IH. cbn [constraints db_nodes db_rels].
  unfold merge_rel. now rewrite fold_left_app.
Qed.

Lemma run_store (g : Neo4jGraph) (s : store) :
  snd (run g s)
  = {| constraints := list_to_set labels ∪ constraints s;
       db_nodes := fold_left merge_node (gr_nodes g) (db_nodes s);
       db_rels := fold_left (upsert edge_matches edge_upd edge_fresh)
                    (flat_map (rel_rows (fold_left merge_node (gr_nodes g) (db_nodes s)))
                              (gr_relationships g))
                    (db_rels s) |}.
Proof.
  unfold run, _prepare_db. cbn [snd].
  rewrite prepare_fold, nodes_fold, rels_fold. reflexivity.
Qed.

(** Running the writer again on the store it has left changes nothing, for
    any graph whose node properties do not name ["id"]. *)
Theorem run_idempotent (g : Neo4jGraph) (s : store) :
  Forall keeps_id (gr_nodes g) ->
  snd (run g (snd (run g s))) = snd (run g s).
Proof.
  intros Hg. rewrite (run_store g (snd (run g s))). rewrite !run_store.
  cbn [constraints db_nodes db_rels].
  rewrite merge_nodes_idempotent by assumption.
  rewrite merge_edges_idempotent. f_equal.
  rewrite (assoc_L (∪)). now rewrite union_idemp_L.
Qed.

Lemma to_neo4j_keeps_id (data : graph) : Forall keeps_id (gr_nodes (to_neo4j_graph data)).
Proof.
  unfold to_neo4j_graph. cbn [gr_nodes]. apply Forall_forall. intros n Hn.
  apply list_elem_of_In, in_map_iff in Hn as (x & <- & _).
  unfold keeps_id, to_neo4j_node. cbn [nn_properties].
  now apply lookup_singleton_ne.
Qed.

Lemma count_nodes_matches (label id : string) (s : store) :
  count_nodes label id s
  = length (List.filter (node_matches (MkNeo4jNode id label ∅)) (db_nodes s)).
Proof. reflexivity. Qed.

Example load_merged_batches :
  let s := snd (load (merge_graphs [batch_one; batch_two]) (Store ∅ [] [])) in
  List.map (fun x => elements (n_labels x)) (db_nodes s) = [["Company"]; ["Rating"]]
  /\ List.map (fun e => (r_start e, r_type e, r_end e)) (db_rels s) = [(0, "HAS_RATING", 1)].
Proof. vm_compute. split; reflexivity. Qed.


End LoaderFacts.

(** ** normalize_id: what it ignores *)

Module NormalizerMore.
Import PyStr PyStrFacts Normalizer.

Lemma keep_isspace (c : ascii) : isspace c = true -> keep c = true.
Proof. unfold keep. intros ->. apply orb_true_r. Qed.

(** A character outside [\w] and [\s] can be put anywhere in the name without
    changing the id. *)
Theorem normalize_id_ignores_punctuation (label : string) (l1 l2 : list ascii) (c : ascii) :
  keep c = false ->
  normalize_id label (PyStr (str (l1 ++ c :: l2)))
  = normalize_id label (PyStr (str (l1 ++ l2))).
Proof.
  intros Hc. unfold normalize_id, clean_name. cbn [isna]. rewrite !chars_str.
  unfold re_sub_nonword. rewrite !List.filter_app. cbn [List.filter]. now rewrite Hc.
Qed.

Lemma normalize_id_ignores_punctuation_witness :
  keep "."%char = false
  /\ normalize_id "Company" (PyStr "NetApp, Inc.") = normalize_id "Company" (PyStr "NetApp, Inc").
Proof.
  split; [reflexivity|].
  exact (normalize_id_ignores_punctuation
           "Company" (chars "NetApp, Inc") [] "."%char eq_refl).
Defined.

(** *** Trimming *)

Lemma lstrip_app (a b : list ascii) :
  lstrip (a ++ b) = match lstrip a with [] => lstrip b | _ :: _ => lstrip a ++ b end.
Proof.
  induction a as [|c a IH]; [reflexivity|].
  cbn [app lstrip]. destruct (isspace c); [assumption|reflexivity].
Qed.

Lemma lstrip_spaces (ws : list ascii) :
  Forall (fun c => isspace c = true) ws -> lstrip ws = [].
Proof.
  induction 1 as [|c ws Hc _ IH]; [reflexivity|]. cbn [lstrip]. now rewrite Hc.
Qed.

Lemma lstrip_spaces_app (ws l : list ascii) :
  Forall (fun c => isspace c = true) ws -> lstrip (ws ++ l) = lstrip l.
Proof. intros H. rewrite lstrip_app. now rewrite lstrip_spaces. Qed.

Lemma rstrip_app_spaces (l ws : list ascii) :
  Forall (fun c => isspace c = true) ws -> rstrip (l ++ ws) = rstrip l.
Proof.
  intros H. unfold rstrip. rewrite rev_app_distr, lstrip_spaces_app; [reflexivity|].
  now apply Forall_rev.
Qed.

Lemma strip_surrounded (ws1 l ws2 : list ascii) :
  Forall (fun c => isspace c = true) ws1 ->
  Forall (fun c => isspace c = true) ws2 ->
  strip (ws1 ++ l ++ ws2) = strip l.
Proof.
  intros H1 H2. unfold strip. rewrite lstrip_spaces_app by assumption.
  rewrite lstrip_app. destruct (lstrip l) as [|c r] eqn:E.
  - now rewrite lstrip_spaces.
  - now rewrite rstrip_app_spaces.
Qed.

Lemma filter_keep_spaces (ws : list ascii) :
  Forall (fun c => isspace c = true) ws -> List.filter keep ws = ws.
Proof.
  induction 1 as [|c ws Hc _ IH]; [reflexivity|].
  cbn [List.filter]. rewrite (keep_isspace c Hc). now rewrite IH.
Qed.

(** Whitespace around the name does not change the id. *)
Theorem normalize_id_ignores_outer_whitespace (label : string) (ws1 l ws2 : list ascii) :
  Forall (fun c => isspace c = true) ws1 ->
  Forall (fun c => isspace c = true) ws2 ->
  normalize_id label (PyStr (str (ws1 ++ l ++ ws2))) = normalize_id label (PyStr (str l)).
Proof.
  intros H1 H2. unfold normalize_id, clean_name. cbn [isna]. rewrite !chars_str.
  unfold re_sub_nonword. rewrite !List.filter_app.
  rewrite (filter_keep_spaces ws1), (filter_keep_spaces ws2) by assumption.
  now rewrite strip_surrounded.
Qed.

Lemma normalize_id_ignores_outer_whitespace_witness :
  Forall (fun c => isspace c = true) (chars "  ")
  /\ Forall (fun c => isspace c = true) [ascii_of_nat 9; LF]
  /\ normalize_id "Company" (PyStr (str (chars "  " ++ chars "Acme Corp" ++ [ascii_of_nat 9; LF])))
     = normalize_id "Company" (PyStr "Acme Corp").
Proof.
  assert (Ha : Forall (fun c => isspace c = true) (chars "  "))
    by (repeat constructor).
  assert (Hb : Forall (fun c => isspace c = true) [ascii_of_nat 9; LF])
    by (repeat constructor).
  split; [exact Ha|]. split; [exact Hb|].
  exact (normalize_id_ignores_outer_whitespace "Company" (chars "  ") (chars "Acme Corp")
           [ascii_of_nat 9; LF] Ha Hb).
Defined.

End NormalizerMore.

(** ** merge_graphs: order, provenance, composition *)

Module MergerMore.
Import PyStr Normalizer Merger MergerVocab MergerFacts.

Lemma eqb_bool_decide (x k : string) : String.eqb x k = bool_decide (x = k).
Proof.
  destruct (String.eqb x k) eqn:E.
  - apply String.eqb_eq in E. now rewrite bool_decide_true.
  - apply String.eqb_neq in E. now rewrite bool_decide_false.
Qed.

Lemma build_keys (l : list node) (d : dict node) :
  dict_keys (build l d)
  = dict_keys d
    ++ List.filter (fun k => negb (bool_decide (k ∈ dict_keys d)))
                   (first_seen (List.map new_id_of l)).
Proof.
  revert d. induction l as [|n l IH]; intros d.
  - cbn. now rewrite app_nil_r.
  - cbn [build fold_left List.map first_seen List.filter]. fold (build l).
    rewrite IH, dict_keys_set. case_bool_decide as Hin; cbn [negb].
    + f_equal. rewrite filter_filter_and. apply filter_ext. intros x.
      rewrite eqb_bool_decide.
      destruct (bool_decide (x ∈ dict_keys d)) eqn:B; [reflexivity|]. cbn [negb andb].
      apply bool_decide_eq_false in B.
      rewrite bool_decide_false; [reflexivity|]. now intros ->.
    + rewrite <- app_assoc. cbn [app]. do 2 f_equal.
      rewrite filter_filter_and. apply filter_ext. intros x.
      rewrite eqb_bool_decide.
      destruct (decide (x = new_id_of n)) as [->|Hne].
      * rewrite (bool_decide_true (new_id_of n = new_id_of n)) by reflexivity.
        rewrite andb_false_r.
        rewrite bool_decide_true; [reflexivity|]. apply elem_of_app. right. left.
      * rewrite (bool_decide_false (x = new_id_of n)) by assumption.
        rewrite andb_true_r. f_equal. apply bool_decide_ext.
        rewrite elem_of_app, list_elem_of_singleton. tauto.
Qed.

Lemma well_keyed_ids (d : dict node) :
  well_keyed d -> List.map node_id (dict_values d) = dict_keys d.
Proof.
  intros [_ Hall]. unfold dict_values, dict_keys. rewrite map_map.
  apply map_ext_in. intros kv Hkv. rewrite Forall_forall in Hall.
  now apply (Hall kv), list_elem_of_In.
Qed.

Lemma merged_well_keyed (gs : list chunk) : well_keyed (build (all_nodes gs) []).
Proof. apply well_keyed_build, well_keyed_nil. Qed.

(** The consolidated nodes come in the order in which their normalised ids
    first appear in the input. *)
Theorem merge_nodes_first_insertion_order (gs : list chunk) :
  List.map node_id (out_nodes (merge_graphs gs))
  = first_seen (List.map new_id_of (all_nodes gs)).
Proof.
  unfold out_nodes. rewrite merge_graphs_spec. cbn [nodes get_list default from_option id].
  rewrite well_keyed_ids by apply merged_well_keyed.
  rewrite build_keys. cbn [dict_keys List.map app].
  apply filter_all. intros x _. reflexivity.
Qed.

(** No two consolidated nodes share an id. *)
Theorem merge_node_ids_unique (gs : list chunk) :
  List.NoDup (List.map node_id (out_nodes (merge_graphs gs))).
Proof.
  unfold out_nodes. rewrite merge_graphs_spec. cbn [nodes get_list default from_option id].
  rewrite well_keyed_ids by apply merged_well_keyed.
  apply NoDup_ListNoDup. apply merged_well_keyed.
Qed.

(** *** Chunks that are skipped *)

Lemma falsy_chunk (c : chunk) :
  truthy c = false -> chunk_nodes c = [] /\ chunk_rewritten c = [].
Proof.
  destruct c as [[[ns|] [rs|]]|]; cbn; try discriminate; now split.
Qed.

Lemma all_nodes_filter_truthy (gs : list chunk) :
  all_nodes (List.filter truthy gs) = all_nodes gs.
Proof.
  unfold all_nodes. induction gs as [|c gs IH]; [reflexivity|].
  cbn [List.filter flat_map]. destruct (truthy c) eqn:T.
  - cbn [flat_map]. now rewrite IH.
  - destruct (falsy_chunk c T) as [-> _]. now rewrite IH.
Qed.

Lemma rewritten_filter_truthy (gs : list chunk) :
  rewritten (List.filter truthy gs) = rewritten gs.
Proof.
  unfold rewritten. induction gs as [|c gs IH]; [reflexivity|].
  cbn [List.filter flat_map]. destruct (truthy c) eqn:T.
  - cbn [flat_map]. now rewrite IH.
  - destruct (falsy_chunk c T) as [_ ->]. now rewrite IH.
Qed.

(** Null chunks and empty dictionaries can be dropped from the input, or put
    into it anywhere, without changing the result. *)
Theorem merge_skips_falsy_chunks (gs : list chunk) :
  merge_graphs (List.filter truthy gs) = merge_graphs gs.
Proof.
  rewrite !merge_graphs_spec.
  now rewrite all_nodes_filter_truthy, rewritten_filter_truthy.
Qed.

(** *** Provenance *)

Lemma build_elem (l : list node) (d : dict node) (kv : string * node) :
  kv ∈ build l d -> kv ∈ d \/ exists n, In n l /\ kv = (new_id_of n, new_node n).
Proof.
  revert d. induction l as [|n l IH]; intros d; [now left|].
  cbn [build fold_left]. fold (build l). intros H.
  destruct (IH _ H) as [Hd|(m & Hm & ->)].
  - apply dict_set_elem in Hd as [->|Hd]; [|now left].
    right. exists n. split; [now left|reflexivity].
  - right. exists m. split; [now right|reflexivity].
Qed.

Lemma dict_set_length {V} (k : string) (v : V) (d : dict V) :
  length (dict_set k v d) <= S (length d).
Proof.
  induction d as [|[k' v'] d IH]; cbn [dict_set length]; [lia|].
  destruct (String.eqb k' k); cbn [length]; lia.
Qed.

Lemma build_length (l : list node) (d : dict node) :
  length (build l d) <= length d + length l.
Proof.
  revert d. induction l as [|n l IH]; intros d; cbn [build fold_left length]; [lia|].
  specialize (IH (dict_set (new_id_of n) (new_node n) d)). unfold build in IH.
  pose proof (dict_set_length (new_id_of n) (new_node n) d). lia.
Qed.

Lemma keep_first_length (l : list relationship) : length (keep_first l) <= length l.
Proof.
  induction l as [|r l IH]; cbn [keep_first length]; [lia|].
  pose proof (List.filter_length_le (fun x => negb (bool_decide (x = r))) (keep_first l)).
  lia.
Qed.

(** Every consolidated node is some input node with its id normalised, and
    the result is never larger than the input. *)
Theorem merge_invents_nothing (gs : list chunk) :
  (forall v, In v (out_nodes (merge_graphs gs)) ->
             exists n, In n (all_nodes gs)
                       /\ v = {| node_id := new_id_of n; node_label := node_label n;
                                 node_name := node_name n |})
  /\ length (out_nodes (merge_graphs gs)) <= length (all_nodes gs)
  /\ length (out_rels (merge_graphs gs)) <= length (rewritten gs).
Proof.
  unfold out_nodes, out_rels. rewrite merge_graphs_spec.
  cbn [nodes relationships get_list default from_option id].
  split; [|split].
  - intros v Hv. unfold dict_values in Hv. apply in_map_iff in Hv as ([k v'] & <- & Hkv).
    apply list_elem_of_In, build_elem in Hkv as [Hkv|(n & Hn & [= -> ->])].
    + now apply not_elem_of_nil in Hkv.
    + exists n. split; [assumption|reflexivity].
  - unfold dict_values. rewrite length_map.
    pose proof (build_length (all_nodes gs) []). cbn [length] in *. lia.
  - rewrite unique_keep_first. apply keep_first_length.
Qed.

(** *** Merging on top of a consolidated graph *)

Lemma merged_ids_normalised (gs : list chunk) :
  Forall (fun v => new_id_of v = node_id v) (dict_values (build (all_nodes gs) [])).
Proof.
  destruct (merged_well_keyed gs) as [_ Hall]. unfold dict_values. apply Forall_map.
  eapply Forall_impl; [exact Hall|]. intros [k v] [H1 H2]. cbn [fst snd] in *. congruence.
Qed.

Lemma rewrite_rel_fixed (m : gmap string string) (r : relationship) :
  (forall x y, m !! x = Some y -> y = x) -> rewrite_rel m r = r.
Proof.
  intros Hm. destruct r as [t a b]. unfold rewrite_rel, id_map_get.
  cbn [rel_type start_node_id end_node_id]. f_equal.
  - destruct (m !! a) eqn:E; [apply Hm in E; now subst|reflexivity].
  - destruct (m !! b) eqn:E; [apply Hm in E; now subst|reflexivity].
Qed.

Lemma merged_chunk_nodes (gs : list chunk) :
  chunk_nodes (Some (merge_graphs gs)) = dict_values (build (all_nodes gs) []).
Proof. now rewrite merge_graphs_spec. Qed.

Lemma merged_chunk_rewritten (gs : list chunk) :
  chunk_rewritten (Some (merge_graphs gs)) = keep_first (rewritten gs).
Proof.
  rewrite merge_graphs_spec. cbn [chunk_rewritten relationships get_list default from_option id].
  rewrite unique_keep_first.
  rewrite (map_ext_in _ (fun r => r)); [apply map_id|].
  intros r _. apply rewrite_rel_fixed.
  unfold id_map_of. cbn [nodes get_list default from_option id].
  apply id_map_fold_fixed; [apply merged_ids_normalised|].
  intros x y. now rewrite lookup_empty.
Qed.

(** A consolidated graph can stand for the batches it was merged from:
    merging it together with further batches gives what merging all the
    batches at once gives. *)
Theorem merge_incremental (gs1 gs2 : list chunk) :
  merge_graphs (Some (merge_graphs gs1) :: gs2) = merge_graphs (gs1 ++ gs2).
Proof.
  rewrite (merge_graphs_spec (_ :: gs2)), (merge_graphs_spec (gs1 ++ gs2)).
  unfold all_nodes, rewritten. cbn [flat_map]. rewrite !flat_map_app.
  fold (all_nodes gs1) (all_nodes gs2) (rewritten gs1) (rewritten gs2).
  rewrite merged_chunk_nodes, merged_chunk_rewritten.
  rewrite !build_app.
  rewrite (build_values (build (all_nodes gs1) []) []);
    [|apply merged_well_keyed|intros k Hk; now apply not_elem_of_nil in Hk].
  cbn [app]. do 2 f_equal.
  rewrite !unique_keep_first, !keep_first_app.
  rewrite (keep_first_NoDup_id (keep_first (rewritten gs1))) by apply keep_first_NoDup.
  f_equal. apply filter_ext. intros x. f_equal. apply bool_decide_ext.
  rewrite !list_elem_of_In. apply keep_first_In.
Qed.

(** *** References inside a batch *)

Lemma nodes_with_id_present (gs : list chunk) (n : node) :
  In n (all_nodes gs) ->
  exists v, nodes_with_id (new_id_of n) (merge_graphs gs) = [v]
            /\ node_id v = new_id_of n.
Proof.
  intros Hin.
  destruct (last_split (fun m => new_id_of m = new_id_of n) (all_nodes gs))
    as (l1 & n' & l2 & Hl & Hn & Hl2); [eauto|].
  exists (new_node n'). unfold nodes_with_id. rewrite merge_graphs_spec.
  cbn [nodes get_list default from_option id].
  rewrite well_keyed_filter by apply merged_well_keyed.
  rewrite Hl, build_app. cbn [build fold_left]. fold (build l2).
  rewrite build_get_other by assumption. rewrite Hn, dict_get_set_eq.
  split; [reflexivity|]. unfold new_node. cbn [node_id]. exact Hn.
Qed.

(** An endpoint that names a node of its own batch never dangles: after
    rewriting it is the id of exactly one consolidated node. *)
Theorem in_batch_reference_resolves (gs : list chunk) (g : graph) (x : string) :
  In (Some g) gs ->
  In x (List.map node_id (get_list (nodes g))) ->
  exists v, nodes_with_id (id_map_get (id_map_of g) x) (merge_graphs gs) = [v]
            /\ node_id v = id_map_get (id_map_of g) x.
Proof.
  intros Hg Hx.
  destruct (id_map_fold_some x (get_list (nodes g)) ∅ Hx) as (n & Hn & _ & Hl).
  unfold id_map_get, id_map_of. rewrite Hl. cbn [default from_option id].
  apply nodes_with_id_present. now apply (all_nodes_In gs g).
Qed.

Lemma in_batch_reference_resolves_witness :
  In batch_two [batch_one; batch_two]
  /\ In "n0" ["n0"; "n1"]
  /\ exists v, nodes_with_id "Company_acme" (merge_graphs [batch_one; batch_two]) = [v]
               /\ node_id v = "Company_acme".
Proof.
  split; [right; now left|]. split; [now left|].
  exact (in_batch_reference_resolves
           [batch_one; batch_two]
           {| nodes := Some [Node "n0" "Company" (PyStr "Acme");
                             Node "n1" "Rating" (PyStr "A")];
              relationships := Some [Relationship "HAS_RATING" "n0" "n1"] |}
           "n0" (or_intror (or_introl eq_refl)) (or_introl eq_refl)).
Defined.

End MergerMore.

(** ** The batch loop: coverage of the rows, checkpoint, reruns *)

Module PipelineMore.
Import PyStr Normalizer Merger Pipeline PipelineVocab PipelineFacts.

(** *** The batches cover the rows *)

Lemma combine_seq_short (l : list row) (i m : nat) :
  length l <= m -> combine (seq i m) l = label_from i l.
Proof.
  unfold label_from. revert i m. induction l as [|r l IH]; intros i m Hm.
  - now destruct m.
  - destruct m as [|m]; [cbn [length] in Hm; lia|].
    cbn [seq combine length]. f_equal. apply IH. cbn [length] in Hm. lia.
Qed.

Lemma iloc_label_from (df : dataframe) (i j : nat) :
  iloc df i j = label_from i (firstn (j - i) (skipn i df)).
Proof. unfold iloc. apply combine_seq_short. apply firstn_le_length. Qed.

Lemma label_from_app (i : nat) (a b : list row) :
  label_from i (a ++ b) = label_from i a ++ label_from (i + length a) b.
Proof.
  unfold label_from. revert i. induction a as [|r a IH]; intros i.
  - cbn. now rewrite Nat.add_0_r.
  - cbn [app length seq combine]. f_equal. rewrite IH. do 3 f_equal. lia.
Qed.

Lemma batches_cover_from (df : dataframe) (b fuel i : nat) :
  0 < b -> length df - i <= fuel ->
  flat_map (fun i => iloc df i (i + b)) (range_from fuel i (length df) b)
  = label_from i (skipn i df).
Proof.
  intros Hb. revert i. induction fuel as [|fuel IH]; intros i Hfuel.
  - cbn [range_from flat_map]. rewrite skipn_all2 by lia. reflexivity.
  - cbn [range_from]. destruct (Nat.ltb i (length df)) eqn:Hlt.
    + apply Nat.ltb_lt in Hlt. cbn [flat_map]. rewrite IH by lia.
      rewrite iloc_label_from. replace (i + b - i) with b by lia.
      rewrite <- (firstn_skipn b (skipn i df)) at 2.
      rewrite label_from_app, skipn_skipn. replace (b + i) with (i + b) by lia.
      f_equal.
      destruct (Nat.le_gt_cases b (length (skipn i df))) as [Hle|Hgt].
      * now rewrite length_firstn, Nat.min_l by assumption.
      * rewrite length_skipn in Hgt.
        rewrite (skipn_all2 df) by lia. reflexivity.
    + apply Nat.ltb_ge in Hlt. cbn [flat_map]. rewrite skipn_all2 by lia. reflexivity.
Qed.

Lemma label_from_snd (n : nat) (l : list row) : List.map snd (label_from n l) = l.
Proof.
  unfold label_from. revert n. induction l as [|r l IH]; intros n; [reflexivity|].
  cbn [length seq combine List.map snd]. now rewrite IH.
Qed.

Lemma label_from_fst (n : nat) (l : list row) :
  List.map fst (label_from n l) = seq n (length l).
Proof.
  unfold label_from. revert n. induction l as [|r l IH]; intros n; [reflexivity|].
  cbn [length seq combine List.map fst]. now rewrite IH.
Qed.

(** The batches of a run are the rows from the resume offset on, each row
    once, in order and under its own index. *)
Theorem batches_cover_remaining_rows (df : dataframe) (b start : nat) (indices : list nat) :
  py_range start (length df) b = Some indices ->
  let submitted_rows := flat_map (fun i => iloc df i (i + b)) indices in
  List.map snd submitted_rows = skipn start df
  /\ List.map fst submitted_rows = seq start (length df - start).
Proof.
  unfold py_range. destruct (Nat.eqb b 0) eqn:Hb; [discriminate|].
  apply Nat.eqb_neq in Hb. intros [= <-]. cbn zeta.
  rewrite batches_cover_from by lia.
  split; [apply label_from_snd|].
  rewrite label_from_fst. now rewrite length_skipn.
Qed.

Lemma batches_cover_remaining_rows_witness :
  py_range 2 (length sample_df) 2 = Some [2; 4]
  /\ List.map snd (flat_map (fun i => iloc sample_df i (i + 2)) [2; 4]) = skipn 2 sample_df
  /\ List.map fst (flat_map (fun i => iloc sample_df i (i + 2)) [2; 4])
     = seq 2 (length sample_df - 2).
Proof.
  split; [reflexivity|].
  exact (batches_cover_remaining_rows sample_df 2 2 [2; 4] eq_refl).
Defined.

(** *** The checkpoint during a run *)

Lemma range_from_fuel (b stop fuel1 fuel2 i : nat) :
  0 < b -> stop - i <= fuel1 -> stop - i <= fuel2 ->
  range_from fuel1 i stop b = range_from fuel2 i stop b.
Proof.
  intros Hb. revert fuel2 i. induction fuel1 as [|f1 IH]; intros fuel2 i H1 H2.
  - destruct fuel2 as [|f2]; [reflexivity|]. cbn [range_from].
    assert (Hlt : Nat.ltb i stop = false) by (apply Nat.ltb_ge; lia). now rewrite Hlt.
  - cbn [range_from]. destruct (Nat.ltb i stop) eqn:Hlt.
    + apply Nat.ltb_lt in Hlt. destruct fuel2 as [|f2]; [lia|].
      cbn [range_from]. apply Nat.ltb_lt in Hlt. rewrite Hlt. apply Nat.ltb_lt in Hlt.
      f_equal. apply IH; lia.
    + destruct fuel2 as [|f2]; [reflexivity|]. cbn [range_from]. now rewrite Hlt.
Qed.

Lemma range_from_skipn (b stop s i : nat) :
  0 < b ->
  skipn s (range_from (stop - i) i stop b)
  = range_from (stop - (i + s * b)) (i + s * b) stop b.
Proof.
  intros Hb. revert i. induction s as [|s IH]; intros i.
  - cbn [skipn Nat.mul]. now rewrite Nat.add_0_r.
  - destruct (Nat.le_gt_cases stop i) as [Hge|Hlt].
    + replace (stop - i) with 0 by lia. replace (stop - (i + S s * b)) with 0 by lia.
      reflexivity.
    + destruct (stop - i) as [|m] eqn:Hm; [lia|].
      cbn [range_from]. apply Nat.ltb_lt in Hlt. rewrite Hlt. apply Nat.ltb_lt in Hlt.
      cbn [skipn].
      rewrite (range_from_fuel b stop m (stop - (i + b)) (i + b)) by lia.
      rewrite IH. replace (i + b + s * b) with (i + S s * b) by lia. reflexivity.
Qed.

Lemma submitted_app (l1 l2 : list event) :
  submitted (l1 ++ l2) = submitted l1 ++ submitted l2.
Proof. unfold submitted. apply omap_app. Qed.

Lemma failures_app (l1 l2 : list event) : failures (l1 ++ l2) = failures l1 + failures l2.
Proof. unfold failures. now rewrite List.filter_app, length_app. Qed.

Section Loop.
Variable invoke : string -> option graph.
Variable write : nat -> write_outcome.
Variable df : dataframe.
Variable b : nat.
Hypothesis writes_succeed : forall i, write i = Written.

Lemma tracked_step (start : file) (st : state) (i : nat) :
  tracked start st -> tracked start (batch_step invoke write df b st i).
Proof.
  intros (new & Hall & Hcount & Hfile).
  unfold batch_step. rewrite writes_succeed. destruct (invoke _) as [response|].
  - exists (new ++ [response]). cbn [log all_raw_graphs checkpoint_file].
    split; [|split].
    + rewrite Hall, map_app, <- app_assoc. reflexivity.
    + rewrite submitted_app, failures_app, !length_app.
      cbn [failures List.filter length submitted omap]. cbn. lia.
    + now destruct new.
  - exists new. cbn [log all_raw_graphs checkpoint_file].
    split; [assumption|]. split; [|assumption].
    rewrite submitted_app, failures_app, !length_app.
    cbn [failures List.filter length submitted omap]. cbn. lia.
Qed.

Lemma tracked_fold (start : file) (l : list nat) (st : state) :
  tracked start st -> tracked start (fold_left (batch_step invoke write df b) l st).
Proof.
  revert st. induction l as [|i l IH]; intros st Hst; [assumption|].
  cbn [fold_left]. apply IH. now apply tracked_step.
Qed.

Lemma no_failure_step (st : state) (i : nat) :
  (forall text, invoke text <> None) ->
  failures (log (batch_step invoke write df b st i)) = failures (log st).
Proof.
  intros Htot. unfold batch_step. rewrite writes_succeed.
  destruct (invoke _) as [response|] eqn:E.
  - cbn [log]. rewrite failures_app. cbn [failures List.filter length]. lia.
  - now apply Htot in E.
Qed.

Lemma no_failure_fold (l : list nat) (st : state) :
  (forall text, invoke text <> None) ->
  failures (log (fold_left (batch_step invoke write df b) l st)) = failures (log st).
Proof.
  intros Htot. revert st. induction l as [|i l IH]; intros st; [reflexivity|].
  cbn [fold_left]. rewrite IH. now apply no_failure_step.
Qed.

End Loop.

Lemma tracked_initial (start : file) : tracked start (initial start).
Proof.
  exists []. split; [|split; reflexivity].
  cbn. now rewrite app_nil_r.
Qed.

(** With no write lost, the file can be read again and holds the list. *)
Lemma tracked_file (start : file) (st : state) :
  start <> Damaged -> tracked start st ->
  checkpoint_file st <> Damaged /\ entries (checkpoint_file st) = all_raw_graphs st.
Proof.
  intros Hstart (new & Hall & _ & Hfile). destruct new as [|g new].
  - rewrite Hfile. split; [assumption|]. rewrite Hall. cbn. now rewrite app_nil_r.
  - rewrite Hfile. split; [discriminate|reflexivity].
Qed.

Lemma main_run (invoke : string -> option graph) (write : nat -> write_outcome)
      (df : dataframe) (b : nat) (f : file) :
  0 < b -> df <> [] -> f <> Damaged ->
  main invoke write df b f
  = let st := fold_left (batch_step invoke write df b) (run_indices df b f) (initial f) in
    Finished st (merge_graphs (all_raw_graphs st)).
Proof.
  intros Hb Hdf Hf. unfold main, run_indices. destruct df as [|r0 df']; [contradiction|].
  assert (Hb0 : Nat.eqb b 0 = false) by (apply Nat.eqb_neq; lia).
  destruct f as [|graphs|]; [| |contradiction];
    unfold py_range; rewrite Hb0; reflexivity.
Qed.

Lemma main_finished (invoke : string -> option graph) (write : nat -> write_outcome)
      (df : dataframe) (b : nat) (start : file) (st : state) (fg : graph) :
  main invoke write df b start = Finished st fg ->
  0 < b /\ df <> [] /\ start <> Damaged
  /\ st = fold_left (batch_step invoke write df b) (run_indices df b start) (initial start)
  /\ fg = merge_graphs (all_raw_graphs st).
Proof.
  intros Hmain.
  assert (Hdf : df <> []) by (intros ->; discriminate Hmain).
  assert (Hstart : start <> Damaged).
  { intros ->. unfold main in Hmain. destruct df; discriminate. }
  assert (Hb : 0 < b).
  { destruct b as [|b']; [|lia]. exfalso. unfold main in Hmain.
    destruct df as [|r0 df']; [contradiction|].
    destruct start; try contradiction; discriminate Hmain. }
  rewrite main_run in Hmain by assumption. cbn zeta in Hmain.
  injection Hmain as <- <-. repeat split; assumption.
Qed.

Lemma next_range (df : dataframe) (b : nat) (start : file) (st : state) :
  0 < b -> tracked start st ->
  submitted (log st) = run_indices df b start ->
  range_from (length df - length (all_raw_graphs st) * b)
             (length (all_raw_graphs st) * b) (length df) b
  = skipn (length (submitted (log st)) - failures (log st)) (submitted (log st)).
Proof.
  intros Hb (new & Hall & Hcount & _) Hsub.
  replace (length (submitted (log st)) - failures (log st)) with (length new) by lia.
  rewrite Hsub. unfold run_indices. rewrite range_from_skipn by assumption.
  rewrite Hall, length_app, length_map.
  replace ((length (entries start) + length new) * b)
    with (length (entries start) * b + length new * b) by lia.
  reflexivity.
Qed.

(** In a run of which no checkpoint write fails, the list in memory at the
    end is the one the run started from (empty on a first run) followed by
    the answers received, none of them null; the batches submitted are the
    answers added plus the failures; and the checkpoint file holds the list
    in memory as soon as one answer has come, and is the file the run found
    (none, on a first run) when every batch failed. *)
Theorem checkpoint_tracks_graphs
        (invoke : string -> option graph) (write : nat -> write_outcome)
        (df : dataframe) (b : nat) (start : file) (st : state) (final_graph : graph) :
  (forall i, write i = Written) ->
  main invoke write df b start = Finished st final_graph ->
  exists new : list graph,
    all_raw_graphs st = entries start ++ List.map Some new
    /\ length new + failures (log st) = length (submitted (log st))
    /\ checkpoint_file st = match new with
                            | [] => start
                            | _ :: _ => Holds (all_raw_graphs st)
                            end.
Proof.
  intros Hw Hmain. apply main_finished in Hmain as (_ & _ & _ & -> & _).
  apply tracked_fold; [assumption|apply tracked_initial].
Qed.

Lemma checkpoint_tracks_graphs_witness :
  (forall i, always_written i = Written)
  /\ exists st final_graph,
       main sample_invoke always_written sample_df 2 Absent = Finished st final_graph
       /\ exists new : list graph,
            all_raw_graphs st = entries Absent ++ List.map Some new
            /\ length new + failures (log st) = length (submitted (log st))
            /\ checkpoint_file st = match new with
                                    | [] => Absent
                                    | _ :: _ => Holds (all_raw_graphs st)
                                    end.
Proof.
  assert (Hw : forall i, always_written i = Written) by reflexivity.
  split; [exact Hw|].
  eexists. eexists. split; [reflexivity|].
  exact (checkpoint_tracks_graphs sample_invoke always_written sample_df 2 Absent _ _
           Hw eq_refl).
Defined.

(** The offset of the next run counts answers, not batches: after a run of
    which no checkpoint write failed, the next run, whatever its collaborators
    do, submits again the last batches of this run, as many as there were
    failures, whichever batches failed.  A first run is a run from no file. *)
Theorem rerun_repeats_last_batches
        (invoke invoke' : string -> option graph) (write write' : nat -> write_outcome)
        (df : dataframe) (b : nat) (start : file) (st : state) (final_graph : graph) :
  (forall i, write i = Written) ->
  main invoke write df b start = Finished st final_graph ->
  exists st' final_graph',
    main invoke' write' df b (checkpoint_file st) = Finished st' final_graph'
    /\ submitted (log st')
       = skipn (length (submitted (log st)) - failures (log st)) (submitted (log st)).
Proof.
  intros Hw Hmain. apply main_finished in Hmain as (Hb & Hdf & Hstart & Hst & _).
  assert (Htr : tracked start st).
  { rewrite Hst. apply tracked_fold; [assumption|apply tracked_initial]. }
  destruct (tracked_file start st Hstart Htr) as [Hfile Hentries].
  rewrite main_run by assumption. cbn zeta. eexists. eexists. split; [reflexivity|].
  rewrite fold_batch_step_submitted. cbn [initial log app].
  unfold run_indices. rewrite Hentries. apply (next_range df b start st Hb Htr).
  rewrite Hst, fold_batch_step_submitted. reflexivity.
Qed.

Lemma rerun_repeats_last_batches_witness :
  (forall i, always_written i = Written)
  /\ exists st final_graph,
       main sample_invoke always_written sample_df 2 Absent = Finished st final_graph
       /\ submitted (log st) = [0; 2; 4] /\ failures (log st) = 1
       /\ exists st' final_graph',
            main always_empty sample_write sample_df 2 (checkpoint_file st)
            = Finished st' final_graph'
            /\ submitted (log st')
               = skipn (length (submitted (log st)) - failures (log st)) (submitted (log st)).
Proof.
  assert (Hw : forall i, always_written i = Written) by reflexivity.
  split; [exact Hw|].
  eexists. eexists. split; [reflexivity|]. split; [reflexivity|]. split; [reflexivity|].
  exact (rerun_repeats_last_batches sample_invoke always_empty always_written sample_write
           sample_df 2 Absent _ _ Hw eq_refl).
Defined.

(** After a run in which no batch failed, neither at the extraction call nor
    at the checkpoint write, running again from the checkpoint file submits
    nothing and ends with the same list, file and final graph, on a first run
    as on a resumed one. *)
Theorem rerun_after_success_is_noop
        (invoke invoke' : string -> option graph) (write write' : nat -> write_outcome)
        (df : dataframe) (b : nat) (start : file) (st : state) (final_graph : graph) :
  (forall text, invoke text <> None) ->
  (forall i, write i = Written) ->
  main invoke write df b start = Finished st final_graph ->
  main invoke' write' df b (checkpoint_file st)
  = Finished {| all_raw_graphs := all_raw_graphs st;
                checkpoint_file := checkpoint_file st;
                log := [] |} final_graph.
Proof.
  intros Htot Hw Hmain. apply main_finished in Hmain as (Hb & Hdf & Hstart & Hst & Hfg).
  assert (Htr : tracked start st).
  { rewrite Hst. apply tracked_fold; [assumption|apply tracked_initial]. }
  destruct (tracked_file start st Hstart Htr) as [Hfile Hentries].
  assert (Hnext := next_range df b start st Hb Htr).
  rewrite Hst in Hnext at 1. rewrite fold_batch_step_submitted in Hnext.
  specialize (Hnext eq_refl).
  assert (Hfail : failures (log st) = 0).
  { rewrite Hst, no_failure_fold by assumption. reflexivity. }
  rewrite Hfail, Nat.sub_0_r, skipn_all in Hnext.
  rewrite main_run by assumption. cbn zeta.
  unfold run_indices. rewrite Hentries, Hnext. cbn [fold_left].
  unfold initial. rewrite Hentries. now rewrite Hfg.
Qed.

Lemma rerun_after_success_is_noop_witness :
  (forall text, always_empty text <> None)
  /\ (forall i, always_written i = Written)
  /\ exists st final_graph,
       main always_empty always_written sample_df 2 Absent = Finished st final_graph
       /\ main sample_invoke sample_write sample_df 2 (checkpoint_file st)
          = Finished {| all_raw_graphs := all_raw_graphs st;
                        checkpoint_file := checkpoint_file st;
                        log := [] |} final_graph.
Proof.
  assert (Htot : forall text, always_empty text <> None) by (intros text; discriminate).
  assert (Hw : forall i, always_written i = Written) by reflexivity.
  split; [exact Htot|]. split; [exact Hw|].
  eexists. eexists. split; [reflexivity|].
  exact (rerun_after_success_is_noop always_empty sample_invoke always_written sample_write
           sample_df 2 Absent _ _ Htot Hw eq_refl).
Defined.

End PipelineMore.

(** ** The loader: what a load keeps, adds and skips *)

Module LoaderMore.
Import PyStr Merger MergerVocab Loader LoaderVocab LoaderFacts.

(** *** Upserts in general *)

Section UpsertMore.
Context {X Op : Type}.
Variable matches : Op -> X -> bool.
Variable upd : Op -> X -> X.
Variable fresh : Op -> X.

Lemma upsert_lookup (l : list X) (u : Op) (i : nat) (x : X) :
  l !! i = Some x ->
  upsert matches upd fresh l u !! i = Some (apply_op matches upd u x).
Proof.
  intros Hi. unfold upsert. rewrite list_lookup_fmap.
  destruct (existsb (matches u) l).
  - now rewrite Hi.
  - rewrite lookup_app_l by (now apply lookup_lt_Some in Hi). now rewrite Hi.
Qed.

Lemma fold_upsert_lookup (ops : list Op) (l : list X) (i : nat) (x : X) :
  l !! i = Some x ->
  fold_left (upsert matches upd fresh) ops l !! i = Some (touch matches upd ops x).
Proof.
  revert l x. induction ops as [|u ops IH]; intros l x Hi; [assumption|].
  cbn [fold_left touch]. apply IH. now apply upsert_lookup.
Qed.

Lemma upsert_length (l : list X) (u : Op) :
  length l <= length (upsert matches upd fresh l u).
Proof.
  unfold upsert. rewrite length_map.
  destruct (existsb (matches u) l); [lia|]. rewrite length_app. lia.
Qed.

Lemma fold_upsert_length (ops : list Op) (l : list X) :
  length l <= length (fold_left (upsert matches upd fresh) ops l).
Proof.
  revert l. induction ops as [|u ops IH]; intros l; [cbn; lia|].
  cbn [fold_left]. specialize (IH (upsert matches upd fresh l u)).
  pose proof (upsert_length l u). lia.
Qed.

Lemma fold_upsert_Forall (P : X -> Prop) (ops : list Op) (l : list X) :
  (forall u x, In u ops -> P x -> P (upd u x)) ->
  (forall u, In u ops -> P (fresh u)) ->
  Forall P l -> Forall P (fold_left (upsert matches upd fresh) ops l).
Proof.
  revert l. induction ops as [|u ops IH]; intros l Hupd Hfresh Hl; [assumption|].
  cbn [fold_left]. apply IH.
  - intros v x Hv. apply Hupd. now right.
  - intros v Hv. apply Hfresh. now right.
  - unfold upsert. apply Forall_map.
    assert (Hap : forall x, P x -> P (apply_op matches upd u x)).
    { intros x Hx. unfold apply_op. destruct (matches u x); [|assumption].
      apply Hupd; [now left|assumption]. }
    destruct (existsb (matches u) l).
    + eapply Forall_impl; [exact Hl|]. exact Hap.
    + apply Forall_app. split.
      * eapply Forall_impl; [exact Hl|]. exact Hap.
      * constructor; [|constructor]. apply Hap, Hfresh. now left.
Qed.

End UpsertMore.

(** *** What a load keeps *)

Lemma node_touch_keeps (ops : list Neo4jNode) (x : db_node) :
  Forall keeps_id ops ->
  n_labels (touch node_matches node_upd ops x) = n_labels x
  /\ n_props (touch node_matches node_upd ops x) !! "id" = n_props x !! "id".
Proof.
  revert x. induction ops as [|u ops IH]; intros x Hops; [now split|].
  apply Forall_cons in Hops as [Hu Hops]. cbn [touch fold_left].
  fold (touch node_matches node_upd ops (apply_op node_matches node_upd u x)).
  destruct (IH (apply_op node_matches node_upd u x) Hops) as [-> ->].
  unfold apply_op. destruct (node_matches u x); [|now split].
  unfold node_upd. cbn [n_labels n_props]. split; [reflexivity|].
  rewrite lookup_set_props. unfold keeps_id in Hu. now rewrite Hu.
Qed.

Lemma edge_touch_keeps (ops : list edge_op) (e : db_rel) :
  r_start (touch edge_matches edge_upd ops e) = r_start e
  /\ r_type (touch edge_matches edge_upd ops e) = r_type e
  /\ r_end (touch edge_matches edge_upd ops e) = r_end e.
Proof.
  revert e. induction ops as [|u ops IH]; intros e; [now repeat split|].
  cbn [touch fold_left].
  fold (touch edge_matches edge_upd ops (apply_op edge_matches edge_upd u e)).
  destruct (IH (apply_op edge_matches edge_upd u e)) as (-> & -> & ->).
  unfold apply_op. destruct (edge_matches u e); [|now repeat split].
  destruct u as [[[a t] b] p]. now repeat split.
Qed.

(** A load removes nothing: every constraint stays; every stored node stays
    at its place with its labels and its id; every stored edge stays at its
    place with its endpoints and type. *)
Theorem load_keeps_what_is_stored (data : graph) (s : store) :
  let s' := snd (load data s) in
  constraints s ⊆ constraints s'
  /\ (forall i x, db_nodes s !! i = Some x ->
                 exists x', db_nodes s' !! i = Some x'
                            /\ n_labels x' = n_labels x
                            /\ n_props x' !! "id" = n_props x !! "id")
  /\ (forall j e, db_rels s !! j = Some e ->
                 exists e', db_rels s' !! j = Some e'
                            /\ r_start e' = r_start e /\ r_type e' = r_type e
                            /\ r_end e' = r_end e).
Proof.
  cbn zeta. unfold load. rewrite run_store. cbn [constraints db_nodes db_rels].
  split; [apply union_subseteq_r|]. split.
  - intros i x Hi. eexists. split.
    + apply fold_upsert_lookup. exact Hi.
    + apply node_touch_keeps, to_neo4j_keeps_id.
  - intros j e Hj. eexists. split.
    + apply fold_upsert_lookup. exact Hj.
    + apply edge_touch_keeps.
Qed.

(** *** What a load adds *)

Lemma existsb_filter_length {A} (f : A -> bool) (l : list A) :
  existsb f l = true -> 1 <= length (List.filter f l).
Proof.
  induction l as [|x l IH]; [discriminate|]. cbn [existsb List.filter].
  destruct (f x); cbn [length orb]; [lia|assumption].
Qed.



(** *** Edges *)

Lemma ids_with_lt (id : string) (ns : list db_node) (a : nat) :
  In a (ids_with id ns) -> a < length ns.
Proof.
  unfold ids_with. intros H. apply in_map_iff in H as ([i x] & <- & H).
  apply filter_In in H as [H _]. apply in_combine_l, in_seq in H. cbn [fst]. lia.
Qed.

Lemma rel_rows_lt (ns : list db_node) (rel : Neo4jRelationship) (u : edge_op) :
  In u (rel_rows ns rel) ->
  r_start (edge_fresh u) < length ns /\ r_end (edge_fresh u) < length ns.
Proof.
  unfold rel_rows. intros H. apply in_flat_map in H as (a & Ha & H).
  apply in_map_iff in H as (b & <- & Hb). cbn [edge_fresh r_start r_end].
  split; eapply ids_with_lt; eassumption.
Qed.

(** A load keeps the store well formed: when every stored edge links two
    stored nodes before the load, so it is after it. *)
Theorem load_keeps_edges_in_range (data : graph) (s : store) :
  edges_in_range s -> edges_in_range (snd (load data s)).
Proof.
  unfold edges_in_range, load. rewrite run_store. cbn [db_nodes db_rels].
  set (N := fold_left merge_node (gr_nodes (to_neo4j_graph data)) (db_nodes s)).
  intros Hs.
  assert (Hlen : length (db_nodes s) <= length N)
    by apply (fold_upsert_length node_matches node_upd node_fresh).
  apply (fold_upsert_Forall edge_matches edge_upd edge_fresh).
  - intros [[[a t] b] p] e _ He. exact He.
  - intros u Hu. apply in_flat_map in Hu as (rel & _ & Hu).
    now apply (rel_rows_lt N rel).
  - eapply Forall_impl; [exact Hs|]. intros e [H1 H2]. split; lia.
Qed.

Lemma load_keeps_edges_in_range_witness :
  edges_in_range empty_store
  /\ edges_in_range (snd (load (merge_graphs [batch_one; batch_two]) empty_store)).
Proof.
  assert (H : edges_in_range empty_store) by constructor.
  split; [exact H|].
  exact (load_keeps_edges_in_range (merge_graphs [batch_one; batch_two]) empty_store H).
Defined.

(** *** A relationship without its endpoint *)

Lemma node_ids_after (ns : list Neo4jNode) (l : list db_node) :
  Forall keeps_id ns ->
  Forall (fun x => forall id, has_id id x ->
                     (exists y, In y l /\ has_id id y)
                     \/ (exists n, In n ns /\ nn_id n = id))
         (fold_left merge_node ns l).
Proof.
  intros Hns. apply (fold_upsert_Forall node_matches node_upd node_fresh).
  - intros u x Hu Hx id Hid. apply Hx. unfold has_id in *.
    unfold node_upd in Hid. cbn [n_props] in Hid. rewrite lookup_set_props in Hid.
    rewrite Forall_forall in Hns. specialize (Hns u (proj2 (list_elem_of_In _ _) Hu)).
    unfold keeps_id in Hns. now rewrite Hns in Hid.
  - intros u Hu id Hid. right. exists u. split; [assumption|].
    unfold has_id, node_fresh in Hid. cbn [n_props] in Hid.
    rewrite lookup_singleton_eq in Hid. now injection Hid.
  - apply Forall_forall. intros x Hx id Hid. left. exists x.
    split; [now apply list_elem_of_In|assumption].
Qed.

Lemma ids_with_none (id : string) (ns : list db_node) :
  (forall x, In x ns -> ~ has_id id x) -> ids_with id ns = [].
Proof.
  intros H. unfold ids_with. rewrite MergerFacts.filter_none; [reflexivity|].
  intros [i x] Hix. apply in_combine_r in Hix. cbn [snd].
  apply bool_decide_eq_false. now apply H.
Qed.

Lemma rel_rows_none (ns : list db_node) (rel : Neo4jRelationship) :
  ids_with (nr_start_node_id rel) ns = [] \/ ids_with (nr_end_node_id rel) ns = [] ->
  rel_rows ns rel = [].
Proof.
  unfold rel_rows. intros [-> | ->]; [reflexivity|].
  induction (ids_with (nr_start_node_id rel) ns) as [|a l IH]; [reflexivity|].
  cbn [flat_map List.map app]. exact IH.
Qed.

(** A relationship one of whose endpoint ids is carried by no stored node
    and by no node of the graph is skipped: the load gives the store it would
    give without that relationship. *)
Theorem dangling_relationship_is_skipped
        (data : graph) (s : store) (rel : relationship) (x : string) :
  x = start_node_id rel \/ x = end_node_id rel ->
  (forall y, In y (db_nodes s) -> ~ has_id x y) ->
  (forall n, In n (get_list (nodes data)) -> node_id n <> x) ->
  snd (load data s) = snd (load (without_rel rel data) s).
Proof.
  intros Hx Hs Hdata. unfold load. rewrite !run_store.
  unfold without_rel, to_neo4j_graph.
  cbn [gr_nodes gr_relationships nodes relationships get_list default from_option id].
  fold (get_list (nodes data)) (get_list (relationships data)).
  set (N := fold_left merge_node (List.map to_neo4j_node (get_list (nodes data))) (db_nodes s)).
  assert (HN : ids_with x N = []).
  { apply ids_with_none. intros y Hy Hid.
    pose proof (node_ids_after (List.map to_neo4j_node (get_list (nodes data))) (db_nodes s)
                  (to_neo4j_keeps_id data)) as Hall.
    rewrite Forall_forall in Hall.
    destruct (Hall y (proj2 (list_elem_of_In _ _) Hy) x Hid) as [(z & Hz & Hzid)|(n & Hn & Hnid)].
    - now apply (Hs z).
    - apply in_map_iff in Hn as (v & <- & Hv). now apply (Hdata v). }
  assert (Hrel : rel_rows N (to_neo4j_rel rel) = []).
  { apply rel_rows_none. unfold to_neo4j_rel. cbn [nr_start_node_id nr_end_node_id].
    destruct Hx as [->| ->]; [now left|now right]. }
  f_equal. f_equal.
  induction (get_list (relationships data)) as [|r rs IH]; [reflexivity|].
  cbn [List.map List.filter flat_map].
  destruct (decide (r = rel)) as [->|Hne].
  - rewrite bool_decide_true by reflexivity. cbn [negb]. now rewrite Hrel.
  - rewrite bool_decide_false by assumption. cbn [negb List.map flat_map]. now rewrite IH.
Qed.

Lemma dangling_relationship_is_skipped_witness :
  ("9" = start_node_id (Relationship "HAS_REPORT" "Company_acme" "9")
   \/ "9" = end_node_id (Relationship "HAS_REPORT" "Company_acme" "9"))
  /\ snd (load (merge_graphs [batch_one; batch_two]) empty_store)
     = snd (load (without_rel (Relationship "HAS_REPORT" "Company_acme" "9")
                              (merge_graphs [batch_one; batch_two])) empty_store).
Proof.
  split; [now right|].
  apply (dangling_relationship_is_skipped
           (merge_graphs [batch_one; batch_two]) empty_store
           (Relationship "HAS_REPORT" "Company_acme" "9") "9").
  - now right.
  - intros y [].
  - intros n [<-|[<-|[]]]; discriminate.
Defined.

(** *** A consolidated graph in an empty store *)

Lemma merge_nodes_fresh (ns : list Neo4jNode) (l : list db_node) :
  Forall keeps_id ns ->
  List.NoDup (List.map nn_id ns) ->
  (forall n x, In n ns -> In x l -> ~ has_id (nn_id n) x) ->
  fold_left merge_node ns l = l ++ List.map (fun n => node_upd n (node_fresh n)) ns.
Proof.
  revert l. induction ns as [|n ns IH]; intros l Hk Hnd Hl.
  - cbn. now rewrite app_nil_r.
  - apply Forall_cons in Hk as [Hn Hk]. cbn [List.map] in Hnd.
    apply List.NoDup_cons_iff in Hnd as [Hnin Hnd].
    assert (Hno : forall x, In x l -> node_matches n x = false).
    { intros x Hx. unfold node_matches.
      rewrite (bool_decide_false (n_props x !! "id" = Some (nn_id n))).
      - apply andb_false_r.
      - apply (Hl n x); [now left|assumption]. }
    assert (Hstep : merge_node l n = l ++ [node_upd n (node_fresh n)]).
    { unfold merge_node, upsert.
      assert (He : existsb (node_matches n) l = false).
      { apply not_true_is_false. intros He. apply existsb_exists in He as (x & Hx & Hm).
        rewrite (Hno x Hx) in Hm. discriminate. }
      rewrite He, map_app. cbn [List.map]. f_equal.
      - rewrite <- (map_id l) at 2. apply map_ext_in. intros x Hx.
        unfold apply_op. now rewrite (Hno x Hx).
      - unfold apply_op. now rewrite node_fresh_matches. }
    cbn [fold_left List.map]. rewrite Hstep, IH; [now rewrite <- app_assoc|assumption..|].
    intros m x Hm Hx. apply in_app_iff in Hx as [Hx|[<-|[]]].
    + apply (Hl m x); [now right|assumption].
    + unfold has_id, node_upd, node_fresh. cbn [n_props].
      rewrite lookup_set_props. unfold keeps_id in Hn. rewrite Hn.
      rewrite lookup_singleton_eq. intros [= E]. apply Hnin. rewrite E.
      now apply in_map.
Qed.


End LoaderMore.

(** ** The gateway and the chat loop *)

Module GatewayMore.
Import PyStr Gateway GatewayFacts Chat.



(** The answer is [None] in two cases only: zero records, or a first choice
    whose content is [None]; an exception never gives [None]. *)
Theorem answer_none_iff
        (search : string -> result RetrieverResult)
        (create : list message -> result ChatCompletion)
        (user_question : string) :
  fst (generate_answer search create user_question) = None
  <-> (exists cypher, zero_records search user_question cypher)
      \/ (exists its response rest,
            needs_synthesis search user_question its
            /\ create (messages_for user_question its) = ret response
            /\ choices response = None :: rest).
Proof.
  unfold generate_answer, answer_body, zero_records, needs_synthesis. split.
  - destruct (search user_question) as [e|res] eqn:Hs; [discriminate|].
    cbn [bind]. destruct (metadata res) as [md|] eqn:Hm; [|discriminate].
    cbn [bind ret]. destruct (default [] (items res)) as [|i0 its] eqn:Hi.
    + intros _. left. exists (default "" (md !! "cypher")), res, md. now repeat split.
    + fold (messages_for user_question (i0 :: its)).
      destruct (create (messages_for user_question (i0 :: its))) as [e|response] eqn:Hc;
        [discriminate|].
      cbn [bind]. destruct (choices response) as [|c rest] eqn:Hch; [discriminate|].
      cbn [ret fst]. intros ->. right. exists (i0 :: its), response, rest.
      split; [|now split]. exists res, md. repeat split; try assumption. discriminate.
  - intros [(cypher & res & md & Hs & Hm & _ & Hi)
           |(its & response & rest & (res & md & Hs & Hm & Hi & Hne) & Hc & Hch)].
    + rewrite Hs. cbn [bind ret]. rewrite Hm. cbn [bind ret]. now rewrite Hi.
    + rewrite Hs. cbn [bind ret]. rewrite Hm. cbn [bind ret]. rewrite Hi.
      destruct its as [|i0 its]; [contradiction|].
      unfold messages_for in Hc. rewrite Hc. cbn [bind ret]. now rewrite Hch.
Qed.

(** *** The transcript *)

Lemma paired_app (l1 l2 : list message) : paired l1 -> paired l2 -> paired (l1 ++ l2).
Proof.
  revert l1. fix IH 1. intros [|[r1 c1] [|[r2 c2] rest]]; cbn [paired app]; try tauto.
  intros (H1 & H2 & H3 & H4 & Hrest) Hl2. repeat split; try assumption.
  now apply IH.
Qed.

Lemma paired_length (l : list message) : paired l -> Nat.Even (length l).
Proof.
  revert l. fix IH 1. intros [|[r1 c1] [|[r2 c2] rest]]; cbn [paired length]; try tauto.
  - intros _. exists 0. reflexivity.
  - intros (_ & _ & _ & _ & Hrest). destruct (IH rest Hrest) as [k Hk].
    exists (S k). lia.
Qed.

Section Turn.
Variable search : string -> result RetrieverResult.
Variable create : list message -> result ChatCompletion.

Lemma chat_turn_asked (messages : list message) (p : string) :
  p <> "" ->
  exists stored,
    fst (chat_turn search create messages (Some p))
    = messages ++ [("user", p); ("assistant", stored)]
    /\ stored <> "".
Proof.
  intros Hp. unfold chat_turn. apply String.eqb_neq in Hp. rewrite Hp.
  destruct (generate_answer search create p) as [[a|] cypher]; cbn [fst].
  - eexists. split; [now rewrite <- app_assoc|].
    unfold answer_truthy. destruct (String.eqb a "") eqn:E; cbn [negb].
    + discriminate.
    + now apply String.eqb_neq in E.
  - eexists. split; [now rewrite <- app_assoc|]. discriminate.
Qed.

Lemma asked_some (p : string) (prompts : list (option string)) :
  asked (Some p :: prompts) = if String.eqb p "" then asked prompts else p :: asked prompts.
Proof. unfold asked. cbn. now destruct (String.eqb p ""). Qed.

Lemma asked_none (prompts : list (option string)) : asked (None :: prompts) = asked prompts.
Proof. reflexivity. Qed.

Lemma session_fold (prompts : list (option string)) (messages : list message) :
  paired messages ->
  let final := fold_left (fun ms prompt => fst (chat_turn search create ms prompt))
                         prompts messages in
  paired final
  /\ length final = length messages + 2 * length (asked prompts)
  /\ (exists added, final = messages ++ added
                    /\ List.map snd (List.filter (fun m => String.eqb (fst m) "user") added)
                       = asked prompts).
Proof.
  revert messages. induction prompts as [|prompt prompts IH]; intros messages Hm.
  - cbn. split; [assumption|]. split; [lia|]. exists []. now rewrite app_nil_r.
  - cbn [fold_left]. destruct prompt as [p|].
    + destruct (String.eqb p "") eqn:E.
      * assert (Hsame : fst (chat_turn search create messages (Some p)) = messages)
          by (unfold chat_turn; now rewrite E).
        rewrite Hsame, asked_some, E. now apply IH.
      * apply String.eqb_neq in E.
        destruct (chat_turn_asked messages p E) as (stored & -> & Hst).
        assert (Hp : paired (messages ++ [("user", p); ("assistant", stored)])).
        { apply paired_app; [assumption|]. cbn. now repeat split. }
        destruct (IH _ Hp) as (H1 & H2 & added & H3 & H4).
        rewrite asked_some. apply String.eqb_neq in E. rewrite E.
        split; [assumption|]. split.
        { rewrite H2, length_app. cbn [length]. lia. }
        exists ([("user", p); ("assistant", stored)] ++ added). split.
        { now rewrite H3, <- app_assoc. }
        cbn. now rewrite H4.
    + assert (Hsame : fst (chat_turn search create messages None) = messages)
        by reflexivity.
      rewrite Hsame, asked_none. now apply IH.
Qed.

End Turn.

(** Whatever the collaborators do, the transcript of a session is made of
    question/answer pairs with no empty content: two messages per non-empty
    prompt, the questions being the prompts in order; an empty or absent
    prompt adds nothing. *)
Theorem session_transcript_paired
        (search : string -> result RetrieverResult)
        (create : list message -> result ChatCompletion)
        (prompts : list (option string)) :
  paired (session search create prompts)
  /\ length (session search create prompts) = 2 * length (asked prompts)
  /\ List.map snd (List.filter (fun m => String.eqb (fst m) "user")
                               (session search create prompts))
     = asked prompts.
Proof.
  destruct (session_fold search create prompts [] I) as (H1 & H2 & added & H3 & H4).
  unfold session. split; [assumption|]. split; [exact H2|].
  rewrite H3. exact H4.
Qed.

End GatewayMore.

(** ** The embedding backfill *)

Module BackfillFacts.
Import PyStr Loader Backfill.

Example backfill_sample :
  let st := backfill embed_len [acme_node; rating_node] in
  calls st = ["Acme"]
  /\ List.map (fun x => n_props x !! "embedding") (nodes st) = [Some "4"; None].
Proof. vm_compute. split; reflexivity. Qed.

Lemma same_but_embedding_refl (x : db_node) : same_but_embedding x x.
Proof. now repeat split. Qed.

Lemma same_but_embedding_trans (x y z : db_node) :
  same_but_embedding x y -> same_but_embedding y z -> same_but_embedding x z.
Proof.
  intros (L1 & P1 & E1) (L2 & P2 & E2). split; [congruence|]. split.
  - intros k Hk. rewrite P2, P1 by assumption. reflexivity.
  - intros H. now apply E2, E1.
Qed.

Lemma set_embedding_same (label : string) (i : option string) (v : string)
      (ns : list db_node) :
  Forall2 same_but_embedding ns (set_embedding label i v ns).
Proof.
  unfold set_embedding. induction ns as [|x ns IH]; [constructor|].
  cbn [List.map]. constructor; [|assumption].
  destruct (is_target label i x); [|apply same_but_embedding_refl].
  split; [reflexivity|]. cbn [n_props]. split.
  - intros k Hk. now rewrite lookup_insert_ne.
  - intros _. rewrite lookup_insert_eq. eauto.
Qed.

Lemma Forall2_same_refl (ns : list db_node) : Forall2 same_but_embedding ns ns.
Proof. induction ns; constructor; [apply same_but_embedding_refl|assumption]. Qed.

Lemma Forall2_same_trans (l1 l2 l3 : list db_node) :
  Forall2 same_but_embedding l1 l2 -> Forall2 same_but_embedding l2 l3 ->
  Forall2 same_but_embedding l1 l3.
Proof.
  intros H. revert l3. induction H as [|x y l1 l2 Hxy _ IH]; intros l3 H23.
  - inversion H23. constructor.
  - inversion H23 as [|? z ? l3' Hyz H23']; subst. constructor.
    + now apply (same_but_embedding_trans x y z).
    + now apply IH.
Qed.

Section Run.
Variable embed_query : string -> option string.

Lemma record_step_same (label : string) (st : state) (r : option string * option string) :
  Forall2 same_but_embedding (nodes st) (nodes (record_step embed_query label st r)).
Proof.
  unfold record_step. destruct (snd r) as [text|]; [|apply Forall2_same_refl].
  destruct (String.eqb text ""); [apply Forall2_same_refl|].
  destruct (embed_query text); cbn [nodes];
    [apply set_embedding_same|apply Forall2_same_refl].
Qed.

Lemma records_same (label : string) (rs : list (option string * option string))
      (st : state) :
  Forall2 same_but_embedding (nodes st) (nodes (fold_left (record_step embed_query label) rs st)).
Proof.
  revert st. induction rs as [|r rs IH]; intros st; [apply Forall2_same_refl|].
  cbn [fold_left]. eapply Forall2_same_trans; [apply record_step_same|apply IH].
Qed.

Lemma label_step_same (st : state) (label : string) :
  Forall2 same_but_embedding (nodes st) (nodes (label_step embed_query st label)).
Proof. apply records_same. Qed.

Lemma labels_same (ls : list string) (st : state) :
  Forall2 same_but_embedding (nodes st) (nodes (fold_left (label_step embed_query) ls st)).
Proof.
  revert st. induction ls as [|l ls IH]; intros st; [apply Forall2_same_refl|].
  cbn [fold_left]. eapply Forall2_same_trans; [apply label_step_same|apply IH].
Qed.

End Run.

Lemma kept_trans (l1 l2 l3 : list db_node) :
  Forall2 kept_if_untargeted l1 l2 -> Forall2 kept_if_untargeted l2 l3 ->
  Forall2 kept_if_untargeted l1 l3.
Proof.
  intros H. revert l3. induction H as [|x y l1 l2 Hxy _ IH]; intros l3 H23.
  - inversion H23. constructor.
  - inversion H23 as [|? z ? l3' Hyz H23']; subst. constructor.
    + intros Hx. specialize (Hxy Hx). subst y. now apply Hyz.
    + now apply IH.
Qed.

Lemma kept_refl (ns : list db_node) : Forall2 kept_if_untargeted ns ns.
Proof. induction ns; constructor; [now intros _|assumption]. Qed.

Lemma set_embedding_kept (label : string) (i : option string) (v : string)
      (ns : list db_node) :
  In label target_labels ->
  Forall2 kept_if_untargeted ns (set_embedding label i v ns).
Proof.
  intros Hl. unfold set_embedding. induction ns as [|x ns IH]; [constructor|].
  cbn [List.map]. constructor; [|assumption].
  destruct (is_target label i x) eqn:Ht; [|now intros _].
  intros Hx. exfalso. unfold is_target in Ht. apply andb_true_iff in Ht as [Ht _].
  apply bool_decide_eq_true in Ht. now apply (Hx label).
Qed.

Section Kept.
Variable embed_query : string -> option string.

Lemma records_kept (label : string) (rs : list (option string * option string))
      (st : state) :
  In label target_labels ->
  Forall2 kept_if_untargeted (nodes st)
          (nodes (fold_left (record_step embed_query label) rs st)).
Proof.
  intros Hl. revert st. induction rs as [|r rs IH]; intros st; [apply kept_refl|].
  cbn [fold_left]. eapply kept_trans; [|apply IH].
  unfold record_step. destruct (snd r) as [text|]; [|apply kept_refl].
  destruct (String.eqb text ""); [apply kept_refl|].
  destruct (embed_query text); cbn [nodes];
    [now apply set_embedding_kept|apply kept_refl].
Qed.

Lemma labels_kept (ls : list string) (st : state) :
  (forall l, In l ls -> In l target_labels) ->
  Forall2 kept_if_untargeted (nodes st)
          (nodes (fold_left (label_step embed_query) ls st)).
Proof.
  revert st. induction ls as [|l ls IH]; intros st Hls; [apply kept_refl|].
  cbn [fold_left]. eapply kept_trans.
  - apply records_kept. apply Hls. now left.
  - apply IH. intros l' Hl'. apply Hls. now right.
Qed.

End Kept.

(** The backfill touches embeddings only, and only on nodes with a target
    label: the stored nodes stay in place, each with its labels and its
    other properties; a node that had an embedding still has one; a node
    with no target label is left exactly as it was. *)
Theorem backfill_touches_embeddings_only
        (embed_query : string -> option string) (ns : list db_node) :
  Forall2 same_but_embedding ns (nodes (backfill embed_query ns))
  /\ Forall2 kept_if_untargeted ns (nodes (backfill embed_query ns))
  /\ length (nodes (backfill embed_query ns)) = length ns.
Proof.
  assert (H : Forall2 same_but_embedding ns (nodes (backfill embed_query ns)))
    by apply (labels_same embed_query target_labels {| nodes := ns; calls := [] |}).
  split; [exact H|]. split.
  - apply (labels_kept embed_query target_labels {| nodes := ns; calls := [] |}). tauto.
  - symmetry. exact (Forall2_length _ _ _ H).
Qed.

(** *** The texts that are embedded *)

Lemma Forall2_same_In_r (l1 l2 : list db_node) (y : db_node) :
  Forall2 same_but_embedding l1 l2 -> In y l2 ->
  exists x, In x l1 /\ same_but_embedding x y.
Proof.
  induction 1 as [|x y' l1 l2 Hxy _ IH]; [intros []|].
  intros [<-|Hy].
  - exists x. split; [now left|assumption].
  - destruct (IH Hy) as (x' & Hx' & Hs). exists x'. split; [now right|assumption].
Qed.

Lemma missing_embedding_In (label : string) (ns : list db_node)
      (r : option string * option string) :
  In r (missing_embedding label ns) ->
  exists y, In y ns /\ lacks_embedding label y = true
            /\ r = (n_props y !! "id", n_props y !! "name").
Proof.
  unfold missing_embedding. intros H. apply in_map_iff in H as (y & <- & Hy).
  apply filter_In in Hy as [Hy Hl]. now exists y.
Qed.

Section Run.
Variable embed_query : string -> option string.

Lemma records_calls (G : string -> Prop) (label : string)
      (rs : list (option string * option string)) (st : state) :
  (forall r text, In r rs -> snd r = Some text -> text <> "" -> G text) ->
  (forall t, In t (calls st) -> G t) ->
  forall t, In t (calls (fold_left (record_step embed_query label) rs st)) -> G t.
Proof.
  revert st. induction rs as [|r rs IH]; intros st Hrs Hst; [assumption|].
  cbn [fold_left]. apply IH.
  - intros r' text Hr'. apply Hrs. now right.
  - intros t. unfold record_step. destruct (snd r) as [text|] eqn:Hr; [|apply Hst].
    destruct (String.eqb text "") eqn:E; [apply Hst|].
    apply String.eqb_neq in E.
    assert (Hnew : forall t, In t (calls st ++ [text]) -> G t).
    { intros t' Ht'. apply in_app_iff in Ht' as [Ht'|[<-|[]]]; [now apply Hst|].
      apply (Hrs r text); [now left|assumption..]. }
    destruct (embed_query text); cbn [calls]; apply Hnew.
Qed.

Lemma labels_calls (ns : list db_node) (ls : list string) (st : state) :
  (forall l, In l ls -> In l target_labels) ->
  Forall2 same_but_embedding ns (nodes st) ->
  (forall t, In t (calls st) -> to_embed ns t) ->
  forall t, In t (calls (fold_left (label_step embed_query) ls st)) -> to_embed ns t.
Proof.
  revert st. induction ls as [|l ls IH]; intros st Hls Hsame Hst; [assumption|].
  cbn [fold_left]. apply IH.
  - intros l' Hl'. apply Hls. now right.
  - eapply Forall2_same_trans; [exact Hsame|apply label_step_same].
  - unfold label_step. apply records_calls; [|assumption].
    intros r text Hr Hsnd Hne. split; [assumption|].
    apply missing_embedding_In in Hr as (y & Hy & Hlack & ->). cbn [snd] in Hsnd.
    destruct (Forall2_same_In_r _ _ y Hsame Hy) as (x & Hx & HL & HP & HE).
    unfold lacks_embedding in Hlack. apply andb_true_iff in Hlack as [Hl He].
    apply bool_decide_eq_true in Hl. apply bool_decide_eq_true in He.
    exists x. split; [assumption|]. split; [|split].
    + exists l. split; [apply Hls; now left|]. now rewrite <- HL.
    + rewrite <- HP by discriminate. assumption.
    + destruct (n_props x !! "embedding") eqn:Ex; [|reflexivity].
      destruct HE as [v Hv]; [eauto|]. congruence.
Qed.

End Run.

(** The embedding collaborator is only asked for non-empty names of nodes
    that have a target label and no embedding in the store the backfill
    starts from. *)
Theorem backfill_embeds_only_missing_names
        (embed_query : string -> option string) (ns : list db_node) (text : string) :
  In text (calls (backfill embed_query ns)) -> to_embed ns text.
Proof.
  unfold backfill.
  apply (labels_calls embed_query ns target_labels {| nodes := ns; calls := [] |}).
  - tauto.
  - apply Forall2_same_refl.
  - intros t [].
Qed.

Lemma backfill_embeds_only_missing_names_witness :
  In "Acme" (calls (backfill embed_len [acme_node; rating_node]))
  /\ to_embed [acme_node; rating_node] "Acme".
Proof.
  assert (H : In "Acme" (calls (backfill embed_len [acme_node; rating_node])))
    by (vm_compute; now left).
  split; [exact H|].
  exact (backfill_embeds_only_missing_names embed_len [acme_node; rating_node] "Acme" H).
Defined.

(** *** Convergence *)

Lemma targets_have_ids_same (ns ms : list db_node) :
  targets_have_ids ns -> Forall2 same_but_embedding ns ms -> targets_have_ids ms.
Proof.
  intros Hns Hsame y Hy (l & Hl & Hly).
  destruct (Forall2_same_In_r _ _ y Hsame Hy) as (x & Hx & HL & HP & _).
  rewrite HP by discriminate. apply (Hns x Hx). exists l. split; [assumption|].
  now rewrite <- HL.
Qed.

Lemma named_same (x y : db_node) : same_but_embedding x y -> named y -> named x.
Proof.
  intros (_ & HP & _) (text & Ht & Hne). exists text. split; [|assumption].
  now rewrite <- HP by discriminate.
Qed.

Section Run.
Variable embed_query : string -> option string.
Hypothesis embed_total : forall text, embed_query text <> None.

(** Every named node of [ms] with the label and without an embedding is
    still waiting in the records [rs]. *)
Local Abbreviation waiting label rs ms :=
  (forall y, In y ms -> lacks_embedding label y = true -> named y ->
             In (n_props y !! "id", n_props y !! "name") rs).

Lemma record_step_waiting (label : string) (st : state)
      (r : option string * option string) (rs : list (option string * option string)) :
  In label target_labels ->
  targets_have_ids (nodes st) ->
  waiting label (r :: rs) (nodes st) ->
  waiting label rs (nodes (record_step embed_query label st r)).
Proof.
  intros Hl Hids Hw y Hy Hlack Hnamed.
  destruct r as [i nm]. unfold record_step in Hy. cbn [fst snd] in Hy.
  assert (Hskip : In y (nodes st) ->
                  (forall text, nm = Some text -> text = "") ->
                  In (n_props y !! "id", n_props y !! "name") rs).
  { intros Hy' Hnm. destruct (Hw y Hy' Hlack Hnamed) as [E|Hin]; [|assumption].
    injection E as _ E. destruct Hnamed as (text & Ht & Hne).
    exfalso. apply Hne, Hnm. congruence. }
  destruct nm as [text|]; [|apply Hskip; [assumption|discriminate]].
  destruct (String.eqb text "") eqn:E.
  { apply String.eqb_eq in E. apply Hskip; [assumption|]. now intros ? [= <-]. }
  destruct (embed_query text) as [vec|] eqn:Hq; [|now apply embed_total in Hq].
  cbn [nodes] in Hy. unfold set_embedding in Hy.
  apply in_map_iff in Hy as (x & Hxy & Hx).
  destruct (is_target label i x) eqn:Ht.
  - subst y. unfold lacks_embedding in Hlack. cbn [n_props n_labels] in Hlack.
    rewrite lookup_insert_eq in Hlack.
    rewrite (bool_decide_false (Some vec = None)) in Hlack by discriminate.
    now rewrite andb_false_r in Hlack.
  - subst y. destruct (Hw x Hx Hlack Hnamed) as [E'|Hin]; [|assumption].
    exfalso. injection E' as Ei _.
    unfold lacks_embedding in Hlack. apply andb_true_iff in Hlack as [Hlab _].
    destruct (Hids x Hx) as [j Hj].
    { exists label. split; [assumption|]. now apply bool_decide_eq_true in Hlab. }
    unfold is_target in Ht. rewrite Hlab in Ht. rewrite Ei, Hj in Ht.
    rewrite bool_decide_true in Ht by reflexivity. discriminate.
Qed.

Lemma records_waiting (label : string) (rs : list (option string * option string))
      (st : state) :
  In label target_labels ->
  targets_have_ids (nodes st) ->
  waiting label rs (nodes st) ->
  waiting label [] (nodes (fold_left (record_step embed_query label) rs st)).
Proof.
  intros Hl. revert st. induction rs as [|r rs IH]; intros st Hids Hw; [assumption|].
  cbn [fold_left]. apply IH.
  - eapply targets_have_ids_same; [exact Hids|apply record_step_same].
  - now apply record_step_waiting.
Qed.

Lemma label_step_embedded (st : state) (label : string) (y : db_node) :
  In label target_labels ->
  targets_have_ids (nodes st) ->
  In y (nodes (label_step embed_query st label)) ->
  label ∈ n_labels y -> named y ->
  is_Some (n_props y !! "embedding").
Proof.
  intros Hl Hids Hy Hlab Hnamed.
  destruct (n_props y !! "embedding") as [v|] eqn:E; [eauto|]. exfalso.
  apply (records_waiting label (missing_embedding label (nodes st)) st Hl Hids) with (y := y);
    try assumption.
  - intros z Hz Hlack _. unfold missing_embedding.
    apply in_map_iff. exists z. split; [reflexivity|]. apply filter_In. now split.
  - unfold lacks_embedding. rewrite E.
    now rewrite !bool_decide_true.
Qed.

Lemma labels_embedded (ls : list string) (st : state) (l : string) (y : db_node) :
  (forall l', In l' ls -> In l' target_labels) ->
  targets_have_ids (nodes st) ->
  In l ls ->
  In y (nodes (fold_left (label_step embed_query) ls st)) ->
  l ∈ n_labels y -> named y ->
  is_Some (n_props y !! "embedding").
Proof.
  revert l y. induction ls as [|l0 ls IH] using rev_ind; intros l y Hls Hids Hl Hy Hlab Hnamed;
    [destruct Hl|].
  rewrite fold_left_app in Hy. cbn [fold_left] in Hy.
  assert (Hmid : targets_have_ids (nodes (fold_left (label_step embed_query) ls st)))
    by (eapply targets_have_ids_same; [exact Hids|apply labels_same]).
  apply in_app_iff in Hl as [Hl|[<-|[]]].
  - destruct (Forall2_same_In_r _ _ y (label_step_same embed_query _ l0) Hy)
      as (x & Hx & Hsame).
    destruct Hsame as (HL & HP & HE). apply HE.
    apply (IH l x); try assumption.
    + intros l' Hl'. apply Hls, in_app_iff. now left.
    + now rewrite <- HL.
    + apply (named_same x y); [now repeat split|assumption].
  - apply (label_step_embedded (fold_left (label_step embed_query) ls st) l0 y);
      try assumption.
    apply Hls, in_app_iff. right. now left.
Qed.

End Run.

Section Again.
Variable embed_query : string -> option string.

Lemma records_noop (label : string) (rs : list (option string * option string))
      (st : state) :
  (forall r, In r rs -> snd r = None \/ snd r = Some "") ->
  fold_left (record_step embed_query label) rs st = st.
Proof.
  induction rs as [|r rs IH]; intros Hrs; [reflexivity|].
  cbn [fold_left].
  assert (Hr : record_step embed_query label st r = st).
  { unfold record_step. destruct (Hrs r (or_introl eq_refl)) as [-> | ->]; reflexivity. }
  rewrite Hr. apply IH. intros r' Hr'. apply Hrs. now right.
Qed.

Lemma label_step_noop (st : state) (label : string) :
  In label target_labels -> embedded (nodes st) ->
  label_step embed_query st label = st.
Proof.
  intros Hl Hemb. unfold label_step. apply records_noop. intros r Hr.
  apply missing_embedding_In in Hr as (y & Hy & Hlack & ->). cbn [snd].
  unfold lacks_embedding in Hlack. apply andb_true_iff in Hlack as [Hlab He].
  apply bool_decide_eq_true in Hlab. apply bool_decide_eq_true in He.
  destruct (n_props y !! "name") as [text|] eqn:Hn; [|now left].
  right. f_equal. destruct (String.eqb text "") eqn:E; [now apply String.eqb_eq in E|].
  apply String.eqb_neq in E. exfalso.
  destruct (Hemb y Hy) as [v Hv].
  - exists label. now split.
  - exists text. now split.
  - congruence.
Qed.

Lemma labels_noop (ls : list string) (st : state) :
  (forall l, In l ls -> In l target_labels) -> embedded (nodes st) ->
  fold_left (label_step embed_query) ls st = st.
Proof.
  induction ls as [|l ls IH]; intros Hls Hemb; [reflexivity|].
  cbn [fold_left]. rewrite label_step_noop; [|apply Hls; now left|assumption].
  apply IH; [|assumption]. intros l' Hl'. apply Hls. now right.
Qed.

End Again.



End BackfillFacts.
